(** * Rubik's cube solver: the command line, the viewer and the cube core

    A shallow embedding of [example/solver.cpp] (the command line of the
    interactive solver and its key callback) and of [src/viewer_gl.cpp]
    (the OpenGL viewer: rotation queue, animation manager, zoom), with the
    properties the specification states about them and further properties
    the code itself shows.  C++ [int] values are
    kept as [Z]; [double] values are the kernel's binary64 floats, so that
    comparisons with a NaN behave as in the program.

    The interactive part of [solver.cpp] (the scramble routine, the key
    callback, the start of the viewer by [main]) is embedded too, over a
    solver and a random generator that are parameters, and with it the
    loop of [viewer_gl::run] as far as it calls [update_rotate] and the
    callbacks.  The drawing code of the viewer is embedded as the OpenGL
    calls it makes, with [GLfloat] arithmetic in binary32.

    The core the two files are written against (cube.h, algo.h and their
    implementations) is not among the sources.  Its cube algebra, its
    coordinate encoders and its pruning-table builder are modelled from
    the specification, in the modules [Cube], [Coord], [Prune] and
    [Tables]; every definition of that kind says so.

    The definitions come first, module by module; the properties follow. *)

From Stdlib Require Import ZArith Lia List Bool Ascii String.
From Stdlib Require Import Floats.
From stdpp Require Import base option list sorting gmap strings.
From stdpp Require Import pretty.

Local Open Scope Z_scope.

(** ** The command line of [solver.cpp] *)

Module Cli.
Local Open Scope string_scope.
Local Open Scope Z_scope.

(** [std::stoi] fails with one of two exceptions. *)
Inductive stoi_error := invalid_argument | out_of_range.

Definition INT_MIN : Z := - 2 ^ 31.
Definition INT_MAX : Z := 2 ^ 31 - 1.

(** The characters [isspace] accepts in the C locale. *)
Definition isspace (c : ascii) : bool :=
  let n := nat_of_ascii c in
  (n =? 32)%nat || ((9 <=? n)%nat && (n <=? 13)%nat).

Definition digit_of (c : ascii) : option Z :=
  let n := Z.of_nat (nat_of_ascii c) in
  if (48 <=? n) && (n <=? 57) then Some (n - 48) else None.

Fixpoint skip_space (s : string) : string :=
  match s with
  | String c r => if isspace c then skip_space r else s
  | EmptyString => s
  end.

(** The decimal digits at the start of [s], read into [acc]; what follows
    them is ignored, as [strtol] does. *)
Fixpoint read_digits (s : string) (acc : Z) : Z :=
  match s with
  | String c r =>
      match digit_of c with
      | Some d => read_digits r (10 * acc + d)
      | None => acc
      end
  | EmptyString => acc
  end.

Definition starts_with_digit (s : string) : bool :=
  match s with
  | String c _ => bool_decide (is_Some (digit_of c))
  | EmptyString => false
  end.

(** [std::stoi(s)]: leading blanks, an optional sign, decimal digits.  No
    digit raises [invalid_argument]; a value that is no [int] raises
    [out_of_range]. *)
Definition stoi (s : string) : stoi_error + Z :=
  let s1 := skip_space s in
  let '(neg, s2) :=
    match s1 with
    | String "-"%char r => (true, r)
    | String "+"%char r => (false, r)
    | _ => (false, s1)
    end in
  if starts_with_digit s2 then
    let v := read_digits s2 0 in
    let v := if neg : bool then - v else v in
    if (INT_MIN <=? v) && (v <=? INT_MAX) then inr v else inl out_of_range
  else inl invalid_argument.

(** [std::map::emplace]: a key that is already bound keeps its value. *)
Definition emplace (k v : string) (m : gmap string string) : gmap string string :=
  match m !! k with
  | Some _ => m
  | None => <[k:=v]> m
  end.

(** The two solvers the factory functions build. *)
Inductive algo_kind := krof | kociemba.

(** How [main] goes on after the command line is read. *)
Inductive outcome :=
  | ExitUsage (msg : string)       (* usage(msg): the process exits *)
  | ExitFatal (e : stoi_error)     (* the exception reaches main's handler *)
  | Run (a : algo_kind) (threads scramble : Z).
                                   (* create_*_algo(threads), then the viewer *)

(** The loop of [main] over [argv[1..]]. *)
Fixpoint parse_args (args : list string) (arg : gmap string string)
  : string + gmap string string :=
  match args with
  | [] => inr arg
  | key :: rest =>
      if negb (String.length key =? 2)%nat
         || negb (bool_decide (String.get 0 key = Some "-"%char))
      then inl ""
      else
        match rest with
        | [] => inl ("missing value for option " ++ key)
        | value :: rest' =>
            parse_args rest' (emplace (substring 1 (String.length key - 1) key) value arg)
        end
  end.

(** [arg.contains(k) ? std::stoi(arg.at(k)) : dflt] *)
Definition int_option (arg : gmap string string) (k : string) (dflt : Z)
  : stoi_error + Z :=
  match arg !! k with
  | Some v => stoi v
  | None => inr dflt
  end.

(** The three checks of [main], in the program's order, and the solver it
    builds when they pass. *)
Definition check_options (algo : string) (threads scramble : Z) : outcome :=
  if negb (bool_decide (algo = "kociemba") || bool_decide (algo = "krof"))
  then ExitUsage "invalid algorithm"
  else if (threads <? 1) || (32 <? threads) then ExitUsage "threads 1-32 only"
  else if (scramble <? 0) || (100 <? scramble) then ExitUsage "scramble 0-100 only"
  else if bool_decide (algo = "krof") then Run krof threads scramble
  else Run kociemba threads scramble.

(** The options are read in the order [a], [t], [s]; a failing [stoi]
    leaves [main] before any check. *)
Definition configure (arg : gmap string string) : outcome :=
  let algo := default "kociemba" (arg !! "a") in
  match int_option arg "t" 1 with
  | inl e => ExitFatal e
  | inr threads =>
      match int_option arg "s" 20 with
      | inl e => ExitFatal e
      | inr scramble => check_options algo threads scramble
      end
  end.

(** [main(argc, argv)] up to the construction of the solver; [argv] holds
    the program's name first. *)
Definition main (argv : list string) : outcome :=
  match parse_args (tail argv) ∅ with
  | inl msg => ExitUsage msg
  | inr arg => configure arg
  end.

(** No solver is constructed. *)
Definition rejected (o : outcome) : Prop :=
  match o with
  | Run _ _ _ => False
  | _ => True
  end.

End Cli.

(** ** Command lines and their options *)

Module CommandLine.
Import Cli.
Local Open Scope string_scope.

(** [-c], the option whose name is the character [c]. *)
Definition dash (c : ascii) : string := String "-" (String c "").

(** What the loop of [main] accepts as a key: two characters, the first
    a dash. *)
Definition is_key (key : string) : bool :=
  (String.length key =? 2)%nat && bool_decide (String.get 0 key = Some "-"%char).

(** Command lines made of pairs: a key, then its value. *)
Inductive pairs_ok : list string → Prop :=
  | pairs_nil : pairs_ok []
  | pairs_cons key value rest :
      is_key key = true → pairs_ok rest → pairs_ok (key :: value :: rest).

(** For the proofs: the sign [std::stoi] reads after the blanks. *)
Definition strip_sign (s : string) : bool * string :=
  match s with
  | String c r =>
      if bool_decide (c = "-"%char) then (true, r)
      else if bool_decide (c = "+"%char) then (false, r)
      else (false, s)
  | EmptyString => (false, s)
  end.

(** For the proofs: two option maps that [configure] cannot tell apart.
    The same keys are bound, and the values of a key differ only if the
    key is not [a] and [std::stoi] reads the same from both. *)
Definition same_numbers (m1 m2 : gmap string string) : Prop :=
  ∀ k, m1 !! k = m2 !! k
       ∨ (k ≠ "a" ∧ ∃ v1 v2, m1 !! k = Some v1 ∧ m2 !! k = Some v2 ∧ stoi v1 = stoi v2).

(** For the proofs: two option maps that agree away from the key [k]. *)
Definition agree_off (k : string) (m1 m2 : gmap string string) : Prop :=
  ∀ k', k' ≠ k → m1 !! k' = m2 !! k'.

End CommandLine.

(** ** The viewer of [viewer_gl.cpp] *)

Module Viewer.

(** [face_t::face_type]; the order is the one [kFaceStr] and the keys 1-6
    of [solver.cpp] use: U D F B L R. *)
Inductive face_type := top | bottom | front | back | left | right.

(** What the viewer takes from headers that are not among the sources:
    the two cube models with their [rotate] methods and default (solved)
    values, and the system clock. *)
Class Platform := {
  cube_t : Type;
  cube4_t : Type;
  cube_default : cube_t;
  cube4_default : cube4_t;
  (* cube_t::rotate(face, cnt) *)
  cube_rotate : face_type → Z → cube_t → cube_t;
  (* cube4_t::rotate(face, depth, cnt) *)
  cube4_rotate : face_type → Z → Z → cube4_t → cube4_t;
  (* std::chrono::time_point<system_clock> and its default value *)
  time_point : Type;
  epoch : time_point;
  (* std::chrono::duration<double>(a - b).count() *)
  seconds : time_point → time_point → float;
}.

Section ViewerDefs.
Context `{Platform}.

Record rotate_manager_t := {
  t_s : time_point;
  duration : float;
  active : bool;
}.

Definition is_active (m : rotate_manager_t) : bool := active m.

(** [std::min(a, b)]: [b] when [b < a], else [a]. *)
Definition std_min (a b : float) : float := if (b <? a)%float then b else a.

(** [rotate_manager_t::get], reading the clock as [now]. *)
Definition get (now : time_point) (m : rotate_manager_t) : float * rotate_manager_t :=
  let elapsed := seconds now (t_s m) in
  let r := (elapsed / duration m)%float in
  let m' := if (1 <=? r)%float
            then {| t_s := t_s m; duration := duration m; active := false |}
            else m in
  (std_min r 1, m').

(** [rotate_manager_t::set], reading the clock as [now]. *)
Definition set (now : time_point) (d : float) (m : rotate_manager_t) : rotate_manager_t :=
  {| t_s := now; duration := d; active := true |}.

(** An entry of [rotate_que]: face, depth, count. *)
Definition rotate_que_t : Type := face_type * Z * Z.

(** The fields of [viewer_gl] its methods below read or write ([vball] and
    [window] are left out).  [GLfloat] fields are kept as binary64. *)
Record viewer_gl := {
  rotate_que : list rotate_que_t;      (* front of the queue first *)
  rotate_mask : Z * Z * Z;
  rotate_deg : float;
  rotate_vec : float;
  rotate_mgr : rotate_manager_t;
  rotate_duration : float;
  zoom_factor : float;
  yaw_deg : float;
  pitch_deg : float;
  cube_size : Z;
  cube : cube_t;
  cube4 : cube4_t;
}.

(** The member initialisers of the class. *)
Definition viewer_new : viewer_gl := {|
  rotate_que := [];
  rotate_mask := (-1, -1, -1);
  rotate_deg := 0;
  rotate_vec := 0;
  rotate_mgr := {| t_s := epoch; duration := 0; active := false |};
  rotate_duration := 1;
  zoom_factor := 1;
  yaw_deg := 0;
  pitch_deg := 0;
  cube_size := 3;
  cube := cube_default;
  cube4 := cube4_default;
|}.

Definition set_cube (c : cube_t) (v : viewer_gl) : viewer_gl :=
  {| rotate_que := rotate_que v; rotate_mask := rotate_mask v;
     rotate_deg := rotate_deg v; rotate_vec := rotate_vec v;
     rotate_mgr := rotate_mgr v; rotate_duration := rotate_duration v;
     zoom_factor := zoom_factor v; yaw_deg := yaw_deg v; pitch_deg := pitch_deg v;
     cube_size := 3; cube := c; cube4 := cube4 v |}.

Definition set_cube4 (c : cube4_t) (v : viewer_gl) : viewer_gl :=
  {| rotate_que := rotate_que v; rotate_mask := rotate_mask v;
     rotate_deg := rotate_deg v; rotate_vec := rotate_vec v;
     rotate_mgr := rotate_mgr v; rotate_duration := rotate_duration v;
     zoom_factor := zoom_factor v; yaw_deg := yaw_deg v; pitch_deg := pitch_deg v;
     cube_size := 4; cube := cube v; cube4 := c |}.

Definition set_rotate_duration (d : float) (v : viewer_gl) : viewer_gl :=
  {| rotate_que := rotate_que v; rotate_mask := rotate_mask v;
     rotate_deg := rotate_deg v; rotate_vec := rotate_vec v;
     rotate_mgr := rotate_mgr v; rotate_duration := d;
     zoom_factor := zoom_factor v; yaw_deg := yaw_deg v; pitch_deg := pitch_deg v;
     cube_size := cube_size v; cube := cube v; cube4 := cube4 v |}.

Definition with_rotate_que (q : list rotate_que_t) (v : viewer_gl) : viewer_gl :=
  {| rotate_que := q; rotate_mask := rotate_mask v;
     rotate_deg := rotate_deg v; rotate_vec := rotate_vec v;
     rotate_mgr := rotate_mgr v; rotate_duration := rotate_duration v;
     zoom_factor := zoom_factor v; yaw_deg := yaw_deg v; pitch_deg := pitch_deg v;
     cube_size := cube_size v; cube := cube v; cube4 := cube4 v |}.

(** C++ [a % b] on [int]: the remainder of the division that truncates
    towards zero, so it has the sign of [a]. *)
Definition cpp_rem (a b : Z) : Z := Z.rem a b.

(** [add_rotate(f, depth, cnt)] *)
Definition add_rotate3 (f : face_type) (depth cnt : Z) (v : viewer_gl) : viewer_gl :=
  with_rotate_que (rotate_que v ++ [(f, depth, cpp_rem cnt 4)])%list v.

(** [add_rotate(f, cnt)] *)
Definition add_rotate (f : face_type) (cnt : Z) (v : viewer_gl) : viewer_gl :=
  add_rotate3 f 1 cnt v.

Definition adjust_orbit (dAlpha dBeta : float) (v : viewer_gl) : viewer_gl :=
  {| rotate_que := rotate_que v; rotate_mask := rotate_mask v;
     rotate_deg := rotate_deg v; rotate_vec := rotate_vec v;
     rotate_mgr := rotate_mgr v; rotate_duration := rotate_duration v;
     zoom_factor := zoom_factor v;
     yaw_deg := (yaw_deg v + dBeta)%float; pitch_deg := (pitch_deg v + dAlpha)%float;
     cube_size := cube_size v; cube := cube v; cube4 := cube4 v |}.

(** [std::clamp(v, lo, hi)]: [lo] when [v < lo], else [hi] when [hi < v],
    else [v]. *)
Definition std_clamp (x lo hi : float) : float :=
  if (x <? lo)%float then lo else if (hi <? x)%float then hi else x.

(** The two bounds of [zoom]; [0.1] is the double nearest to one tenth. *)
Definition zoom_lo : float := 0x1.999999999999ap-4%float.
Definition zoom_hi : float := 10%float.

Definition zoom (factor : float) (v : viewer_gl) : viewer_gl :=
  {| rotate_que := rotate_que v; rotate_mask := rotate_mask v;
     rotate_deg := rotate_deg v; rotate_vec := rotate_vec v;
     rotate_mgr := rotate_mgr v; rotate_duration := rotate_duration v;
     zoom_factor := std_clamp (zoom_factor v * factor)%float zoom_lo zoom_hi;
     yaw_deg := yaw_deg v; pitch_deg := pitch_deg v;
     cube_size := cube_size v; cube := cube v; cube4 := cube4 v |}.

(** The [switch] of [update_rotate]: the layer to turn and the sense. *)
Definition start_mask (ftype : face_type) (cube_size depth : Z) (vec : float)
  : (Z * Z * Z) * float :=
  match ftype with
  | top => ((cube_size - depth, -1, -1), vec)
  | bottom => ((depth - 1, -1, -1), (- vec)%float)
  | left => ((-1, -1, depth - 1), (- vec)%float)
  | right => ((-1, -1, cube_size - depth), vec)
  | front => ((-1, cube_size - depth, -1), (- vec)%float)
  | back => ((-1, depth - 1, -1), vec)
  end.

Definition float_of_int (n : Z) : float := PrimFloat.of_uint63 (Uint63.of_Z n).

(** [update_rotate]; the clock is read twice, by [set] ([now_set]) and by
    [get] ([now_get]). *)
Definition update_rotate (now_set now_get : time_point) (v : viewer_gl) : viewer_gl :=
  match rotate_que v with
  | [] => v
  | (ftype, depth, cnt) :: rest =>
      (* if(!rotate_mgr.is_active()) { ... } *)
      let '(mgr1, vec1, mask1) :=
        if negb (is_active (rotate_mgr v)) then
          let mgr := set now_set (rotate_duration v) (rotate_mgr v) in
          let vec := if cnt <? 0 then (-1)%float else 1%float in
          let '(mask, vec) := start_mask ftype (cube_size v) depth vec in
          (mgr, vec, mask)
        else (rotate_mgr v, rotate_vec v, rotate_mask v) in
      (* rotate_deg = std::abs(cnt)*90.f*rotate_mgr.get(); *)
      let '(r, mgr2) := get now_get mgr1 in
      let deg := (float_of_int (Z.abs cnt) * 90 * r)%float in
      (* if(!rotate_mgr.is_active()) { ... } *)
      if negb (is_active mgr2) then
        {| rotate_que := rest; rotate_mask := (-1, -1, -1);
           rotate_deg := deg; rotate_vec := vec1;
           rotate_mgr := mgr2; rotate_duration := rotate_duration v;
           zoom_factor := zoom_factor v; yaw_deg := yaw_deg v; pitch_deg := pitch_deg v;
           cube_size := cube_size v;
           cube := if cube_size v =? 3 then cube_rotate ftype cnt (cube v) else cube v;
           cube4 := if cube_size v =? 3 then cube4 v
                    else cube4_rotate ftype depth cnt (cube4 v) |}
      else
        {| rotate_que := rotate_que v; rotate_mask := mask1;
           rotate_deg := deg; rotate_vec := vec1;
           rotate_mgr := mgr2; rotate_duration := rotate_duration v;
           zoom_factor := zoom_factor v; yaw_deg := yaw_deg v; pitch_deg := pitch_deg v;
           cube_size := cube_size v; cube := cube v; cube4 := cube4 v |}
  end.

(** The frames of [run]: one [update_rotate] per pair of clock readings. *)
Fixpoint run_frames (clock : list (time_point * time_point)) (v : viewer_gl) : viewer_gl :=
  match clock with
  | [] => v
  | (now_set, now_get) :: clock' => run_frames clock' (update_rotate now_set now_get v)
  end.

(** The queued moves [q] applied to the model on display, oldest first. *)
Fixpoint apply_queue (size : Z) (q : list rotate_que_t) (m : cube_t * cube4_t)
  : cube_t * cube4_t :=
  match q with
  | [] => m
  | (ftype, depth, cnt) :: q' =>
      apply_queue size q'
        (if size =? 3 then (cube_rotate ftype cnt (fst m), snd m)
         else (fst m, cube4_rotate ftype depth cnt (snd m)))
  end.

(** The two factors the program itself passes, [0.9f] and [1.1f], as the
    doubles these [float] literals convert to. *)
Definition zoom_in_factor : float := 0x1.ccccccp-1%float.
Definition zoom_out_factor : float := 0x1.19999ap+0%float.

(** [on_scroll]: the wheel zooms in when [yoff] is positive, out
    otherwise. *)
Definition on_scroll (yoff : float) (v : viewer_gl) : viewer_gl :=
  zoom (if (0 <? yoff)%float then zoom_in_factor else zoom_out_factor) v.

(** [z] lies in the closed interval from [zoom_lo] to [zoom_hi]. *)
Definition in_zoom_range (z : float) : Prop :=
  (zoom_lo <=? z)%float = true ∧ (z <=? zoom_hi)%float = true.

(** A sequence of [zoom] calls. *)
Definition zooms (factors : list float) (v : viewer_gl) : viewer_gl :=
  fold_left (λ v f, zoom f v) factors v.

End ViewerDefs.
End Viewer.

(** ** The key callback of [solver.cpp] *)

Module Callback.
Import Viewer.
Local Open Scope string_scope.
Local Open Scope Z_scope.

(** [static_cast<int>(f)] *)
Definition face_index (f : face_type) : Z :=
  match f with
  | top => 0 | bottom => 1 | front => 2 | back => 3 | left => 4 | right => 5
  end.

(** [kFaceStr[faceIdx]] *)
Definition kFaceStr (faceIdx : Z) : string :=
  match faceIdx with
  | 0 => "U" | 1 => "D" | 2 => "F" | 3 => "B" | 4 => "L" | _ => "R"
  end.

(** What [printRotate(faceIdx, times)] writes. *)
Definition printRotate (faceIdx times : Z) : string :=
  kFaceStr faceIdx ++ (if 1 <? times then (if times =? 2 then "2" else "'") else "").

(** [(r % 4 + 4) & 3], the count the solve branch prints for a move. *)
Definition shown_turns (r : Z) : Z := Z.land (cpp_rem r 4 + 4) 3.

(** The line the solve branch prints for a solution. *)
Fixpoint solution_text (solution : list (face_type * Z)) : string :=
  match solution with
  | [] => ""
  | (f, r) :: rest => printRotate (face_index f) (shown_turns r) ++ " " ++ solution_text rest
  end.

Section CallbackDefs.
Context `{Platform}.

(** The loop that ends the solve branch: each move of the solution is
    queued in the viewer and applied to the callback's cube. *)
Fixpoint play (solution : list (face_type * Z)) (cube : cube_t) (viewer : viewer_gl)
  : cube_t * viewer_gl :=
  match solution with
  | [] => (cube, viewer)
  | (f, r) :: rest => play rest (cube_rotate f r cube) (add_rotate f r viewer)
  end.

(** The solve branch after [solve] has returned [solution]: the viewer is
    given the cube as it stands, then the solution is played. *)
Definition play_solution (solution : list (face_type * Z)) (cube : cube_t)
    (viewer : viewer_gl) : cube_t * viewer_gl :=
  play solution cube (set_cube cube viewer).

End CallbackDefs.
End Callback.

(** ** Sessions of the viewer *)

Module Session.
Import Viewer.
Section SessionDefs.
Context `{Platform}.

(** What reaches a viewer once it is created: a call of the [viewer_t]
    interface, a wheel event for the scroll callback [init] registers, or
    one [update_rotate] of the loop of [run] with its two clock
    readings. *)
Inductive call :=
  | call_set_cube (c : cube_t)
  | call_set_cube4 (c : cube4_t)
  | call_set_rotate_duration (d : float)
  | call_add_rotate (f : face_type) (cnt : Z)
  | call_add_rotate3 (f : face_type) (depth cnt : Z)
  | call_adjust_orbit (dAlpha dBeta : float)
  | call_zoom (factor : float)
  | call_on_scroll (yoff : float)
  | call_update_rotate (now_set now_get : time_point).

Definition perform (c : call) (v : viewer_gl) : viewer_gl :=
  match c with
  | call_set_cube c => set_cube c v
  | call_set_cube4 c => set_cube4 c v
  | call_set_rotate_duration d => set_rotate_duration d v
  | call_add_rotate f cnt => add_rotate f cnt v
  | call_add_rotate3 f depth cnt => add_rotate3 f depth cnt v
  | call_adjust_orbit dAlpha dBeta => adjust_orbit dAlpha dBeta v
  | call_zoom factor => zoom factor v
  | call_on_scroll yoff => on_scroll yoff v
  | call_update_rotate now_set now_get => update_rotate now_set now_get v
  end.

(** The viewer after the calls, oldest first. *)
Definition session (calls : list call) (v : viewer_gl) : viewer_gl :=
  fold_left (λ v c, perform c v) calls v.

(** At most one of the three axes has a layer to turn. *)
Definition one_layer (mask : Z * Z * Z) : Prop :=
  ∃ x, mask = (x, -1, -1) ∨ mask = (-1, x, -1) ∨ mask = (-1, -1, x).

(** The entries the calls put in the queue, oldest first. *)
Fixpoint queued (calls : list call) : list rotate_que_t :=
  match calls with
  | [] => []
  | call_add_rotate f cnt :: calls' => (f, 1, cpp_rem cnt 4) :: queued calls'
  | call_add_rotate3 f depth cnt :: calls' => (f, depth, cpp_rem cnt 4) :: queued calls'
  | _ :: calls' => queued calls'
  end.

(** The calls that replace the model on display. *)
Definition sets_cube (c : call) : bool :=
  match c with
  | call_set_cube _ | call_set_cube4 _ => true
  | _ => false
  end.

(** The models the viewer shows once its queue has been played. *)
Definition shown_at_rest (v : viewer_gl) : cube_t * cube4_t :=
  apply_queue (cube_size v) (rotate_que v) (cube v, cube4 v).

(** For the proofs: what every call keeps. *)
Definition steady (v : viewer_gl) : Prop :=
  (is_active (rotate_mgr v) = false → rotate_mask v = (-1, -1, -1))
  ∧ (is_active (rotate_mgr v) = true → rotate_que v ≠ [])
  ∧ one_layer (rotate_mask v).

(** For the proofs: while an animation runs, the layer marked and the
    sense of the turn are those of the move at the front of the queue. *)
Definition marks_front (v : viewer_gl) : Prop :=
  is_active (rotate_mgr v) = true →
  ∃ f depth cnt rest,
    rotate_que v = (f, depth, cnt) :: rest
    ∧ (rotate_mask v, rotate_vec v)
      = start_mask f (cube_size v) depth (if cnt <? 0 then (-1)%float else 1%float).

End SessionDefs.
End Session.

(** ** The drawing code of [viewer_gl.cpp] *)

Module Draw.
Import Viewer.

(** [GLfloat]: a binary32 value, with the arithmetic of that format. *)
Definition GLfloat : Type := spec_float.

(** The conversions to [GLfloat] of an [int] and of a [double]. *)
Definition glfloat_of_int (n : Z) : GLfloat := binary_normalize 24 128 n 0 false.

Definition glfloat_of_double (d : float) : GLfloat :=
  match Prim2SF d with
  | S754_finite s m e => binary_round 24 128 s m e
  | x => x
  end.

Definition fadd : GLfloat → GLfloat → GLfloat := SFadd 24 128.
Definition fsub : GLfloat → GLfloat → GLfloat := SFsub 24 128.
Definition fmul : GLfloat → GLfloat → GLfloat := SFmul 24 128.
Definition fdiv : GLfloat → GLfloat → GLfloat := SFdiv 24 128.
Definition fneg : GLfloat → GLfloat := SFopp.

(** The calls of the OpenGL interface the drawing code makes, and the
    call of [virtual_ball_t::rotate] (virtual_rotate.hpp is not among the
    sources). *)
Inductive gl_call :=
  | glPushMatrix
  | glPopMatrix
  | glTranslatef (x y z : GLfloat)
  | glRotatef (angle x y z : GLfloat)
  | glLineWidth (width : GLfloat)
  | glColor3fv (v : GLfloat * GLfloat * GLfloat)
  | glBegin (mode : Z)
  | glVertex3f (x y z : GLfloat)
  | glEnd
  | vball_rotate.

(** The two modes of [GL/gl.h] the code draws in. *)
Definition GL_LINE_LOOP : Z := 2.
Definition GL_QUADS : Z := 7.

(** [block_t], the colours of the six faces of a block (cube.h is not
    among the sources; the fields are those [draw_block] reads). *)
Record block_t := {
  block_back : Z;
  block_front : Z;
  block_top : Z;
  block_bottom : Z;
  block_left : Z;
  block_right : Z;
}.

(** The table [C] of [set_color]; the [double] literals are converted to
    [GLfloat]. *)
Definition C : list (GLfloat * GLfloat * GLfloat) :=
  let c0 := glfloat_of_int 0 in
  let c1 := glfloat_of_int 1 in
  let c03 := glfloat_of_double 0x1.3333333333333p-2 in
  let c05 := glfloat_of_double 0x1p-1 in
  [(c0, c1, c0); (c03, c03, c1); (c1, c03, c03); (c1, c05, c0);
   (c1, c1, c0); (c1, c1, c1); (c0, c0, c0)].

(** [set_color(t)], for the colours 0-6 the table has. *)
Definition set_color (t : Z) : list gl_call :=
  [glColor3fv (nth (Z.to_nat t) C (glfloat_of_int 0, glfloat_of_int 0, glfloat_of_int 0))].

(** [draw_block(x, y, z, s, col, mode)] *)
Definition draw_block (x y z s : GLfloat) (col : block_t) (mode : Z) : list gl_call :=
  (* back *)
  set_color (block_back col)
  ++ [glBegin mode;
      glVertex3f x y z; glVertex3f x (fadd y s) z;
      glVertex3f (fadd x s) (fadd y s) z; glVertex3f (fadd x s) y z;
      glEnd]
  (* front *)
  ++ set_color (block_front col)
  ++ [glBegin mode;
      glVertex3f x y (fsub z s); glVertex3f x (fadd y s) (fsub z s);
      glVertex3f (fadd x s) (fadd y s) (fsub z s); glVertex3f (fadd x s) y (fsub z s);
      glEnd]
  (* top *)
  ++ set_color (block_top col)
  ++ [glBegin mode;
      glVertex3f x (fadd y s) z; glVertex3f (fadd x s) (fadd y s) z;
      glVertex3f (fadd x s) (fadd y s) (fsub z s); glVertex3f x (fadd y s) (fsub z s);
      glEnd]
  (* bottom *)
  ++ set_color (block_bottom col)
  ++ [glBegin mode;
      glVertex3f x y z; glVertex3f (fadd x s) y z;
      glVertex3f (fadd x s) y (fsub z s); glVertex3f x y (fsub z s);
      glEnd]
  (* left *)
  ++ set_color (block_left col)
  ++ [glBegin mode;
      glVertex3f x y z; glVertex3f x (fadd y s) z;
      glVertex3f x (fadd y s) (fsub z s); glVertex3f x y (fsub z s);
      glEnd]
  (* right *)
  ++ set_color (block_right col)
  ++ [glBegin mode;
      glVertex3f (fadd x s) y z; glVertex3f (fadd x s) (fadd y s) z;
      glVertex3f (fadd x s) (fadd y s) (fsub z s); glVertex3f (fadd x s) y (fsub z s);
      glEnd].

(** [rotate_guard]: what its constructor and its destructor call. *)
Definition rotate_guard (mask idx : Z) (deg X Y Z : GLfloat) : list gl_call :=
  if mask =? idx then [glPushMatrix; glRotatef deg X Y Z] else [].

Definition rotate_guard_end (mask idx : Z) : list gl_call :=
  if mask =? idx then [glPopMatrix] else [].

(** The block [{6,6,6,6,6,6}] of the outlines. *)
Definition outline : block_t :=
  {| block_back := 6; block_front := 6; block_top := 6;
     block_bottom := 6; block_left := 6; block_right := 6 |}.

Section DrawDefs.
Context `{Platform}.

(** [draw_cube(cb)], with [cb.getBlock] as [getBlock]. *)
Section DrawCube.
Context (getBlock : Z → Z → Z → block_t) (v : viewer_gl).

(** The fields the guards read: the three entries of [rotate_mask], and
    [rotate_deg] and [rotate_vec] as the [GLfloat] values they are. *)
Definition mask0 : Z := (rotate_mask v).1.1.
Definition mask1 : Z := (rotate_mask v).1.2.
Definition mask2 : Z := (rotate_mask v).2.
Definition deg : GLfloat := glfloat_of_double (rotate_deg v).
Definition vec : GLfloat := glfloat_of_double (rotate_vec v).

(** The locals [s] and [base]; [zero] is the [GLfloat] an [int] 0
    converts to. *)
Definition zero : GLfloat := glfloat_of_int 0.
Definition s : GLfloat :=
  fdiv (glfloat_of_double 0x1.99999ap-1) (glfloat_of_int (cube_size v)).
Definition base : GLfloat :=
  fmul (fmul (fneg s) (glfloat_of_int (cube_size v))) (glfloat_of_double 0x1p-1).

(** The loop over [k], from [k] on with [n] rounds to go. *)
Fixpoint loop_k (n : nat) (i j k : Z) (x y z : GLfloat) : list gl_call :=
  match n with
  | O => []
  | S n' =>
      rotate_guard mask2 k deg vec zero zero
      ++ draw_block x y z s (getBlock i j k) GL_QUADS
      ++ draw_block x y z s outline GL_LINE_LOOP
      ++ rotate_guard_end mask2 k
      ++ loop_k n' i j (k + 1) (fadd x s) y z
  end.

(** The loop over [j]; every round starts with [x] at [base]. *)
Fixpoint loop_j (n : nat) (i j : Z) (y z : GLfloat) : list gl_call :=
  match n with
  | O => []
  | S n' =>
      rotate_guard mask1 j deg zero zero vec
      ++ loop_k (Z.to_nat (cube_size v)) i j 0 base y z
      ++ rotate_guard_end mask1 j
      ++ loop_j n' i (j + 1) y (fsub z s)
  end.

(** The loop over [i]; every round starts with [z] at [-base]. *)
Fixpoint loop_i (n : nat) (i : Z) (y : GLfloat) : list gl_call :=
  match n with
  | O => []
  | S n' =>
      rotate_guard mask0 i deg zero vec zero
      ++ loop_j (Z.to_nat (cube_size v)) i 0 y (fneg base)
      ++ rotate_guard_end mask0 i
      ++ loop_i n' (i + 1) (fadd y s)
  end.

(** What is called before the loops: the camera. *)
Definition camera : list gl_call :=
  [glTranslatef zero zero (glfloat_of_double (-3 * zoom_factor v)%float);
   glRotatef (glfloat_of_double (pitch_deg v)) (glfloat_of_int 1) zero zero;
   glRotatef (glfloat_of_double (yaw_deg v)) zero (glfloat_of_int 1) zero;
   vball_rotate].

Definition draw_cube : list gl_call :=
  [glPushMatrix] ++ camera ++ [glLineWidth (glfloat_of_double 0x1.8p+0)]
  ++ loop_i (Z.to_nat (cube_size v)) 0 base
  ++ [glPopMatrix].

End DrawCube.

(** The models give the colours of their blocks ([getBlock], declared in
    a header that is not among the sources). *)
Context (getBlock : cube_t → Z → Z → Z → block_t)
        (getBlock4 : cube4_t → Z → Z → Z → block_t).

(** What [run] draws in a round: the model of the current size. *)
Definition draw (v : viewer_gl) : list gl_call :=
  if cube_size v =? 3 then draw_cube (getBlock (cube v)) v
  else draw_cube (getBlock4 (cube4 v)) v.

End DrawDefs.

(** The matrix stack of OpenGL, as far as the calls above use it: the
    current matrix is kept as the transforms it has received, oldest
    first, and [saved] are the matrices pushed.  [glTranslatef] and
    [glRotatef] multiply the current matrix, and so does the call of
    [virtual_ball_t::rotate], which is taken not to push or pop.
    [drawn_under calls cur saved] is the list, for every [glBegin] of
    [calls], of the matrix it is drawn under, with the matrices at the
    end; there is none when a [glPopMatrix] finds the stack empty. *)
Fixpoint drawn_under (calls : list gl_call) (cur : list gl_call)
    (saved : list (list gl_call))
  : option (list (list gl_call) * (list gl_call * list (list gl_call))) :=
  match calls with
  | [] => Some ([], (cur, saved))
  | c :: calls' =>
      match c with
      | glPushMatrix => drawn_under calls' cur (cur :: saved)
      | glPopMatrix =>
          match saved with
          | [] => None
          | m :: saved' => drawn_under calls' m saved'
          end
      | glTranslatef _ _ _ | glRotatef _ _ _ _ | vball_rotate =>
          drawn_under calls' (cur ++ [c]) saved
      | glBegin _ =>
          match drawn_under calls' cur saved with
          | Some (ms, st) => Some (cur :: ms, st)
          | None => None
          end
      | _ => drawn_under calls' cur saved
      end
  end.

(** For the proofs: [calls] draw [f cur] under a matrix [cur] and leave
    the matrices as they found them. *)
Definition draws (calls : list gl_call) (f : list gl_call → list (list gl_call)) : Prop :=
  ∀ cur saved, drawn_under calls cur saved = Some (f cur, (cur, saved)).

Section TurnedDefs.
Context `{Platform}.

(** The turns the guards put on the block [(i, j, k)]: one for each axis
    whose mask entry is the block's index. *)
Definition turned (v : viewer_gl) (i j k : Z) : list gl_call :=
  (if mask0 v =? i then [glRotatef (deg v) zero (vec v) zero] else [])
  ++ (if mask1 v =? j then [glRotatef (deg v) zero zero (vec v)] else [])
  ++ (if mask2 v =? k then [glRotatef (deg v) (vec v) zero zero] else []).

(** The indices of the loops. *)
Definition indices (v : viewer_gl) : list Z := seqZ 0 (cube_size v).

(** The matrices the primitives of a frame are to be drawn under: for
    every block in loop order, twelve times (six faces, filled and
    outlined) the matrix before the frame with the camera and the
    block's turns. *)
Definition frame_matrices (v : viewer_gl) (cur : list gl_call) : list (list gl_call) :=
  i ← indices v; j ← indices v; k ← indices v;
  replicate 12 (cur ++ camera v ++ turned v i j k).

(** The blocks of a frame, in loop order. *)
Definition blocks (v : viewer_gl) : list (Z * Z * Z) :=
  i ← indices v; j ← indices v; k ← indices v; [(i, j, k)].

(** The block [b] is drawn under a turn. *)
Definition is_turned (v : viewer_gl) (b : Z * Z * Z) : bool :=
  match turned v b.1.1 b.1.2 b.2 with
  | [] => false
  | _ => true
  end.

End TurnedDefs.
End Draw.

(** ** The GLFW constants the callbacks compare with *)

Module Glfw.

(** The values [GLFW/glfw3.h] gives the names [solver.cpp] uses. *)
Definition GLFW_PRESS : Z := 1.
Definition GLFW_REPEAT : Z := 2.
Definition GLFW_KEY_SPACE : Z := 32.
Definition GLFW_KEY_MINUS : Z := 45.
Definition GLFW_KEY_1 : Z := 49.
Definition GLFW_KEY_6 : Z := 54.
Definition GLFW_KEY_EQUAL : Z := 61.
Definition GLFW_KEY_ESCAPE : Z := 256.
Definition GLFW_KEY_ENTER : Z := 257.
Definition GLFW_KEY_RIGHT : Z := 262.
Definition GLFW_KEY_LEFT : Z := 263.
Definition GLFW_KEY_DOWN : Z := 264.
Definition GLFW_KEY_UP : Z := 265.
Definition GLFW_KEY_KP_SUBTRACT : Z := 333.
Definition GLFW_KEY_KP_ADD : Z := 334.

End Glfw.

(** ** The interactive part of [solver.cpp] *)

Module Harness.
Import Viewer Callback Glfw.
Local Open Scope string_scope.
Local Open Scope Z_scope.

(** [static_cast<face_t::face_type>(faceIdx)], for the indices 0-5 the
    program casts. *)
Definition face_of_index (faceIdx : Z) : face_type :=
  match faceIdx with
  | 0 => top | 1 => bottom | 2 => front | 3 => back | 4 => left | _ => right
  end.

(** Two moves the solve branch prints alike. *)
Definition shown_alike (m m' : face_type * Z) : Prop :=
  m.1 = m'.1
  ∧ (m.2 mod 4 = m'.2 mod 4 ∨ (m.2 mod 4 ≤ 1 ∧ m'.2 mod 4 ≤ 1)).

(** The line feed that ['\n'] and [std::endl] write. *)
Definition endl : string := String "010"%char "".

(** [std::mt19937], kept as the raw values it will still give, the next
    one first. *)
Definition mt19937 : Type := nat → Z.

(** [std::uniform_int_distribution<int>(a, b)] applied to a generator: a
    value from [a] to [b], and the generator after the draw.  Every value
    from [a] to [b] is given by some generator. *)
Definition uniform_int_distribution (a b : Z) (rng : mt19937) : Z * mt19937 :=
  (a + rng 0%nat mod (b - a + 1), λ n, rng (S n)).

Section HarnessDefs.
Context `{Platform}.
(** [gSolver->solve]; the solvers are not among the sources. *)
Context (solve : cube_t → list (face_type * Z)).

(** What the callbacks read and write: the fields of [gCb] with the
    objects they point to, the window's close flag, the generator of
    [keyCallback] and the text written to [std::cout]. *)
Record program := {
  cb_cube : cube_t;            (* *gCb.cube, the cube of main *)
  cb_viewer : viewer_gl;       (* *gCb.viewer *)
  scrambleMoves : Z;
  isScrambling : bool;
  isSolving : bool;
  should_close : bool;         (* set by glfwSetWindowShouldClose *)
  rng : mt19937;
  cout : string;
}.

Definition with_viewer (v : viewer_gl) (p : program) : program :=
  {| cb_cube := cb_cube p; cb_viewer := v; scrambleMoves := scrambleMoves p;
     isScrambling := isScrambling p; isSolving := isSolving p;
     should_close := should_close p; rng := rng p; cout := cout p |}.

Definition with_cube (c : cube_t) (p : program) : program :=
  {| cb_cube := c; cb_viewer := cb_viewer p; scrambleMoves := scrambleMoves p;
     isScrambling := isScrambling p; isSolving := isSolving p;
     should_close := should_close p; rng := rng p; cout := cout p |}.

Definition with_scrambling (b : bool) (p : program) : program :=
  {| cb_cube := cb_cube p; cb_viewer := cb_viewer p; scrambleMoves := scrambleMoves p;
     isScrambling := b; isSolving := isSolving p;
     should_close := should_close p; rng := rng p; cout := cout p |}.

Definition with_solving (b : bool) (p : program) : program :=
  {| cb_cube := cb_cube p; cb_viewer := cb_viewer p; scrambleMoves := scrambleMoves p;
     isScrambling := isScrambling p; isSolving := b;
     should_close := should_close p; rng := rng p; cout := cout p |}.

Definition with_should_close (b : bool) (p : program) : program :=
  {| cb_cube := cb_cube p; cb_viewer := cb_viewer p; scrambleMoves := scrambleMoves p;
     isScrambling := isScrambling p; isSolving := isSolving p;
     should_close := b; rng := rng p; cout := cout p |}.

Definition with_rng (g : mt19937) (p : program) : program :=
  {| cb_cube := cb_cube p; cb_viewer := cb_viewer p; scrambleMoves := scrambleMoves p;
     isScrambling := isScrambling p; isSolving := isSolving p;
     should_close := should_close p; rng := g; cout := cout p |}.

(** [std::cout << text] *)
Definition emit (text : string) (p : program) : program :=
  {| cb_cube := cb_cube p; cb_viewer := cb_viewer p; scrambleMoves := scrambleMoves p;
     isScrambling := isScrambling p; isSolving := isSolving p;
     should_close := should_close p; rng := rng p; cout := cout p ++ text |}.

(** The loop of [scrambleCube], [n] rounds of it. *)
Fixpoint scramble_loop (n : nat) (p : program) : program :=
  match n with
  | O => p
  | S n' =>
      let '(faceIdx, rng1) := uniform_int_distribution 0 5 (rng p) in
      let '(rotation, rng2) := uniform_int_distribution 1 3 rng1 in
      let face := face_of_index faceIdx in
      let p := with_rng rng2 p in
      let p := with_cube (cube_rotate face rotation (cb_cube p)) p in
      let p := with_viewer (add_rotate face rotation (cb_viewer p)) p in
      let p := emit (printRotate faceIdx rotation) p in
      let p := emit " " p in
      scramble_loop n' p
  end.

(** [scrambleCube(cube, viewer, moves, rng, isScrambling)]; the loop runs
    [moves] times, and not at all when [moves] is negative. *)
Definition scrambleCube (moves : Z) (p : program) : program :=
  let p := with_scrambling true p in
  let p := emit (endl ++ "Scrambling with " ++ pretty moves ++ " random moves:" ++ endl) p in
  let p := scramble_loop (Z.to_nat moves) p in
  let p := emit (endl ++ endl ++ "Scramble complete. Press Space to solve." ++ endl) p in
  with_scrambling false p.

(** [keyCallback(win, key, scancode, action, mods)] *)
Definition keyCallback (key action : Z) (p : program) : program :=
  if negb (action =? GLFW_PRESS) && negb (action =? GLFW_REPEAT) then p
  else if key =? GLFW_KEY_ESCAPE then with_should_close true p
  else if isScrambling p || isSolving p then p
  (* camera controls first *)
  else if key =? GLFW_KEY_LEFT then with_viewer (adjust_orbit 0 (-5) (cb_viewer p)) p
  else if key =? GLFW_KEY_RIGHT then with_viewer (adjust_orbit 0 5 (cb_viewer p)) p
  else if key =? GLFW_KEY_UP then with_viewer (adjust_orbit (-5) 0 (cb_viewer p)) p
  else if key =? GLFW_KEY_DOWN then with_viewer (adjust_orbit 5 0 (cb_viewer p)) p
  else if (key =? GLFW_KEY_KP_ADD) || (key =? GLFW_KEY_EQUAL)
  then with_viewer (zoom zoom_in_factor (cb_viewer p)) p
  else if (key =? GLFW_KEY_KP_SUBTRACT) || (key =? GLFW_KEY_MINUS)
  then with_viewer (zoom zoom_out_factor (cb_viewer p)) p
  (* scramble *)
  else if key =? GLFW_KEY_ENTER then scrambleCube (scrambleMoves p) p
  (* manual face rotation *)
  else if (GLFW_KEY_1 <=? key) && (key <=? GLFW_KEY_6) then
    let faceIdx := key - GLFW_KEY_1 in
    let face := face_of_index faceIdx in
    let p := with_cube (cube_rotate face 1 (cb_cube p)) p in
    let p := with_viewer (set_cube (cb_cube p) (cb_viewer p)) p in
    emit ("Rotated face: " ++ printRotate faceIdx 1 ++ endl) p
  (* solve *)
  else if key =? GLFW_KEY_SPACE then
    let p := with_solving true p in
    let p := emit (endl ++ "Calculating optimal solution..." ++ endl) p in
    let solution := solve (cb_cube p) in
    let p := emit (endl ++ "Solution (" ++ pretty (length solution) ++ " moves):" ++ endl
                    ++ solution_text solution ++ endl) p in
    let '(cube, viewer) := play_solution solution (cb_cube p) (cb_viewer p) in
    let p := with_viewer viewer (with_cube cube p) in
    with_solving false p
  else p.

(** What [glfwPollEvents] hands to the callbacks that reach the fields
    above: a key event for [keyCallback], a wheel event for [on_scroll]. *)
Inductive input :=
  | key_input (key action : Z)
  | scroll_input (yoff : float).

Definition dispatch (i : input) (p : program) : program :=
  match i with
  | key_input key action => keyCallback key action p
  | scroll_input yoff => with_viewer (on_scroll yoff (cb_viewer p)) p
  end.

(** [viewer_gl::run] under the callbacks of [main]: each round of the
    loop polls its events, then calls [update_rotate]; the loop ends when
    the close flag is set. *)
Fixpoint run (rounds : list (list input * (time_point * time_point))) (p : program)
  : program :=
  match rounds with
  | [] => p
  | (inputs, (now_set, now_get)) :: rounds' =>
      if should_close p then p
      else
        let p := fold_left (λ p i, dispatch i p) inputs p in
        run rounds' (with_viewer (update_rotate now_set now_get (cb_viewer p)) p)
  end.

(** The state [main] hands to [run]: a solved cube, a viewer that was
    given the duration 0.5 and that cube, both flags down. *)
Definition started (scramble : Z) (rng : mt19937) : program :=
  {| cb_cube := cube_default;
     cb_viewer := set_cube cube_default (set_rotate_duration 0.5 viewer_new);
     scrambleMoves := scramble; isScrambling := false; isSolving := false;
     should_close := false; rng := rng; cout := "" |}.

(** The program's cube is the one the viewer shows once its queue has
    been played. *)
Definition in_step (p : program) : Prop :=
  cube_size (cb_viewer p) = 3
  ∧ fst (Session.shown_at_rest (cb_viewer p)) = cb_cube p.

End HarnessDefs.
End Harness.

(** ** The cube algebra of the core *)

Module Cube.
Import Viewer.
Local Open Scope nat_scope.

(** Modelled from the spec: the cube state of [cube_t] (cube.h is not
    among the sources), as the twin permutation and orientation vectors of
    section 3.  Position [i] of [cp] names the corner cubie that sits at
    corner [i] and [co] its twist (0-2); [ep] and [eo] do the same for the
    twelve edges (flip 0-1).  Corners are numbered URF UFL ULB UBR DFR DLF
    DBL DRB and edges UR UF UL UB DR DF DL DB FR FL BL BR, so that the
    edges 8-11 are the four of the UD slice. *)
Record cube := {
  cp : list nat;
  co : list nat;
  ep : list nat;
  eo : list nat;
}.

(** Modelled from the spec: the solved cube, every cubie at home and
    untwisted. *)
Definition solved : cube := {|
  cp := [0; 1; 2; 3; 4; 5; 6; 7];
  co := [0; 0; 0; 0; 0; 0; 0; 0];
  ep := [0; 1; 2; 3; 4; 5; 6; 7; 8; 9; 10; 11];
  eo := [0; 0; 0; 0; 0; 0; 0; 0; 0; 0; 0; 0];
|}.

(** Modelled from the spec: [compose(a, b)] of section 4.1, [a] followed
    by [b].  The cubie that [b] brings to a position is the one [a] had
    where [b] takes it from, and its orientation is the sum of the two,
    modulo 3 for corners and modulo 2 for edges. *)
Definition compose (a b : cube) : cube := {|
  cp := map (λ i, nth i (cp a) 0) (cp b);
  co := zip_with (λ i o, (nth i (co a) 0 + o) mod 3) (cp b) (co b);
  ep := map (λ i, nth i (ep a) 0) (ep b);
  eo := zip_with (λ i o, (nth i (eo a) 0 + o) mod 2) (ep b) (eo b);
|}.

(** Modelled from the spec: the per-face tables of section 4.1, one
    clockwise quarter turn of each face written as a cube.  Each cycles
    four corners and four edges; U and D leave corner twists alone, L, R,
    F and B add 1 and 2 alternately round the cycle; F and B flip their
    four edges, U, D, L and R flip none. *)
Definition face_move (f : face_type) : cube :=
  match f with
  | top => {|
      cp := [3; 0; 1; 2; 4; 5; 6; 7];
      co := [0; 0; 0; 0; 0; 0; 0; 0];
      ep := [3; 0; 1; 2; 4; 5; 6; 7; 8; 9; 10; 11];
      eo := [0; 0; 0; 0; 0; 0; 0; 0; 0; 0; 0; 0] |}
  | bottom => {|
      cp := [0; 1; 2; 3; 5; 6; 7; 4];
      co := [0; 0; 0; 0; 0; 0; 0; 0];
      ep := [0; 1; 2; 3; 5; 6; 7; 4; 8; 9; 10; 11];
      eo := [0; 0; 0; 0; 0; 0; 0; 0; 0; 0; 0; 0] |}
  | front => {|
      cp := [1; 5; 2; 3; 0; 4; 6; 7];
      co := [1; 2; 0; 0; 2; 1; 0; 0];
      ep := [0; 9; 2; 3; 4; 8; 6; 7; 1; 5; 10; 11];
      eo := [0; 1; 0; 0; 0; 1; 0; 0; 1; 1; 0; 0] |}
  | back => {|
      cp := [0; 1; 3; 7; 4; 5; 2; 6];
      co := [0; 0; 1; 2; 0; 0; 2; 1];
      ep := [0; 1; 2; 11; 4; 5; 6; 10; 8; 9; 3; 7];
      eo := [0; 0; 0; 1; 0; 0; 0; 1; 0; 0; 1; 1] |}
  | left => {|
      cp := [0; 2; 6; 3; 4; 1; 5; 7];
      co := [0; 1; 2; 0; 0; 2; 1; 0];
      ep := [0; 1; 10; 3; 4; 5; 9; 7; 8; 2; 6; 11];
      eo := [0; 0; 0; 0; 0; 0; 0; 0; 0; 0; 0; 0] |}
  | right => {|
      cp := [4; 1; 2; 0; 7; 5; 6; 3];
      co := [2; 0; 0; 1; 1; 0; 0; 2];
      ep := [8; 1; 2; 3; 11; 5; 6; 7; 4; 9; 10; 0];
      eo := [0; 0; 0; 0; 0; 0; 0; 0; 0; 0; 0; 0] |}
  end.

(** Modelled from the spec: one clockwise quarter turn of face [f]. *)
Definition quarter (f : face_type) (s : cube) : cube := compose s (face_move f).

(** Modelled from the spec: [cube_t::rotate(face, turns)]; "turns is
    reduced mod 4; negative values allowed", then that many quarter
    turns. *)
Definition rotate (f : face_type) (turns : Z) (s : cube) : cube :=
  Nat.iter (Z.to_nat (turns mod 4)%Z) (quarter f) s.

(** Modelled from the spec: a move, "a pair (face, turns)"; a solution is
    a list of moves.  The turn count is any integer here: [rotate]
    reduces it. *)
Definition move : Type := face_type * Z.

(** Modelled from the spec: [apply(s, m)]. *)
Definition apply (s : cube) (m : move) : cube := rotate (fst m) (snd m) s.

(** Modelled from the spec: a sequence of moves applied in order. *)
Definition apply_seq (s : cube) (ms : list move) : cube := fold_left apply ms s.

(** Modelled from the spec: [inverse(m)], the same face turned the rest
    of the way round: (R, 1) and (R, 3) undo each other. *)
Definition inverse (m : move) : move := (fst m, (4 - snd m)%Z).

(** Modelled from the spec: the states the solver is defined on, those a
    sequence of face turns reaches from the solved cube. *)
Inductive reachable : cube → Prop :=
  | reachable_solved : reachable solved
  | reachable_apply s m : reachable s → reachable (apply s m).

(** Modelled from the spec: the shape of a state (section 3), eight
    corners and twelve edges, twists 0-2 and flips 0-1. *)
Record well_formed (s : cube) : Prop := {
  wf_cp : length (cp s) = 8;
  wf_co : length (co s) = 8;
  wf_ep : length (ep s) = 12;
  wf_eo : length (eo s) = 12;
  wf_twist : Forall (λ o, o < 3) (co s);
  wf_flip : Forall (λ o, o < 2) (eo s);
}.

(** Modelled from the spec: the invariants of section 3 that are stated
    on the vectors themselves.  The cubies are a permutation of the
    positions, the corner twists add up to a multiple of 3 and the edge
    flips to a multiple of 2. *)
Record coherent (s : cube) : Prop := {
  coh_wf : well_formed s;
  coh_cp : cp s ≡ₚ seq 0 8;
  coh_ep : ep s ≡ₚ seq 0 12;
  coh_twist : sum_list (co s) mod 3 = 0;
  coh_flip : sum_list (eo s) mod 2 = 0;
}.

End Cube.

(** ** The coordinate encoders of the core *)

Module Coord.
Import Cube.
Local Open Scope nat_scope.

(** Modelled from the spec: the encoders and decoders of section 4.2,
    none of which is among the sources.  The spec words the encoders; of
    the decoders it says that they invert them, so each decoder below is
    the plain inverse, and a decoder returns a cube: the part the
    coordinate describes, the rest as in the solved cube.

    Modelled from the spec: "interpret the first 7 corner orientations as
    a base-3 number", the digits read most significant first. *)
Definition of_digits (b : N) (ds : list nat) : N :=
  fold_left (λ acc d, b * acc + N.of_nat d)%N ds 0%N.

(** Modelled from the spec: the inverse reading, the [n] digits of [c]
    in base [b], most significant first. *)
Fixpoint to_digits (b : N) (n : nat) (c : N) : list nat :=
  match n with
  | 0 => []
  | S n' => to_digits b n' (c / b)%N ++ [N.to_nat (c mod b)%N]
  end.

(** Modelled from the spec: the corner-orientation coordinate, in
    [0, 2187).  The twist of the eighth corner is not encoded: the twists
    of a cube add up to a multiple of 3, which gives it back. *)
Definition encode_co (s : cube) : N := of_digits 3 (take 7 (co s)).

(** Modelled from the spec: "sum mod 3 = 0 ⇒ 7 free" (section 3): the
    digits [ds] with the one more that brings their sum to a multiple of
    [b]. *)
Definition with_closing (b : nat) (ds : list nat) : list nat :=
  ds ++ [(b - sum_list ds mod b) mod b].

(** Modelled from the spec: the decoder of the corner-orientation
    coordinate. *)
Definition twists_of (c : N) : list nat := with_closing 3 (to_digits 3 7 c).

Definition decode_co (c : N) : cube :=
  {| cp := cp solved; co := twists_of c; ep := ep solved; eo := eo solved |}.

(** Modelled from the spec: the edge-orientation coordinate, in
    [0, 2048): the first 11 flips as a base-2 number. *)
Definition encode_eo (s : cube) : N := of_digits 2 (take 11 (eo s)).

(** Modelled from the spec: the decoder of the edge-orientation
    coordinate. *)
Definition flips_of (c : N) : list nat := with_closing 2 (to_digits 2 11 c).

Definition decode_eo (c : N) : cube :=
  {| cp := cp solved; co := co solved; ep := ep solved; eo := flips_of c |}.

(** Binomial coefficients, by Pascal's rule. *)
Fixpoint choose (n k : nat) : nat :=
  match n, k with
  | _, 0 => 1
  | 0, S _ => 0
  | S n', S k' => choose n' k' + choose n' k
  end.

(** Modelled from the spec: "which 4 positions hold the FR/FL/BR/BL
    edges, unordered" (section 3), the edges 8-11. *)
Definition slice_occupancy (s : cube) : list bool :=
  map (λ e, bool_decide (8 ≤ e)) (ep s).

(** Modelled from the spec: the UD-slice placement coordinate, "a
    combinatorial rank in [0, 495)" of the four positions that hold slice
    edges.  The positions are scanned from the last to the first; the
    [x]-th slice edge met at the [i]-th position scanned counts
    [choose i (x + 1)].  The solved cube has rank 0, the goal of phase 1. *)
Fixpoint slice_rank (scanned : list bool) (i x : nat) : nat :=
  match scanned with
  | [] => 0
  | true :: rest => choose i (S x) + slice_rank rest (S i) (S x)
  | false :: rest => slice_rank rest (S i) x
  end.

Definition encode_slice (s : cube) : N :=
  N.of_nat (slice_rank (rev (slice_occupancy s)) 0 0).

(** Modelled from the spec: the decoder of the placement coordinate.  The
    placement of rank [c]: [n] positions are left to fill, first position
    first, with [k] slice edges. *)
Fixpoint slice_unrank (n k c : nat) : list bool :=
  match n with
  | 0 => []
  | S i =>
      match k with
      | 0 => false :: slice_unrank i 0 c
      | S k' =>
          if choose i k <=? c then true :: slice_unrank i k' (c - choose i k)
          else false :: slice_unrank i k c
      end
  end.

(** Edges for a placement: the slice edges 8, 9, ... on the positions
    marked, the others 0, 1, ... on the rest, each in order. *)
Fixpoint place_edges (occ : list bool) (other slice : nat) : list nat :=
  match occ with
  | [] => []
  | true :: rest => slice :: place_edges rest other (S slice)
  | false :: rest => other :: place_edges rest (S other) slice
  end.

Definition decode_slice (c : N) : cube :=
  {| cp := cp solved; co := co solved;
     ep := place_edges (slice_unrank 12 4 (N.to_nat c)) 0 8; eo := eo solved |}.

(** Factorials. *)
Fixpoint Nfact (n : nat) : N :=
  match n with
  | 0 => 1
  | S n' => N.of_nat n * Nfact n'
  end.

(** Modelled from the spec: the "Lehmer-code rank into [0, n!)" of a
    permutation: the digit of an entry is the number of later entries
    that are smaller, and its weight the factorial of the number of later
    entries. *)
Fixpoint encode_perm (p : list nat) : N :=
  match p with
  | [] => 0
  | x :: rest =>
      let d := length (filter (λ y, y < x) rest) in
      (N.of_nat d * Nfact (length rest) + encode_perm rest)%N
  end.

(** Modelled from the spec: the decoder of a permutation coordinate.  The
    permutation of rank [c] of the [n] cubies [avail], listed in
    increasing order: each digit picks among the cubies still left. *)
Fixpoint decode_from (avail : list nat) (n : nat) (c : N) : list nat :=
  match n with
  | 0 => []
  | S n' =>
      let d := N.to_nat (c / Nfact n')%N in
      nth d avail 0 :: decode_from (delete d avail) n' (c mod Nfact n')%N
  end.

Definition decode_perm (n : nat) (c : N) : list nat := decode_from (seq 0 n) n c.

(** Modelled from the spec: the corner-permutation coordinate, in
    [0, 40320). *)
Definition encode_cp (s : cube) : N := encode_perm (cp s).

Definition decode_cp (c : N) : cube :=
  {| cp := decode_perm 8 c; co := co solved; ep := ep solved; eo := eo solved |}.

(** Modelled from the spec: the two phase-2 coordinates, the permutation
    of the eight edges outside the slice, in [0, 40320), and that of the
    four slice edges among themselves, in [0, 24).  They describe a cube
    of phase 2, whose slice edges are in the slice. *)
Definition encode_ep8 (s : cube) : N := encode_perm (take 8 (ep s)).

Definition encode_slice_perm (s : cube) : N :=
  encode_perm (map (λ e, e - 8) (drop 8 (ep s))).

Definition decode_ep8 (c : N) : cube :=
  {| cp := cp solved; co := co solved;
     ep := decode_perm 8 c ++ [8; 9; 10; 11]; eo := eo solved |}.

Definition decode_slice_perm (c : N) : cube :=
  {| cp := cp solved; co := co solved;
     ep := [0; 1; 2; 3; 4; 5; 6; 7] ++ map (λ e, e + 8) (decode_perm 4 c);
     eo := eo solved |}.

(** For the proofs: all the placements there are to check, the lists of
    [n] booleans, and what the placement coordinate has to satisfy on one
    of them. *)
Fixpoint bool_lists (n : nat) : list (list bool) :=
  match n with
  | 0 => [[]]
  | S n' => flat_map (λ l, [true :: l; false :: l]) (bool_lists n')
  end.

Definition count_true (occ : list bool) : nat :=
  sum_list (map (λ b : bool, if b then 1 else 0) occ).

Definition slice_check (occ : list bool) : bool :=
  implb (count_true occ =? 4)
    (bool_decide (slice_unrank 12 4 (slice_rank (rev occ) 0 0) = occ)
     && bool_decide (map (λ e, bool_decide (8 ≤ e)) (place_edges occ 0 8) = occ)
     && (slice_rank (rev occ) 0 0 <? 495)).

(** A cube of phase 2 as far as its edges go. *)
Definition edges_in_phase2 (s : cube) : Prop :=
  take 8 (ep s) ≡ₚ seq 0 8 ∧ drop 8 (ep s) ≡ₚ seq 8 4.

End Coord.

(** ** The pruning tables of the core *)

Module Prune.
Local Open Scope Z_scope.

(** Modelled from the spec: the nibble array of sections 3 and 4.3 (the
    pruning tables are not among the sources), "a fixed-size packed array
    of 4-bit entries": two entries to a byte, the low nibble first.
    [nib_get t i] reads entry [i]. *)
Definition nib_get (t : list Z) (i : nat) : Z :=
  let b := nth (i / 2)%nat t 0 in
  if Nat.even i then Z.land b 15 else Z.shiftr b 4.

(** Modelled from the spec: entry [i] written, the other nibble of its
    byte kept. *)
Definition nib_set (t : list Z) (i : nat) (v : Z) : list Z :=
  let b := nth (i / 2)%nat t 0 in
  <[(i / 2)%nat := if Nat.even i then Z.lor (Z.land b 240) v
                   else Z.lor (Z.land b 15) (Z.shiftl v 4)]> t.

(** Modelled from the spec: a table of [size] entries "initialized to
    0xF". *)
Definition nib_new (size : nat) : list Z := replicate ((size + 1) / 2)%nat 255.

Section Builder.
Context {M : Type} (size : nat) (moves : list M) (next : nat → M → nat) (goal : nat).

(** Modelled from the spec: the builder of section 4.3.  [next] is the
    move table of the coordinate, [moves] the allowed moves, [goal] the
    goal coordinate.  At depth [d] every entry equal to [d] is scanned,
    each move applied, and [d + 1] written "into any successor still equal
    to 0xF". *)
Definition relax (d : Z) (i : nat) (acc : list Z * bool) (m : M) : list Z * bool :=
  let j := next i m in
  if nib_get acc.1 j =? 15 then (nib_set acc.1 j (d + 1), true) else acc.

(** Modelled from the spec: one entry scanned; it is relaxed along every
    move when it is equal to [d]. *)
Definition scan (d : Z) (acc : list Z * bool) (i : nat) : list Z * bool :=
  if nib_get acc.1 i =? d then fold_left (relax d i) moves acc else acc.

(** Modelled from the spec: one pass over all entries; the flag tells
    whether an entry was updated. *)
Definition pass (d : Z) (t : list Z) : list Z * bool :=
  fold_left (scan d) (seq 0 size) (t, false).

(** Modelled from the spec: passes at growing depth; "termination is when
    no entry was updated in a pass".  There are 14 passes at most, writing
    the depths 1 to 14: "depths above 14 remain as 0xF". *)
Fixpoint flood (passes : nat) (d : Z) (t : list Z) : list Z :=
  match passes with
  | O => t
  | S passes' =>
      let '(t', updated) := pass d t in
      if updated : bool then flood passes' (d + 1) t' else t'
  end.

(** Modelled from the spec: the table, all 0xF, then "0 at the goal
    coordinate", then the flood. *)
Definition build : list Z := flood 14 0 (nib_set (nib_new size) goal 0).

(** Modelled from the spec: [reaches_goal c n], some [n] allowed moves
    take the coordinate [c] to the goal.  The "true shortest distance" of
    [c] is the least such [n]. *)
Inductive reaches_goal : nat → nat → Prop :=
  | at_goal : reaches_goal goal 0
  | one_more c m n : In m moves → reaches_goal (next c m) n → reaches_goal c (S n).

End Builder.

(** For the proofs: what reading and writing a nibble of the byte [b]
    must satisfy, to be checked on every byte. *)
Definition byte_check (b v : Z) : bool :=
  (Z.land (Z.lor (Z.land b 240) v) 15 =? v)
  && (Z.shiftr (Z.lor (Z.land b 240) v) 4 =? Z.shiftr b 4)
  && (Z.land (Z.lor (Z.land b 15) (Z.shiftl v 4)) 15 =? Z.land b 15)
  && (Z.shiftr (Z.lor (Z.land b 15) (Z.shiftl v 4)) 4 =? v)
  && (Z.lor (Z.land b 240) v <? 256) && (0 <=? Z.lor (Z.land b 240) v)
  && (Z.lor (Z.land b 15) (Z.shiftl v 4) <? 256)
  && (0 <=? Z.lor (Z.land b 15) (Z.shiftl v 4))
  && (Z.land b 15 <? 16) && (0 <=? Z.land b 15)
  && (Z.shiftr b 4 <? 16) && (0 <=? Z.shiftr b 4).

(** For the proofs: every element of the array is a byte. *)
Definition bytes_ok (t : list Z) : Prop := Forall (λ b, 0 ≤ b < 256) t.

(** For the proofs: a table with an entry for each of [size]
    coordinates. *)
Definition covers (size : nat) (t : list Z) : Prop :=
  bytes_ok t ∧ (size ≤ 2 * length t)%nat.

(** For the proofs: what the pass at depth [d] may do to a table.  An
    entry that is set stays, an entry still at 0xF stays or becomes
    [d + 1]. *)
Definition grows (size : nat) (d : Z) (t t' : list Z) : Prop :=
  covers size t'
  ∧ (∀ c, (c < size)%nat → nib_get t c ≠ 15 → nib_get t' c = nib_get t c)
  ∧ (∀ c, (c < size)%nat → nib_get t c = 15 →
       nib_get t' c = 15 ∨ nib_get t' c = d + 1).

(** For the proofs: where the entries a pass sets come from.  Each is
    one move away from an entry at [d]. *)
Definition sourced {M} (size : nat) (moves : list M) (next : nat → M → nat)
    (d : Z) (t t' : list Z) : Prop :=
  ∀ c, (c < size)%nat → nib_get t c = 15 → nib_get t' c ≠ 15 →
    ∃ i m, (i < size)%nat ∧ In m moves ∧ nib_get t i = d ∧ next i m = c.

(** For the proofs: the table before the pass at depth [d].  The goal is
    at 0, the entries set are at most [d], and a move from an entry below
    [d] leads to an entry at most one more. *)
Definition flooded {M} (size : nat) (moves : list M) (next : nat → M → nat)
    (goal : nat) (d : Z) (t : list Z) : Prop :=
  covers size t
  ∧ nib_get t goal = 0
  ∧ (∀ c, (c < size)%nat → nib_get t c ≤ d ∨ nib_get t c = 15)
  ∧ (∀ c m, (c < size)%nat → In m moves → nib_get t c < d →
       nib_get t (next c m) ≤ nib_get t c + 1).

(** For the proofs: every entry that is set is the length of a sequence
    of moves to the goal. *)
Definition attained {M} (size : nat) (moves : list M) (next : nat → M → nat)
    (goal : nat) (t : list Z) : Prop :=
  ∀ c, (c < size)%nat → nib_get t c ≠ 15 →
    reaches_goal moves next goal c (Z.to_nat (nib_get t c)).

End Prune.

(** ** Move tables *)

Module Tables.
Import Viewer Cube Coord.

Definition all_faces : list face_type := [top; bottom; front; back; left; right].

(** The 18 face moves. *)
Definition all_moves : list move :=
  flat_map (λ f, [(f, 1); (f, 2); (f, 3)]) all_faces.

(** Modelled from the spec: the move table of the corner-orientation
    coordinate (section 4.2), "the coordinate after applying that move":
    the coordinate is decoded, the move applied, the result encoded. *)
Definition co_next (c : nat) (m : move) : nat :=
  N.to_nat (encode_co (apply (decode_co (N.of_nat c)) m)).

(** Modelled from the spec: the corner-orientation pruning table of phase
    1, flooded from the coordinate 0 of the solved cube over all 18
    moves. *)
Definition co_table : list Z := Prune.build 2187 all_moves co_next 0.

End Tables.

(** ** The viewer over the core's cube *)

Module Shown.
Import Viewer.

(** The platform of the viewer with the 3x3 cube of the core as modelled
    above.  The specification has no algebra of the 4x4 cube: that model
    only records the turns it is given.  The clock counts milliseconds. *)
Definition core_platform : Platform := {|
  cube_t := Cube.cube;
  cube4_t := list (face_type * Z * Z);
  cube_default := Cube.solved;
  cube4_default := [];
  cube_rotate := Cube.rotate;
  cube4_rotate := λ f depth cnt log, log ++ [(f, depth, cnt)];
  time_point := Z;
  epoch := 0;
  seconds := λ a b, (float_of_int (a - b) / 1000)%float;
|}.

(** Some zoom factors: those of the program, plus infinity, the largest
    double and the least positive one. *)
Definition some_factors : list float :=
  [zoom_in_factor; zoom_out_factor; infinity; 0x1.fffffffffffffp+1023; 0x1p-1074;
   zoom_out_factor]%float.

(** A viewer that has just been asked to turn the front face back by a
    quarter, with the default duration of one second. *)
Definition turning : @viewer_gl core_platform :=
  @add_rotate core_platform front (-1) (@viewer_new core_platform).

End Shown.

(** ** The program over the core's cube *)

Module Played.
Import Viewer Glfw Session Harness Shown.

(** A stand-in for the solver in the examples: it answers every cube with
    the same two moves. *)
Definition two_moves (c : Cube.cube) : list (face_type * Z) := [(right, 5); (top, -1)].

(** A generator for the examples: it counts. *)
Definition counting : mt19937 := λ n, Z.of_nat n.

(** The program as [main] starts it with [-s 1], over the core's cube. *)
Definition fresh : @program core_platform := @started core_platform 1 counting.

(** Enter, then the key 6 before the first frame, then a frame one second
    later. *)
Definition hasty : list (list input * (Z * Z)) :=
  [([key_input GLFW_KEY_ENTER GLFW_PRESS; key_input GLFW_KEY_6 GLFW_PRESS], (0, 0));
   ([], (0, 1000))].

(** A frame of the viewer over the core's cube, with its clock readings
    in milliseconds. *)
Definition frame (now_set now_get : Z) : @call core_platform :=
  @call_update_rotate core_platform now_set now_get.

(** A viewer with two moves queued and half a second for each. *)
Definition two_queued : @viewer_gl core_platform :=
  @add_rotate core_platform right 1
    (@add_rotate core_platform top 2
       (@set_rotate_duration core_platform 0.5 (@viewer_new core_platform))).

(** Two frames, each with readings at least half a second apart. *)
Definition slow_clock : list (Z * Z) := [(0, 500); (500, 1200)].

(** A new viewer asked to turn the front face, and a first frame. *)
Definition front_started : list (@call core_platform) :=
  [@call_add_rotate core_platform front 1; frame 0 0].

(** The same, and a frame two seconds later: the turn has been played. *)
Definition front_played : list (@call core_platform) :=
  front_started ++ [frame 0 2000].

(** The program after Enter: the move U2 is queued. *)
Definition scrambled : @program core_platform :=
  @keyCallback core_platform two_moves GLFW_KEY_ENTER GLFW_PRESS fresh.

(** A generator that gives 0 and 1 in turn, and the program started with
    [-s 2] over it, after Enter: the moves U2 U2 are queued. *)
Definition alternating : mt19937 := λ n, Z.of_nat (n mod 2).

Definition scrambled_twice : @program core_platform :=
  @keyCallback core_platform two_moves GLFW_KEY_ENTER GLFW_PRESS
    (@started core_platform 2 alternating).

End Played.

(* ===================================================================== *)
(** * Properties *)

(** ** The command line *)

Section CliFacts.
Import Cli.
Local Open Scope string_scope.
Local Open Scope Z_scope.

Example cli_s : main ["solver"; "-s"; "5"] = Run kociemba 1 5.
Proof. reflexivity. Qed.

Example cli_r : main ["solver"; "-r"; "5"] = Run kociemba 1 20.
Proof. reflexivity. Qed.

Example cli_t : main ["solver"; "-t"; "33"] = ExitUsage "threads 1-32 only".
Proof. reflexivity. Qed.

Example cli_t_blank_sign : main ["solver"; "-a"; "krof"; "-t"; " +32x"] = Run krof 32 20.
Proof. reflexivity. Qed.

Example cli_first_wins : main ["solver"; "-s"; "5"; "-s"; "7"] = Run kociemba 1 5.
Proof. reflexivity. Qed.

Example cli_fatal : main ["solver"; "-t"; "many"] = ExitFatal invalid_argument.
Proof. reflexivity. Qed.

Example cli_overflow : main ["solver"; "-t"; "4294967297"] = ExitFatal out_of_range.
Proof. reflexivity. Qed.

Lemma check_options_run algo threads scramble a t s :
  check_options algo threads scramble = Run a t s →
  t = threads ∧ s = scramble ∧ 1 ≤ t ≤ 32 ∧ 0 ≤ s ≤ 100
  ∧ (algo = "krof" ∧ a = krof ∨ algo = "kociemba" ∧ a = kociemba).
Proof.
  unfold check_options.
  destruct (bool_decide (algo = "kociemba")) eqn:Hk;
    destruct (bool_decide (algo = "krof")) eqn:Hf; simpl;
    destruct (threads <? 1) eqn:H1; destruct (32 <? threads) eqn:H2; simpl;
    destruct (scramble <? 0) eqn:H3; destruct (100 <? scramble) eqn:H4; simpl;
    try discriminate; intros [= <- <- <-];
    try apply bool_decide_eq_true in Hk; try apply bool_decide_eq_true in Hf;
    repeat split; try lia; auto.
Qed.

Lemma check_options_accepts algo threads scramble :
  algo = "kociemba" ∨ algo = "krof" →
  1 ≤ threads ≤ 32 → 0 ≤ scramble ≤ 100 →
  check_options algo threads scramble
  = Run (if bool_decide (algo = "krof") then krof else kociemba) threads scramble.
Proof.
  intros Ha Ht Hs. unfold check_options.
  replace (threads <? 1) with false by lia.
  replace (32 <? threads) with false by lia.
  replace (scramble <? 0) with false by lia.
  replace (100 <? scramble) with false by lia.
  destruct Ha as [-> | ->]; reflexivity.
Qed.

Lemma configure_run arg a t s :
  configure arg = Run a t s →
  int_option arg "t" 1 = inr t ∧ int_option arg "s" 20 = inr s
  ∧ 1 ≤ t ≤ 32 ∧ 0 ≤ s ≤ 100.
Proof.
  unfold configure.
  destruct (int_option arg "t" 1) as [e | threads]; [discriminate |].
  destruct (int_option arg "s" 20) as [e | scramble]; [discriminate |].
  intros H. apply check_options_run in H as (-> & -> & Ht & Hs & _). auto.
Qed.

Lemma main_run argv a t s :
  main argv = Run a t s →
  ∃ arg, parse_args (tail argv) ∅ = inr arg ∧ configure arg = Run a t s.
Proof.
  unfold main. destruct (parse_args (tail argv) ∅) as [msg | arg]; [discriminate |].
  eauto.
Qed.

(** C7. A thread count outside [1, 32] makes [main] call [usage] (no
    solver is constructed: the checks precede [create_krof_algo] and
    [create_kociemba_algo]), the solver [main] constructs always has a
    thread count in [1, 32], and every count in [1, 32] passes the check:
    with a known algorithm and a scramble count in range the solver is
    constructed with exactly that count. *)
Theorem threads_checked_before_solver :
  (∀ algo threads scramble, threads < 1 ∨ 32 < threads →
     ∃ msg, check_options algo threads scramble = ExitUsage msg)
  ∧ (∀ arg t, int_option arg "t" 1 = inr t → t < 1 ∨ 32 < t →
       rejected (configure arg))
  ∧ (∀ argv a t s, main argv = Run a t s → 1 ≤ t ≤ 32)
  ∧ (∀ algo threads scramble, 1 ≤ threads ≤ 32 →
       check_options algo threads scramble ≠ ExitUsage "threads 1-32 only")
  ∧ (∀ algo threads scramble, 1 ≤ threads ≤ 32 →
       algo = "kociemba" ∨ algo = "krof" → 0 ≤ scramble ≤ 100 →
       ∃ a, check_options algo threads scramble = Run a threads scramble).
Proof.
  split; [| split; [| split; [| split]]].
  - intros algo threads scramble Ht. unfold check_options.
    destruct (negb _); [eauto |].
    replace ((threads <? 1) || (32 <? threads)) with true; [eauto |].
    symmetry. apply orb_true_iff. lia.
  - intros arg t Ht Hout. destruct (configure arg) as [| | a t' s] eqn:Hc; simpl; auto.
    apply configure_run in Hc as (Ht' & _ & Hr & _).
    rewrite Ht in Ht'. injection Ht' as <-. lia.
  - intros argv a t s H. apply main_run in H as (arg & _ & H).
    apply configure_run in H. tauto.
  - intros algo threads scramble Ht. unfold check_options.
    destruct (negb _); [discriminate |].
    replace (threads <? 1) with false by lia.
    replace (32 <? threads) with false by lia. simpl.
    destruct (_ || _); [discriminate |]. destruct (bool_decide _); discriminate.
  - intros algo threads scramble Ht Ha Hs. rewrite check_options_accepts by assumption. eauto.
Qed.

Lemma threads_checked_before_solver_witness :
  (∃ msg, check_options "krof" 33 20 = ExitUsage msg)
  ∧ (∃ a, check_options "krof" 32 20 = Run a 32 20).
Proof.
  destruct threads_checked_before_solver as (Hout & _ & _ & _ & Hin).
  split.
  - apply (Hout "krof" 33 20). right. reflexivity.
  - apply (Hin "krof" 32 20).
    + split; discriminate.
    + right. reflexivity.
    + split; discriminate.
Defined.




End CliFacts.

(** ** The viewer: rotation queue and animation *)

Section ViewerFacts.
Import Viewer.
Context `{Platform}.

Lemma get_active now m :
  is_active (snd (get now m)) = true → is_active m = true.
Proof.
  unfold get. simpl. destruct (1 <=? _)%float; simpl; [discriminate | done].
Qed.

(** One call either leaves queue and models alone, or pops the front entry
    and applies it to the model on display. *)
Lemma update_rotate_cases now_set now_get v :
  let v' := update_rotate now_set now_get v in
  cube_size v' = cube_size v
  ∧ ((rotate_que v' = rotate_que v ∧ cube v' = cube v ∧ cube4 v' = cube4 v
      ∧ (rotate_que v ≠ [] → is_active (rotate_mgr v') = true))
     ∨ (∃ e q, rotate_que v = e :: q ∧ rotate_que v' = q
        ∧ (cube v', cube4 v') = apply_queue (cube_size v) [e] (cube v, cube4 v)
        ∧ is_active (rotate_mgr v') = false)).
Proof.
  unfold update_rotate.
  destruct (rotate_que v) as [| [[ftype depth] cnt] rest] eqn:Hq.
  { simpl. rewrite Hq. split; [done |]. left. done. }
  destruct (negb (is_active (rotate_mgr v))).
  - destruct (start_mask _ _ _ _) as [mask vec].
    destruct (get now_get _) as [r mgr2].
    destruct (is_active mgr2) eqn:Hact; simpl.
    + split; [done |]. left. done.
    + split; [done |]. right. exists (ftype, depth, cnt), rest.
      repeat split; [| done]. by destruct (cube_size v =? 3).
  - destruct (get now_get _) as [r mgr2].
    destruct (is_active mgr2) eqn:Hact; simpl.
    + split; [done |]. left. done.
    + split; [done |]. right. exists (ftype, depth, cnt), rest.
      repeat split; [| done]. by destruct (cube_size v =? 3).
Qed.

Lemma run_frames_prefix clock : ∀ v,
  ∃ k, (k ≤ length clock)%nat
    ∧ rotate_que (run_frames clock v) = drop k (rotate_que v)
    ∧ (cube (run_frames clock v), cube4 (run_frames clock v))
      = apply_queue (cube_size v) (take k (rotate_que v)) (cube v, cube4 v).
Proof.
  induction clock as [| [now_set now_get] clock IH]; intros v; simpl.
  { exists 0%nat. by rewrite drop_0. }
  destruct (IH (update_rotate now_set now_get v)) as (k & Hk & Hq & Hm).
  destruct (update_rotate_cases now_set now_get v)
    as (Hsz & [(Hq' & Hc & Hc4 & _) | (e & q & Hv & Hq' & Hm' & _)]).
  - exists k. rewrite Hq, Hm, Hq', Hc, Hc4, Hsz. split; [lia | done].
  - exists (S k). rewrite Hq, Hm, Hq', Hsz, Hv. split; [lia |].
    split; [done |]. simpl take. rewrite Hm'.
    by destruct e as [[ftype depth] cnt].
Qed.

(** C9. A call of [update_rotate] after which the animation is still in
    progress leaves the rotation queue and both cube models as they were;
    the call in which the animation completes pops the front entry and
    applies that entry, once, to the model on display.  Over any number of
    frames the models are the initial ones with exactly the popped entries
    applied, in queue order, at most one per frame. *)
Theorem update_rotate_frame :
  (∀ now_set now_get v,
     is_active (rotate_mgr (update_rotate now_set now_get v)) = true →
     rotate_que (update_rotate now_set now_get v) = rotate_que v
     ∧ cube (update_rotate now_set now_get v) = cube v
     ∧ cube4 (update_rotate now_set now_get v) = cube4 v)
  ∧ (∀ now_set now_get v ftype depth cnt rest,
       rotate_que v = (ftype, depth, cnt) :: rest →
       is_active (rotate_mgr (update_rotate now_set now_get v)) = false →
       rotate_que (update_rotate now_set now_get v) = rest
       ∧ cube (update_rotate now_set now_get v)
         = (if cube_size v =? 3 then cube_rotate ftype cnt (cube v) else cube v)
       ∧ cube4 (update_rotate now_set now_get v)
         = (if cube_size v =? 3 then cube4 v
            else cube4_rotate ftype depth cnt (cube4 v)))
  ∧ (∀ clock v,
       ∃ k, (k ≤ length clock)%nat
         ∧ rotate_que (run_frames clock v) = drop k (rotate_que v)
         ∧ (cube (run_frames clock v), cube4 (run_frames clock v))
           = apply_queue (cube_size v) (take k (rotate_que v)) (cube v, cube4 v)).
Proof.
  split; [| split].
  - intros now_set now_get v Hact.
    destruct (update_rotate_cases now_set now_get v)
      as (_ & [(Hq & Hc & Hc4 & _) | (e & q & _ & _ & _ & Hoff)]); [done |].
    simpl in Hoff. congruence.
  - intros now_set now_get v ftype depth cnt rest Hv Hoff.
    destruct (update_rotate_cases now_set now_get v)
      as (_ & [(_ & _ & _ & Hon) | (e & q & Hv' & Hq & Hm & _)]).
    + rewrite Hon in Hoff; [discriminate | by rewrite Hv].
    + rewrite Hv in Hv'. injection Hv' as <- <-. simpl in Hm.
      split; [done |].
      destruct (cube_size v =? 3); simpl in Hm; by injection Hm as -> ->.
  - apply run_frames_prefix.
Qed.

End ViewerFacts.

(** ** Turn counts *)

Section TurnCountFacts.
Import Viewer Callback.
Local Open Scope string_scope.
Local Open Scope Z_scope.
Context `{Platform}.

Example add_rotate_negative f v :
  rotate_que (add_rotate f (-1) v) = (rotate_que v ++ [(f, 1, -1)])%list.
Proof. reflexivity. Qed.

Example add_rotate_five f v :
  rotate_que (add_rotate f 5 v) = (rotate_que v ++ [(f, 1, 1)])%list.
Proof. reflexivity. Qed.

Example shown_turns_negative : shown_turns (-1) = 3.
Proof. reflexivity. Qed.

Example solution_text_example :
  solution_text [(right, 1); (top, 2); (front, -1); (back, 7)] = "R U2 F' B' ".
Proof. reflexivity. Qed.

(** C++ [t % 4] lies strictly between -4 and 4 and is congruent to [t]. *)
Lemma cpp_rem_4 (t : Z) : -4 < cpp_rem t 4 < 4 ∧ cpp_rem t 4 mod 4 = t mod 4.
Proof.
  unfold cpp_rem. split.
  - pose proof (Z.rem_bound_abs t 4 ltac:(lia)). lia.
  - rewrite (Z.quot_rem' t 4) at 2.
    rewrite Z.add_comm, Z.mul_comm. by rewrite Z_mod_plus_full.
Qed.

Lemma cpp_rem_idem (t : Z) : cpp_rem (cpp_rem t 4) 4 = cpp_rem t 4.
Proof.
  destruct (cpp_rem_4 t) as [Hb _]. unfold cpp_rem in *.
  destruct (Z.le_gt_cases 0 (Z.rem t 4)).
  - apply Z.rem_small. lia.
  - rewrite <- (Z.opp_involutive (Z.rem t 4)) at 1.
    rewrite Z.rem_opp_l by lia. rewrite Z.rem_small by lia. lia.
Qed.

Lemma shown_turns_mod (r : Z) : shown_turns r = r mod 4.
Proof.
  unfold shown_turns. destruct (cpp_rem_4 r) as [Hb <-].
  assert (cpp_rem r 4 = -3 ∨ cpp_rem r 4 = -2 ∨ cpp_rem r 4 = -1 ∨ cpp_rem r 4 = 0
          ∨ cpp_rem r 4 = 1 ∨ cpp_rem r 4 = 2 ∨ cpp_rem r 4 = 3)
    as [-> | [-> | [-> | [-> | [-> | [-> | ->]]]]]] by lia; reflexivity.
Qed.

(** C++ [t % 4] has the sign of [t]; it is [t mod 4] exactly when [t] is
    not negative or is a multiple of 4. *)
Lemma cpp_rem_sign (t : Z) :
  (0 ≤ t → 0 ≤ cpp_rem t 4) ∧ (t ≤ 0 → cpp_rem t 4 ≤ 0)
  ∧ (cpp_rem t 4 = t mod 4 ↔ 0 ≤ t ∨ t mod 4 = 0).
Proof.
  destruct (cpp_rem_4 t) as [Hb Hm]. unfold cpp_rem in *.
  assert (0 ≤ t → 0 ≤ Z.rem t 4) as Hpos.
  { intros Ht. apply Z.rem_nonneg; lia. }
  assert (t ≤ 0 → Z.rem t 4 ≤ 0) as Hneg.
  { intros Ht. apply Z.rem_nonpos; lia. }
  split; [done |]. split; [done |]. split.
  - intros Heq. destruct (Z.le_gt_cases 0 t) as [Ht | Ht]; [by left |].
    right. pose proof (Z.mod_pos_bound t 4). lia.
  - intros [Ht | Ht].
    + rewrite <- Hm. symmetry. apply Z.mod_small. lia.
    + rewrite Ht in *.
      assert (Z.rem t 4 = -3 ∨ Z.rem t 4 = -2 ∨ Z.rem t 4 = -1 ∨ Z.rem t 4 = 0
              ∨ Z.rem t 4 = 1 ∨ Z.rem t 4 = 2 ∨ Z.rem t 4 = 3)
        as [He | [He | [He | [He | [He | [He | He]]]]]] by lia;
        rewrite He in Hm; try done.
Qed.

Lemma add_rotate3_same f depth t t' (v : viewer_gl) :
  add_rotate3 f depth t v = add_rotate3 f depth t' v ↔ cpp_rem t 4 = cpp_rem t' 4.
Proof.
  unfold add_rotate3. split.
  - intros Heq. apply (f_equal rotate_que) in Heq. simpl in Heq.
    apply app_inj_tail in Heq as [_ Heq]. by injection Heq.
  - by intros ->.
Qed.

(** C6. What the sources do with a turn count, whatever integer the
    caller passes.  [add_rotate] queues C++ [cnt % 4], which keeps the
    sign of [cnt]: a count strictly between -4 and 4, congruent to [cnt]
    modulo 4, that is [cnt mod 4] exactly when [cnt] is not negative or
    is a multiple of 4; and [add_rotate(f, cnt)] is the same operation as
    [add_rotate(f, cnt mod 4)] in exactly these cases.  The solve branch
    shows a move with the count [(r % 4 + 4) & 3], which is [r mod 4].
    Once the queued move has been played, the model on display is the
    one [cube_t::rotate] gives for [cnt % 4]; [cube_t::rotate] itself is
    not among the sources, and nothing is assumed of it. *)
Theorem turn_count_reduced_keeping_sign :
  (∀ f depth t v,
     rotate_que (add_rotate3 f depth t v)
     = (rotate_que v ++ [(f, depth, cpp_rem t 4)])%list)
  ∧ (∀ t, -4 < cpp_rem t 4 < 4 ∧ cpp_rem t 4 mod 4 = t mod 4
          ∧ (0 ≤ t → 0 ≤ cpp_rem t 4) ∧ (t ≤ 0 → cpp_rem t 4 ≤ 0)
          ∧ (cpp_rem t 4 = t mod 4 ↔ 0 ≤ t ∨ t mod 4 = 0))
  ∧ (∀ f depth t v,
       add_rotate3 f depth t v = add_rotate3 f depth (t mod 4) v
       ↔ 0 ≤ t ∨ t mod 4 = 0)
  ∧ (∀ r, shown_turns r = r mod 4)
  ∧ (∀ f t v clock,
       rotate_que v = [] → cube_size v = 3 →
       rotate_que (run_frames clock (add_rotate f t v)) = [] →
       cube (run_frames clock (add_rotate f t v)) = cube_rotate f (cpp_rem t 4) (cube v)).
Proof.
  split; [| split; [| split; [| split]]].
  - reflexivity.
  - intros t. destruct (cpp_rem_4 t) as [Hb Hm], (cpp_rem_sign t) as (Hp & Hn & Hiff). done.
  - intros f depth t v. rewrite add_rotate3_same.
    destruct (cpp_rem_sign t) as (_ & _ & <-).
    replace (cpp_rem (t mod 4) 4) with (t mod 4); [done |].
    unfold cpp_rem. symmetry. apply Z.rem_small. apply Z.mod_pos_bound. lia.
  - apply shown_turns_mod.
  - intros f t v clock Hq Hsize Hdone.
    destruct (run_frames_prefix clock (add_rotate f t v)) as (k & _ & Hk & Hm).
    rewrite Hdone in Hk. unfold add_rotate, add_rotate3 in Hk, Hm.
    simpl in Hk, Hm. rewrite Hq in Hk, Hm. simpl in Hk, Hm.
    destruct k as [| k]; [discriminate |]. simpl in Hm.
    rewrite Hsize, take_nil in Hm. simpl in Hm.
    injection Hm as Hm _. unfold add_rotate, add_rotate3. rewrite Hq. simpl.
    by rewrite Hm.
Qed.

End TurnCountFacts.

(** ** The viewer: zoom *)

(** Facts on binary64 values, read through [Prim2SF]. *)
Section FloatFacts.

Lemma shr_1_nonneg mrs : 0 ≤ shr_m mrs → 0 ≤ shr_m (shr_1 mrs).
Proof.
  destruct mrs as [m r s]. simpl.
  destruct m as [| p | p]; [done | | lia].
  intros _. destruct p; simpl; lia.
Qed.

Lemma iter_pos_shr_1_nonneg p : ∀ mrs,
  0 ≤ shr_m mrs → 0 ≤ shr_m (SpecFloat.iter_pos shr_1 p mrs).
Proof.
  induction p as [p IH | p IH |]; intros mrs Hm; simpl.
  - apply IH, IH. by apply shr_1_nonneg.
  - by apply IH, IH.
  - by apply shr_1_nonneg.
Qed.

Lemma shr_fexp_nonneg prec emax m e l :
  0 ≤ m → 0 ≤ shr_m (fst (shr_fexp prec emax m e l)).
Proof.
  intros Hm. unfold shr_fexp, shr.
  assert (0 ≤ shr_m (shr_record_of_loc m l)) as Hrec.
  { destruct l as [| []]; simpl; done. }
  destruct (_ - e); simpl; [done | | done].
  by apply iter_pos_shr_1_nonneg.
Qed.

Lemma round_nearest_even_nonneg m l : 0 ≤ m → 0 ≤ round_nearest_even m l.
Proof.
  intros Hm. destruct l as [| []]; simpl; try lia.
  destruct (Z.even m); lia.
Qed.

(** Rounding a mantissa that is not negative never gives a NaN. *)
Lemma binary_round_aux_not_nan prec emax sx mx ex lx :
  0 ≤ mx → binary_round_aux prec emax sx mx ex lx ≠ S754_nan.
Proof.
  intros Hm. unfold binary_round_aux.
  pose proof (shr_fexp_nonneg prec emax mx ex lx Hm) as H1.
  destruct (shr_fexp prec emax mx ex lx) as [mrs' e']. simpl in H1.
  pose proof (shr_fexp_nonneg prec emax _ e' loc_Exact
                (round_nearest_even_nonneg _ (loc_of_shr_record mrs') H1)) as H2.
  destruct (shr_fexp prec emax _ e' loc_Exact) as [mrs'' e'']. simpl in H2.
  destruct (shr_m mrs'') as [| p | p]; [done | | lia].
  by destruct (e'' <=? _).
Qed.

Lemma SFcompare_antisym a b c :
  SFcompare a b = Some c → SFcompare b a = Some (CompOpp c).
Proof.
  destruct a as [sa | sa | | sa ma ea], b as [sb | sb | | sb mb eb]; simpl;
    try discriminate; intros [= <-];
    try (by destruct sa); try (by destruct sb); try (by destruct sa, sb).
  assert (Pos.compare_cont Eq mb ma = CompOpp (Pos.compare_cont Eq ma mb)) as Hm
    by (symmetry; apply (Pos.compare_cont_antisym ma mb Eq)).
  destruct sa, sb; simpl; try done;
    rewrite (Z.compare_antisym ea eb), Hm;
    destruct (ea ?= eb); simpl; try done;
    by destruct (Pos.compare_cont Eq ma mb).
Qed.

Lemma SFcompare_defined a b :
  a ≠ S754_nan → b ≠ S754_nan → ∃ c, SFcompare a b = Some c.
Proof.
  destruct a, b; simpl; try done; eauto.
Qed.

(** Away from NaN, [x < lo] being false is [lo <= x]. *)
Lemma ltb_false_leb (x lo : float) :
  Prim2SF x ≠ S754_nan → Prim2SF lo ≠ S754_nan →
  (x <? lo)%float = false → (lo <=? x)%float = true.
Proof.
  intros Hx Hlo. rewrite ltb_spec, leb_spec. unfold SFltb, SFleb.
  destruct (SFcompare_defined _ _ Hx Hlo) as [c Hc].
  rewrite Hc, (SFcompare_antisym _ _ _ Hc). by destruct c.
Qed.

(** A value between two finite positive bounds is finite and positive. *)
Lemma between_finite (x lo hi : float) mlo elo mhi ehi :
  Prim2SF lo = S754_finite false mlo elo →
  Prim2SF hi = S754_finite false mhi ehi →
  (lo <=? x)%float = true → (x <=? hi)%float = true →
  ∃ m e, Prim2SF x = S754_finite false m e.
Proof.
  intros Hlo Hhi. rewrite !leb_spec, Hlo, Hhi. unfold SFleb.
  destruct (Prim2SF x) as [s | s | | s m e]; simpl; try done.
  - by destruct s.
  - destruct s; [done | eauto].
Qed.

(** A value above zero is finite and positive, or plus infinity. *)
Lemma positive_cases (f : float) :
  (0 <? f)%float = true →
  (∃ m e, Prim2SF f = S754_finite false m e) ∨ Prim2SF f = S754_infinity false.
Proof.
  rewrite ltb_spec. unfold SFltb.
  replace (Prim2SF 0) with (S754_zero false) by reflexivity.
  destruct (Prim2SF f) as [s | s | | s m e]; simpl; try done.
  - destruct s; [done | by right].
  - destruct s; [done | left; eauto].
Qed.

Lemma mul_positive_not_nan (x f : float) m e :
  Prim2SF x = S754_finite false m e → (0 <? f)%float = true →
  Prim2SF (x * f) ≠ S754_nan.
Proof.
  intros Hx Hf. rewrite mul_spec, Hx. unfold SF64mul.
  destruct (positive_cases f Hf) as [(m' & e' & ->) | ->]; simpl; [| done].
  by apply binary_round_aux_not_nan.
Qed.

End FloatFacts.

Section ZoomFacts.
Import Viewer.
Context `{Platform}.

Lemma zoom_lo_finite : Prim2SF zoom_lo = S754_finite false 7205759403792794 (-56).
Proof. reflexivity. Qed.

Lemma zoom_hi_finite : Prim2SF zoom_hi = S754_finite false 5629499534213120 (-49).
Proof. reflexivity. Qed.

(** Whatever is not a NaN is clamped into the interval. *)
Lemma std_clamp_range (x : float) :
  Prim2SF x ≠ S754_nan → in_zoom_range (std_clamp x zoom_lo zoom_hi).
Proof.
  intros Hx. unfold std_clamp, in_zoom_range.
  destruct (x <? zoom_lo)%float eqn:Hlo; [by vm_compute |].
  destruct (zoom_hi <? x)%float eqn:Hhi; [by vm_compute |].
  split; apply ltb_false_leb; try done;
    by rewrite ?zoom_lo_finite, ?zoom_hi_finite.
Qed.

Lemma zoom_range (factor : float) (v : viewer_gl) :
  in_zoom_range (zoom_factor v) → (0 <? factor)%float = true →
  in_zoom_range (zoom_factor (zoom factor v)).
Proof.
  intros [Hlo Hhi] Hf. simpl. apply std_clamp_range.
  destruct (between_finite _ _ _ _ _ _ _ zoom_lo_finite zoom_hi_finite Hlo Hhi)
    as (m & e & Hz).
  by eapply mul_positive_not_nan.
Qed.

Lemma zooms_range (factors : list float) : ∀ v,
  in_zoom_range (zoom_factor v) →
  Forall (λ f, (0 <? f)%float = true) factors →
  in_zoom_range (zoom_factor (zooms factors v)).
Proof.
  unfold zooms. induction factors as [| f factors IH]; intros v Hv Hpos; simpl.
  - done.
  - inversion Hpos as [| ? ? Hf Hrest]; subst.
    apply IH; [| done]. by apply zoom_range.
Qed.

(** C10. The zoom factor of a new viewer is 1.0, and after any sequence
    of [zoom] calls whose factors are all positive (finite or not) the
    factor lies in the closed interval from 0.1 to 10.0; the comparisons
    are those of binary64, and [0.1] is the double the literal denotes. *)
Theorem zoom_factor_in_range :
  zoom_factor viewer_new = 1%float
  ∧ ∀ factors : list float,
      Forall (λ f, (0 <? f)%float = true) factors →
      (zoom_lo <=? zoom_factor (zooms factors viewer_new))%float = true
      ∧ (zoom_factor (zooms factors viewer_new) <=? zoom_hi)%float = true.
Proof.
  split; [reflexivity |].
  intros factors Hpos. apply zooms_range; [| done].
  split; by vm_compute.
Qed.

End ZoomFacts.

(** ** The cube algebra *)

Section CubeFacts.
Import Viewer Cube.
Local Open Scope nat_scope.

Example quarter_right_corners :
  cp (quarter right solved) = [4; 1; 2; 0; 7; 5; 6; 3]
  ∧ co (quarter right solved) = [2; 0; 0; 1; 1; 0; 0; 2].
Proof. by vm_compute. Qed.

Example right_then_back :
  apply (apply solved (right, 1%Z)) (right, 3%Z) = solved.
Proof. by vm_compute. Qed.

Example rotate_negative : rotate front (-1) solved = rotate front 3 solved.
Proof. by vm_compute. Qed.

(** A list of known length, taken apart into its elements. *)
Ltac explode_list l :=
  repeat match goal with
    | H : length l = _ |- _ =>
        destruct l as [| ? l]; simpl in H; [discriminate H | injection H as H]
    end;
  match goal with
  | H : length l = 0 |- _ => destruct l; [clear H | discriminate H]
  end.

Ltac explode_cube s :=
  let cp := fresh "cp" in let co := fresh "co" in
  let ep := fresh "ep" in let eo := fresh "eo" in
  let Hcp := fresh in let Hco := fresh in let Hep := fresh in let Heo := fresh in
  let Ht := fresh "Ht" in let Hf := fresh "Hf" in
  destruct s as [cp co ep eo]; intros [Hcp Hco Hep Heo Ht Hf]; simpl in *;
  explode_list cp; explode_list co; explode_list ep; explode_list eo.

Lemma twist_cases o : o < 3 → o = 0 ∨ o = 1 ∨ o = 2.
Proof. lia. Qed.

Lemma flip_cases o : o < 2 → o = 0 ∨ o = 1.
Proof. lia. Qed.

(** An orientation equation in one unknown below 3 (or below 2), settled
    by running through its values. *)
Ltac by_orientation :=
  match goal with
  | H : ?o < 3 |- _ => destruct (twist_cases o H) as [-> | [-> | ->]]; reflexivity
  | H : ?o < 2 |- _ => destruct (flip_cases o H) as [-> | ->]; reflexivity
  | _ => reflexivity
  end.

Lemma Forall_zip_with_any {A B C} (P : C → Prop) (g : A → B → C) l k :
  (∀ x y, P (g x y)) → Forall P (zip_with g l k).
Proof.
  intros Hg. revert k. induction l as [| x l IH]; intros [| y k]; simpl; auto.
Qed.

Lemma quarter_well_formed s f : well_formed s → well_formed (quarter f s).
Proof.
  intros [Hcp Hco Hep Heo Ht Hf]. unfold quarter, compose.
  split; cbn [cp co ep eo].
  - rewrite length_map. by destruct f.
  - rewrite length_zip_with. by destruct f.
  - rewrite length_map. by destruct f.
  - rewrite length_zip_with. by destruct f.
  - apply Forall_zip_with_any. intros. by apply Nat.mod_upper_bound.
  - apply Forall_zip_with_any. intros. by apply Nat.mod_upper_bound.
Qed.

Lemma solved_well_formed : well_formed solved.
Proof. split; simpl; try done; repeat constructor. Qed.

(** Four quarter turns of a face bring every cubie back, twist and flip
    included. *)
Lemma quarter_four f s :
  well_formed s → quarter f (quarter f (quarter f (quarter f s))) = s.
Proof.
  revert s. intros s. explode_cube s.
  repeat match goal with
    | H : Forall _ (_ :: _) |- _ => apply Forall_cons in H as [? H]
    end.
  destruct f; unfold quarter, compose; cbn [cp co ep eo face_move map zip_with nth];
    f_equal; repeat (f_equal; try by_orientation).
Qed.

Lemma iter_quarter_well_formed f n s :
  well_formed s → well_formed (Nat.iter n (quarter f) s).
Proof. intros Hs. induction n; simpl; [done | by apply quarter_well_formed]. Qed.

Lemma rotate_well_formed f t s : well_formed s → well_formed (rotate f t s).
Proof. apply iter_quarter_well_formed. Qed.

Lemma reachable_well_formed s : reachable s → well_formed s.
Proof.
  induction 1 as [| s m _ IH]; [apply solved_well_formed |].
  by apply rotate_well_formed.
Qed.

(** The turn counts of a move and of its inverse add up to a whole number
    of full turns. *)
Lemma inverse_turns (t : Z) :
  Z.to_nat (t mod 4)%Z + Z.to_nat ((4 - t) mod 4)%Z = 0
  ∨ Z.to_nat (t mod 4)%Z + Z.to_nat ((4 - t) mod 4)%Z = 4.
Proof.
  pose proof (Z.mod_pos_bound t 4 ltac:(lia)) as Ht.
  assert ((4 - t) mod 4 = (4 - t mod 4) mod 4)%Z as ->.
  { rewrite Zminus_mod_idemp_r. done. }
  assert (t mod 4 = 0 ∨ t mod 4 = 1 ∨ t mod 4 = 2 ∨ t mod 4 = 3)%Z
    as [-> | [-> | [-> | ->]]] by lia; simpl; auto.
Qed.

Lemma rotate_inverse f t s :
  well_formed s → rotate f (4 - t) (rotate f t s) = s.
Proof.
  intros Hs. unfold rotate. rewrite <- Nat.iter_add, Nat.add_comm.
  destruct (inverse_turns t) as [-> | ->]; simpl; [done |].
  by apply quarter_four.
Qed.

Lemma sum_list_Permutation (l k : list nat) : l ≡ₚ k → sum_list l = sum_list k.
Proof. induction 1; simpl; lia. Qed.

Lemma map_nth_seq {A} (d : A) (l : list A) :
  map (λ i, nth i l d) (seq 0 (length l)) = l.
Proof.
  induction l as [| x l IH]; simpl; [done |].
  f_equal. rewrite <- seq_shift, map_map. exact IH.
Qed.

(** Reading a list at a permutation of its indices permutes the list. *)
Lemma map_nth_Permutation {A} (d : A) (l : list A) (idx : list nat) :
  idx ≡ₚ seq 0 (length l) → map (λ i, nth i l d) idx ≡ₚ l.
Proof.
  intros Hidx.
  pose proof (fmap_Permutation (λ i, nth i l d) _ _ Hidx) as Hmap.
  unfold fmap, list_fmap in Hmap. fold (map (λ i, nth i l d)) in Hmap.
  by rewrite (map_nth_seq d l) in Hmap.
Qed.

(** The orientations of a product add up, modulo [b], to the orientations
    of the factors. *)
Lemma sum_zip_with_mod (b : nat) (l : list nat) : ∀ idx tw : list nat,
  length tw = length idx →
  sum_list (zip_with (λ i o, (nth i l 0 + o) mod b) idx tw) mod b
  = (sum_list (map (λ i, nth i l 0) idx) + sum_list tw) mod b.
Proof.
  induction idx as [| i idx IH]; intros [| o tw] Hlen; simpl in *; try done.
  injection Hlen as Hlen.
  rewrite Nat.Div0.add_mod, Nat.Div0.mod_mod, (IH tw Hlen).
  rewrite <- Nat.Div0.add_mod. f_equal. lia.
Qed.

Lemma face_move_well_formed f : well_formed (face_move f).
Proof. destruct f; split; simpl; try reflexivity; repeat constructor. Qed.

Lemma face_move_coherent f : coherent (face_move f).
Proof.
  split.
  - apply face_move_well_formed.
  - destruct f; apply (bool_decide_unpack _); by vm_compute.
  - destruct f; apply (bool_decide_unpack _); by vm_compute.
  - by destruct f.
  - by destruct f.
Qed.

Lemma quarter_coherent f s : coherent s → coherent (quarter f s).
Proof.
  intros [Hwf Hcp Hep Hco Heo].
  destruct (face_move_coherent f) as [[Fcp Fco Fep Feo _ _] Pcp Pep Sco Seo].
  destruct Hwf as [Lcp Lco Lep Leo Ht Hf].
  assert (cp (face_move f) ≡ₚ seq 0 (length (cp s))) as Pcp' by by rewrite Lcp.
  assert (cp (face_move f) ≡ₚ seq 0 (length (co s))) as Pco' by by rewrite Lco.
  assert (ep (face_move f) ≡ₚ seq 0 (length (ep s))) as Pep' by by rewrite Lep.
  assert (ep (face_move f) ≡ₚ seq 0 (length (eo s))) as Peo' by by rewrite Leo.
  split.
  - apply quarter_well_formed. by split.
  - unfold quarter, compose. cbn [cp]. by rewrite (map_nth_Permutation 0 _ _ Pcp').
  - unfold quarter, compose. cbn [ep]. by rewrite (map_nth_Permutation 0 _ _ Pep').
  - unfold quarter, compose. cbn [co].
    rewrite sum_zip_with_mod by by rewrite Fcp, Fco.
    rewrite (sum_list_Permutation _ _ (map_nth_Permutation 0 _ _ Pco')).
    rewrite Nat.Div0.add_mod, Hco, Sco. done.
  - unfold quarter, compose. cbn [eo].
    rewrite sum_zip_with_mod by by rewrite Fep, Feo.
    rewrite (sum_list_Permutation _ _ (map_nth_Permutation 0 _ _ Peo')).
    rewrite Nat.Div0.add_mod, Heo, Seo. done.
Qed.

Lemma solved_coherent : coherent solved.
Proof. split; [apply solved_well_formed | done..]. Qed.

(** Every reachable state satisfies the invariants. *)
Lemma reachable_coherent s : reachable s → coherent s.
Proof.
  induction 1 as [| s [f t] _ IH]; [apply solved_coherent |].
  unfold apply, rotate. simpl.
  induction (Z.to_nat (t mod 4)%Z) as [| n IHn]; simpl; [done |].
  by apply quarter_coherent.
Qed.

(** The turn count of [rotate] counts modulo 4. *)
Lemma rotate_mod_4 f (t : Z) s : rotate f t s = rotate f (t mod 4) s.
Proof. unfold rotate. by rewrite Z.mod_mod. Qed.

(** C5. On every reachable state, a move followed by its inverse gives the
    state back; the turn count may be any integer. *)
Theorem apply_inverse (s : cube) (m : move) :
  reachable s → apply (apply s m) (inverse m) = s.
Proof.
  intros Hs. destruct m as [f t]. unfold apply, inverse. simpl.
  apply rotate_inverse. by apply reachable_well_formed.
Qed.

Lemma apply_inverse_witness :
  reachable (apply solved (front, 1%Z))
  ∧ apply (apply (apply solved (front, 1%Z)) (right, 3%Z)) (inverse (right, 3%Z))
    = apply solved (front, 1%Z).
Proof.
  assert (reachable (apply solved (front, 1%Z))) as Hr
    by (apply reachable_apply, reachable_solved).
  split; [exact Hr |]. exact (apply_inverse _ (right, 3%Z) Hr).
Defined.

End CubeFacts.

(** ** The coordinates *)

Section CoordFacts.
Import Viewer Cube Coord.
Local Open Scope nat_scope.

Example encode_solved :
  encode_co solved = 0%N ∧ encode_eo solved = 0%N ∧ encode_slice solved = 0%N
  ∧ encode_cp solved = 0%N ∧ encode_ep8 solved = 0%N ∧ encode_slice_perm solved = 0%N.
Proof. by vm_compute. Qed.

Example encode_front :
  encode_co (quarter front solved) = 1236%N
  ∧ co (decode_co 1236) = [1; 2; 0; 0; 2; 1; 0; 0]
  ∧ encode_eo (quarter front solved) = 550%N
  ∧ eo (decode_eo 550) = [0; 1; 0; 0; 0; 1; 0; 0; 1; 1; 0; 0].
Proof. by vm_compute. Qed.

Example encode_right_slice :
  slice_occupancy (quarter right solved)
  = [true; false; false; false; true; false; false; false; false; true; true; false]
  ∧ encode_slice (quarter right solved) = 367%N
  ∧ ep (decode_slice 367) = [8; 0; 1; 2; 9; 3; 4; 5; 6; 10; 11; 7].
Proof. by vm_compute. Qed.

Example decode_perm_example :
  decode_perm 4 0 = [0; 1; 2; 3] ∧ decode_perm 4 23 = [3; 2; 1; 0]
  ∧ encode_perm [2; 0; 3; 1] = 13%N ∧ decode_perm 4 13 = [2; 0; 3; 1].
Proof. by vm_compute. Qed.

(** *** Digits *)

Lemma of_digits_snoc b ds d :
  of_digits b (ds ++ [d]) = (b * of_digits b ds + N.of_nat d)%N.
Proof. unfold of_digits. by rewrite fold_left_app. Qed.

Lemma to_digits_length b n : ∀ c, length (to_digits b n c) = n.
Proof.
  induction n as [| n IH]; intros c; simpl; [done |].
  rewrite length_app, IH. simpl. lia.
Qed.

Lemma to_digits_below b n : (0 < b)%N → ∀ c,
  Forall (λ d, (N.of_nat d < b)%N) (to_digits b n c).
Proof.
  intros Hb. induction n as [| n IH]; intros c; simpl; [constructor |].
  apply Forall_app. split; [apply IH |].
  constructor; [| constructor].
  rewrite N2Nat.id. apply N.mod_lt. lia.
Qed.

Lemma of_digits_to_digits b n : (0 < b)%N → ∀ c,
  (c < b ^ N.of_nat n)%N → of_digits b (to_digits b n c) = c.
Proof.
  intros Hb. induction n as [| n IH]; intros c Hc.
  { simpl in *. unfold of_digits. simpl. lia. }
  simpl to_digits. rewrite of_digits_snoc, N2Nat.id.
  rewrite IH.
  - symmetry. apply N.div_mod. lia.
  - rewrite Nat2N.inj_succ, N.pow_succ_r' in Hc.
    apply N.Div0.div_lt_upper_bound. lia.
Qed.

Lemma to_digits_of_digits b ds :
  Forall (λ d, (N.of_nat d < b)%N) ds →
  to_digits b (length ds) (of_digits b ds) = ds.
Proof.
  induction ds as [| d ds IH] using rev_ind; intros Hds; [done |].
  apply Forall_app in Hds as [Hds Hd]. apply Forall_inv in Hd. simpl in Hd.
  rewrite length_app, Nat.add_1_r. simpl to_digits.
  rewrite of_digits_snoc.
  assert (((b * of_digits b ds + N.of_nat d) / b)%N = of_digits b ds) as ->.
  { symmetry. apply (N.div_unique _ _ _ (N.of_nat d)); [exact Hd | reflexivity]. }
  assert (((b * of_digits b ds + N.of_nat d) mod b)%N = N.of_nat d) as ->.
  { symmetry. apply (N.mod_unique _ _ (of_digits b ds)); [exact Hd | reflexivity]. }
  by rewrite IH, Nat2N.id.
Qed.

Lemma of_digits_below b ds :
  Forall (λ d, (N.of_nat d < b)%N) ds →
  (of_digits b ds < b ^ N.of_nat (length ds))%N.
Proof.
  induction ds as [| d ds IH] using rev_ind; intros Hds.
  { unfold of_digits. simpl. lia. }
  apply Forall_app in Hds as [Hds Hd]. apply Forall_inv in Hd. simpl in Hd.
  specialize (IH Hds).
  rewrite of_digits_snoc, length_app, Nat.add_1_r, Nat2N.inj_succ, N.pow_succ_r'.
  nia.
Qed.

(** *** Orientation coordinates *)

Lemma sum_list_snoc ds o : sum_list (ds ++ [o]) = sum_list ds + o.
Proof. induction ds as [| d ds IH]; simpl; lia. Qed.

Lemma closing_digit b ds o :
  o < b → sum_list (ds ++ [o]) mod b = 0 → with_closing b ds = ds ++ [o].
Proof.
  intros Ho Hsum. unfold with_closing. do 2 f_equal.
  rewrite sum_list_snoc, <- Nat.Div0.add_mod_idemp_l in Hsum.
  pose proof (Nat.mod_upper_bound (sum_list ds) b ltac:(lia)) as Hr.
  set (r := sum_list ds mod b) in *.
  pose proof (Nat.div_mod_eq (r + o) b) as Hdiv. rewrite Hsum in Hdiv.
  assert ((r + o) / b = 0 ∨ (r + o) / b = 1) as [Hq | Hq] by nia.
  - rewrite Hq in Hdiv. assert (r = 0 ∧ o = 0) as [-> ->] by lia.
    rewrite Nat.sub_0_r. apply Nat.Div0.mod_same.
  - rewrite Hq in Hdiv. replace (b - r) with o by lia. by apply Nat.mod_small.
Qed.

Lemma split_last {A} (l : list A) n :
  length l = S n → ∃ ds o, l = ds ++ [o] ∧ length ds = n.
Proof.
  intros Hl. destruct l as [| x l] using rev_ind; [done |].
  rewrite length_app in Hl. simpl in Hl. exists l, x. split; [done | lia].
Qed.

(** An orientation vector whose entries are below [b] and add up to a
    multiple of [b] is given back from the number its first digits spell. *)
Lemma orientation_roundtrip (b n : nat) (l : list nat) :
  length l = S n → Forall (λ o, o < b) l → sum_list l mod b = 0 →
  with_closing b (to_digits (N.of_nat b) n (of_digits (N.of_nat b) (take n l))) = l.
Proof.
  intros Hl Hb Hsum. destruct (split_last l n Hl) as (ds & o & -> & Hds).
  apply Forall_app in Hb as [Hb Ho]. apply Forall_inv in Ho.
  rewrite take_app_length' by done. rewrite <- Hds at 1.
  rewrite to_digits_of_digits; [by apply closing_digit |].
  eapply Forall_impl; [exact Hb |]. simpl. lia.
Qed.

Lemma orientation_rank (b n : nat) (c : N) :
  0 < b → (c < N.of_nat b ^ N.of_nat n)%N →
  of_digits (N.of_nat b) (take n (with_closing b (to_digits (N.of_nat b) n c))) = c.
Proof.
  intros Hb Hc. unfold with_closing.
  rewrite take_app_length' by (symmetry; apply to_digits_length).
  apply of_digits_to_digits; [lia | done].
Qed.

Lemma decode_encode_co s : coherent s → co (decode_co (encode_co s)) = co s.
Proof.
  intros [[_ Hco _ _ Ht _] _ _ Hsum _]. by apply (orientation_roundtrip 3 7).
Qed.

Lemma decode_encode_eo s : coherent s → eo (decode_eo (encode_eo s)) = eo s.
Proof.
  intros [[_ _ _ Heo _ Hf] _ _ _ Hsum]. by apply (orientation_roundtrip 2 11).
Qed.

Lemma encode_decode_co c : (c < 2187)%N → encode_co (decode_co c) = c.
Proof. intros Hc. by apply (orientation_rank 3 7); [lia |]. Qed.

Lemma encode_decode_eo c : (c < 2048)%N → encode_eo (decode_eo c) = c.
Proof. intros Hc. by apply (orientation_rank 2 11); [lia |]. Qed.

(** *** The slice placement coordinate *)

Lemma bool_lists_complete (l : list bool) : In l (bool_lists (length l)).
Proof.
  induction l as [| b l IH]; simpl; [by left |].
  apply in_flat_map. exists l. split; [done |].
  destruct b; simpl; auto.
Qed.

Lemma slice_check_all : forallb slice_check (bool_lists 12) = true.
Proof. by vm_compute. Qed.

Lemma slice_check_holds (occ : list bool) :
  length occ = 12 → count_true occ = 4 →
  slice_unrank 12 4 (slice_rank (rev occ) 0 0) = occ
  ∧ map (λ e, bool_decide (8 ≤ e)) (place_edges occ 0 8) = occ
  ∧ slice_rank (rev occ) 0 0 < 495.
Proof.
  intros Hlen Hcount.
  pose proof (proj1 (forallb_forall _ _) slice_check_all occ) as Hchk.
  rewrite <- Hlen in Hchk. specialize (Hchk (bool_lists_complete occ)).
  unfold slice_check in Hchk. rewrite Hcount in Hchk. simpl in Hchk.
  apply andb_true_iff in Hchk as [Hchk H3].
  apply andb_true_iff in Hchk as [H1 H2].
  apply bool_decide_eq_true in H1, H2. apply Nat.ltb_lt in H3. done.
Qed.

Lemma count_true_map {A} (g : A → bool) (l k : list A) :
  l ≡ₚ k → count_true (map g l) = count_true (map g k).
Proof.
  intros Hperm. unfold count_true. apply sum_list_Permutation.
  apply Permutation_map. by apply Permutation_map.
Qed.

(** A coherent cube has its four slice edges on four of the twelve
    positions. *)
Lemma slice_occupancy_shape s :
  coherent s → length (slice_occupancy s) = 12 ∧ count_true (slice_occupancy s) = 4.
Proof.
  intros [[_ _ Hep _ _ _] _ Pep _ _]. unfold slice_occupancy. split.
  - by rewrite length_map.
  - by rewrite (count_true_map _ _ _ Pep).
Qed.

Lemma decode_encode_slice s :
  coherent s → slice_occupancy (decode_slice (encode_slice s)) = slice_occupancy s.
Proof.
  intros Hs. destruct (slice_occupancy_shape s Hs) as [Hlen Hcount].
  destruct (slice_check_holds _ Hlen Hcount) as (Hrank & Hplace & _).
  unfold decode_slice, encode_slice, slice_occupancy at 1. cbn [ep].
  by rewrite Nat2N.id, Hrank, Hplace.
Qed.

Lemma below_enumerated (n : nat) (c : N) :
  (c < N.of_nat n)%N → In c (map N.of_nat (seq 0 n)).
Proof.
  intros Hc. apply in_map_iff. exists (N.to_nat c).
  split; [apply N2Nat.id |]. apply in_seq. lia.
Qed.

Lemma encode_decode_slice c : (c < 495)%N → encode_slice (decode_slice c) = c.
Proof.
  intros Hc.
  assert (forallb (λ c, N.eqb (encode_slice (decode_slice c)) c)
            (map N.of_nat (seq 0 495)) = true) as Hall by by vm_compute.
  apply N.eqb_eq.
  apply (proj1 (forallb_forall _ _) Hall c). by apply below_enumerated.
Qed.

(** *** Permutation coordinates *)

Lemma filter_keeps_all {A} (P : A → Prop) `{∀ x, Decision (P x)} (l : list A) :
  Forall P l → filter P l = l.
Proof.
  induction 1 as [| x l Hx _ IH]; [done |].
  by rewrite filter_cons_True, IH.
Qed.

Lemma filter_keeps_none {A} (P : A → Prop) `{∀ x, Decision (P x)} (l : list A) :
  Forall (λ x, ¬ P x) l → filter P l = [].
Proof.
  induction 1 as [| x l Hx _ IH]; [done |].
  by rewrite filter_cons_False.
Qed.

(** In an increasing list the entries smaller than [x] are those before
    it. *)
Lemma smaller_before (l1 l2 : list nat) (x : nat) :
  StronglySorted lt (l1 ++ x :: l2) →
  length (filter (λ y, y < x) (l1 ++ l2)) = length l1.
Proof.
  intros Hs. apply StronglySorted_app in Hs as (Hlt & _ & Hs2).
  apply StronglySorted_cons in Hs2 as [Hgt _].
  rewrite filter_app, filter_keeps_all, filter_keeps_none, app_nil_r; [done | |].
  - eapply Forall_impl; [exact Hgt |]. simpl. lia.
  - apply Forall_forall. intros y Hy. apply (Hlt y x); [done | left].
Qed.

Lemma sorted_without (l1 l2 : list nat) (x : nat) :
  StronglySorted lt (l1 ++ x :: l2) → StronglySorted lt (l1 ++ l2).
Proof.
  intros Hs. apply StronglySorted_app in Hs as (Hlt & Hs1 & Hs2).
  apply StronglySorted_cons in Hs2 as [_ Hs2].
  apply StronglySorted_app. split; [| done].
  intros x1 x2 H1 H2. apply Hlt; [done | by right].
Qed.

Lemma Nfact_pos n : (0 < Nfact n)%N.
Proof. induction n as [| n IH]; simpl; [lia | nia]. Qed.

Lemma encode_perm_below p : (encode_perm p < Nfact (length p))%N.
Proof.
  induction p as [| x rest IH]; [simpl; lia |].
  cbn [encode_perm length Nfact].
  pose proof (length_filter (λ y, y < x) rest) as Hd.
  set (d := length (filter (λ y, y < x) rest)) in *. nia.
Qed.

(** The Lehmer rank of a list gives the list back when it is decoded over
    the increasing list of its entries. *)
Lemma decode_encode_from (p : list nat) : ∀ avail,
  StronglySorted lt avail → p ≡ₚ avail →
  decode_from avail (length p) (encode_perm p) = p.
Proof.
  induction p as [| x rest IH]; intros avail Hs Hp; [done |].
  apply Permutation_cons_inv_l in Hp as (l1 & l2 & -> & Hrest).
  cbn [encode_perm length decode_from].
  assert (length (filter (λ y, y < x) rest) = length l1) as ->.
  { rewrite <- (smaller_before l1 l2 x Hs).
    apply Permutation_length. by apply filter_Permutation. }
  pose proof (encode_perm_below rest) as He.
  pose proof (Nfact_pos (length rest)) as Hf.
  assert (((N.of_nat (length l1) * Nfact (length rest) + encode_perm rest)
             / Nfact (length rest))%N = N.of_nat (length l1)) as ->.
  { symmetry. apply (N.div_unique _ _ _ (encode_perm rest)); [done | lia]. }
  assert (((N.of_nat (length l1) * Nfact (length rest) + encode_perm rest)
             mod Nfact (length rest))%N = encode_perm rest) as ->.
  { symmetry. apply (N.mod_unique _ _ (N.of_nat (length l1))); [done | lia]. }
  rewrite Nat2N.id, delete_middle. f_equal.
  - rewrite app_nth2 by lia. by rewrite Nat.sub_diag.
  - apply IH; [by eapply sorted_without | done].
Qed.

(** Decoding a rank below [n!] over an increasing list of [n] cubies
    permutes the list, and the Lehmer rank of the result is the rank. *)
Lemma encode_decode_from (n : nat) : ∀ avail c,
  StronglySorted lt avail → length avail = n → (c < Nfact n)%N →
  decode_from avail n c ≡ₚ avail ∧ encode_perm (decode_from avail n c) = c.
Proof.
  induction n as [| n IH]; intros avail c Hs Hlen Hc.
  { destruct avail; [| done]. simpl in *. split; [done | lia]. }
  cbn [decode_from Nfact] in *.
  pose proof (Nfact_pos n) as Hf.
  set (d := N.to_nat (c / Nfact n)%N).
  assert (d < length avail) as Hd.
  { subst d. rewrite Hlen.
    assert (c / Nfact n < N.of_nat (S n))%N; [| lia].
    apply N.Div0.div_lt_upper_bound. lia. }
  destruct (nth_split avail 0 Hd) as (l1 & l2 & Havail & Hl1).
  fold d. remember (nth d avail 0) as x eqn:Hx. clear Hx Hd. subst avail.
  rewrite length_app in Hlen. simpl in Hlen.
  rewrite <- Hl1, delete_middle.
  destruct (IH (l1 ++ l2) (c mod Nfact n)%N) as [Hperm Henc].
  - by eapply sorted_without.
  - rewrite length_app. lia.
  - apply N.mod_lt. lia.
  - split; [by apply Permutation_cons_app |].
    cbn [encode_perm]. rewrite Henc.
    assert (length (filter (λ y, y < x) (decode_from (l1 ++ l2) n (c mod Nfact n)%N))
            = d) as ->.
    { rewrite <- Hl1, <- (smaller_before l1 l2 x Hs).
      apply Permutation_length. by apply filter_Permutation. }
    assert (length (decode_from (l1 ++ l2) n (c mod Nfact n)%N) = n) as ->.
    { rewrite (Permutation_length Hperm), length_app. lia. }
    subst d. rewrite N2Nat.id. pose proof (N.div_mod c (Nfact n)). lia.
Qed.

Lemma seq_sorted (start n : nat) : StronglySorted lt (seq start n).
Proof.
  revert start. induction n as [| n IH]; intros start; simpl; constructor.
  - apply IH.
  - apply Forall_forall. intros y Hy. apply list_elem_of_In, in_seq in Hy. lia.
Qed.

Lemma decode_encode_perm (n : nat) (p : list nat) :
  p ≡ₚ seq 0 n → decode_perm n (encode_perm p) = p.
Proof.
  intros Hp. unfold decode_perm.
  replace n with (length p) at 2 by by rewrite (Permutation_length Hp), length_seq.
  apply decode_encode_from; [apply seq_sorted | done].
Qed.

Lemma encode_decode_perm (n : nat) (c : N) :
  (c < Nfact n)%N →
  decode_perm n c ≡ₚ seq 0 n ∧ encode_perm (decode_perm n c) = c.
Proof.
  intros Hc. apply encode_decode_from; [apply seq_sorted | apply length_seq | done].
Qed.

Lemma decode_encode_cp s : coherent s → cp (decode_cp (encode_cp s)) = cp s.
Proof. intros Hs. apply decode_encode_perm, Hs. Qed.

Lemma encode_decode_cp c : (c < 40320)%N → encode_cp (decode_cp c) = c.
Proof. intros Hc. by apply (encode_decode_perm 8). Qed.

Lemma decode_encode_ep8 s :
  edges_in_phase2 s → take 8 (ep (decode_ep8 (encode_ep8 s))) = take 8 (ep s).
Proof.
  intros [H8 _]. unfold decode_ep8, encode_ep8. cbn [ep].
  rewrite (decode_encode_perm 8 _ H8). apply take_app_length'.
  by rewrite (Permutation_length H8).
Qed.

Lemma encode_decode_ep8 c : (c < 40320)%N → encode_ep8 (decode_ep8 c) = c.
Proof.
  intros Hc. destruct (encode_decode_perm 8 c Hc) as [Hperm Henc].
  unfold encode_ep8, decode_ep8. cbn [ep].
  rewrite take_app_length' by by rewrite (Permutation_length Hperm).
  exact Henc.
Qed.

Lemma map_sub_add_8 (l : list nat) : map (λ e, e - 8) (map (λ e, e + 8) l) = l.
Proof.
  rewrite map_map. rewrite <- (map_id l) at 2. apply map_ext. intros. lia.
Qed.

Lemma map_add_sub_8 (l : list nat) :
  Forall (λ e, 8 ≤ e) l → map (λ e, e + 8) (map (λ e, e - 8) l) = l.
Proof.
  intros Hl. rewrite map_map. rewrite <- (map_id l) at 2.
  apply map_ext_Forall. eapply Forall_impl; [exact Hl |]. simpl. lia.
Qed.

Lemma decode_encode_slice_perm s :
  edges_in_phase2 s →
  drop 8 (ep (decode_slice_perm (encode_slice_perm s))) = drop 8 (ep s).
Proof.
  intros [_ H4]. unfold decode_slice_perm, encode_slice_perm. cbn [ep].
  rewrite (decode_encode_perm 4).
  - rewrite map_add_sub_8; [done |].
    apply Forall_forall. intros e He. rewrite H4 in He.
    apply list_elem_of_In, in_seq in He. lia.
  - by rewrite (Permutation_map (λ e, e - 8) H4).
Qed.

Lemma encode_decode_slice_perm c :
  (c < 24)%N → encode_slice_perm (decode_slice_perm c) = c.
Proof.
  intros Hc. destruct (encode_decode_perm 4 c Hc) as [_ Henc].
  unfold encode_slice_perm, decode_slice_perm. cbn [ep].
  rewrite drop_app_length' by done. by rewrite map_sub_add_8.
Qed.

(** The coordinates of a coherent cube are in range. *)
Lemma coordinates_below s :
  coherent s →
  (encode_co s < 2187 ∧ encode_eo s < 2048 ∧ encode_slice s < 495
   ∧ encode_cp s < 40320 ∧ encode_ep8 s < 40320 ∧ encode_slice_perm s < 24)%N.
Proof.
  intros Hs. pose proof Hs as [[Hcp Hco Hep Heo Ht Hf] Pcp Pep _ _].
  repeat split.
  - replace 2187%N with (3 ^ N.of_nat (length (take 7 (co s))))%N
      by by rewrite length_take, Hco.
    apply of_digits_below, Forall_take.
    eapply Forall_impl; [exact Ht |]. simpl. lia.
  - replace 2048%N with (2 ^ N.of_nat (length (take 11 (eo s))))%N
      by by rewrite length_take, Heo.
    apply of_digits_below, Forall_take.
    eapply Forall_impl; [exact Hf |]. simpl. lia.
  - destruct (slice_occupancy_shape s Hs) as [Hlen Hcount].
    destruct (slice_check_holds _ Hlen Hcount) as (_ & _ & Hlt).
    unfold encode_slice. lia.
  - pose proof (encode_perm_below (cp s)) as Hb. by rewrite Hcp in Hb.
  - pose proof (encode_perm_below (take 8 (ep s))) as Hb.
    by rewrite length_take, Hep in Hb.
  - pose proof (encode_perm_below (map (λ e, e - 8) (drop 8 (ep s)))) as Hb.
    by rewrite length_map, length_drop, Hep in Hb.
Qed.

(** C4, as amended.  A coordinate keeps one part of the cube: decoding
    the coordinate of a reachable state gives that part back (the corner
    twists, the edge flips, the positions of the slice edges, the corner
    permutation and, in phase 2, the two edge permutations), the
    coordinate of a reachable state is in range, and encoding what a
    coordinate in range decodes to gives the coordinate back. *)
Theorem coordinates_inverse :
  (∀ s, reachable s →
     co (decode_co (encode_co s)) = co s
     ∧ eo (decode_eo (encode_eo s)) = eo s
     ∧ slice_occupancy (decode_slice (encode_slice s)) = slice_occupancy s
     ∧ cp (decode_cp (encode_cp s)) = cp s
     ∧ (edges_in_phase2 s →
        take 8 (ep (decode_ep8 (encode_ep8 s))) = take 8 (ep s)
        ∧ drop 8 (ep (decode_slice_perm (encode_slice_perm s))) = drop 8 (ep s)))
  ∧ (∀ s, reachable s →
       (encode_co s < 2187 ∧ encode_eo s < 2048 ∧ encode_slice s < 495
        ∧ encode_cp s < 40320 ∧ encode_ep8 s < 40320
        ∧ encode_slice_perm s < 24)%N)
  ∧ (∀ c : N,
       ((c < 2187)%N → encode_co (decode_co c) = c)
       ∧ ((c < 2048)%N → encode_eo (decode_eo c) = c)
       ∧ ((c < 495)%N → encode_slice (decode_slice c) = c)
       ∧ ((c < 40320)%N → encode_cp (decode_cp c) = c)
       ∧ ((c < 40320)%N → encode_ep8 (decode_ep8 c) = c)
       ∧ ((c < 24)%N → encode_slice_perm (decode_slice_perm c) = c)).
Proof.
  split; [| split].
  - intros s Hs. apply reachable_coherent in Hs.
    split; [by apply decode_encode_co |].
    split; [by apply decode_encode_eo |].
    split; [by apply decode_encode_slice |].
    split; [by apply decode_encode_cp |].
    intros H2. split; [by apply decode_encode_ep8 | by apply decode_encode_slice_perm].
  - intros s Hs. by apply coordinates_below, reachable_coherent.
  - intros c.
    split; [apply encode_decode_co |].
    split; [apply encode_decode_eo |].
    split; [apply encode_decode_slice |].
    split; [apply encode_decode_cp |].
    split; [apply encode_decode_ep8 | apply encode_decode_slice_perm].
Qed.

Lemma coordinates_inverse_witness :
  reachable (apply solved (right, 1%Z))
  ∧ co (decode_co (encode_co (apply solved (right, 1%Z))))
    = co (apply solved (right, 1%Z))
  ∧ encode_cp (decode_cp 40319) = 40319%N.
Proof.
  destruct coordinates_inverse as (Hdec & _ & Henc).
  assert (reachable (apply solved (right, 1%Z))) as Hr
    by (apply reachable_apply, reachable_solved).
  split; [exact Hr |]. split.
  - apply (Hdec _ Hr).
  - apply (Henc 40319%N). reflexivity.
Defined.

(** C4 as the specification words it, [decode(encode(s)) == s], fails: a
    quarter turn of the right face is not given back by any of the six
    decoders, and no decoder could do it, since the solved cube and the
    cube with its top face turned have the same corner-orientation
    coordinate. *)
Lemma coordinates_forget :
  reachable (apply solved (right, 1%Z))
  ∧ decode_co (encode_co (apply solved (right, 1%Z))) ≠ apply solved (right, 1%Z)
  ∧ decode_eo (encode_eo (apply solved (right, 1%Z))) ≠ apply solved (right, 1%Z)
  ∧ decode_slice (encode_slice (apply solved (right, 1%Z))) ≠ apply solved (right, 1%Z)
  ∧ decode_cp (encode_cp (apply solved (right, 1%Z))) ≠ apply solved (right, 1%Z)
  ∧ decode_ep8 (encode_ep8 (apply solved (right, 1%Z))) ≠ apply solved (right, 1%Z)
  ∧ decode_slice_perm (encode_slice_perm (apply solved (right, 1%Z)))
    ≠ apply solved (right, 1%Z)
  ∧ reachable (apply solved (top, 1%Z))
  ∧ apply solved (top, 1%Z) ≠ solved
  ∧ encode_co (apply solved (top, 1%Z)) = encode_co solved.
Proof.
  split; [apply reachable_apply, reachable_solved |].
  repeat (split; [by vm_compute |]).
  split; [apply reachable_apply, reachable_solved |].
  split; by vm_compute.
Qed.

End CoordFacts.

(** ** The pruning tables *)

Section NibbleFacts.
Import Prune.

Lemma below_enumerated_Z (n : nat) (z : Z) :
  0 ≤ z < Z.of_nat n → In z (map Z.of_nat (seq 0 n)).
Proof.
  intros Hz. apply in_map_iff. exists (Z.to_nat z).
  split; [lia |]. apply in_seq. lia.
Qed.

Lemma byte_check_all :
  forallb (λ b, forallb (byte_check b) (map Z.of_nat (seq 0 16)))
    (map Z.of_nat (seq 0 256)) = true.
Proof. by vm_compute. Qed.

Lemma byte_check_holds (b v : Z) :
  0 ≤ b < 256 → 0 ≤ v < 16 → byte_check b v = true.
Proof.
  intros Hb Hv.
  pose proof (proj1 (forallb_forall _ _) byte_check_all b
                (below_enumerated_Z 256 b Hb)) as Hrow.
  exact (proj1 (forallb_forall _ _) Hrow v (below_enumerated_Z 16 v Hv)).
Qed.

Lemma nth_bytes_ok t k : bytes_ok t → 0 ≤ nth k t 0 < 256.
Proof.
  intros Ht. destruct (decide (k < length t)%nat) as [Hk | Hk].
  - apply (proj1 (Forall_nth _ 0 _) Ht k). lia.
  - rewrite nth_overflow by lia. lia.
Qed.

Lemma nib_get_range t i : bytes_ok t → 0 ≤ nib_get t i < 16.
Proof.
  intros Ht. unfold nib_get.
  pose proof (byte_check_holds _ 0 (nth_bytes_ok t (i / 2) Ht) ltac:(lia)) as H.
  unfold byte_check in H. repeat (apply andb_true_iff in H as [H ?]).
  destruct (Nat.even i); lia.
Qed.

Lemma nib_set_ok t i v : bytes_ok t → 0 ≤ v < 16 → bytes_ok (nib_set t i v).
Proof.
  intros Ht Hv. unfold nib_set, bytes_ok.
  pose proof (byte_check_holds _ v (nth_bytes_ok t (i / 2) Ht) Hv) as H.
  unfold byte_check in H. repeat (apply andb_true_iff in H as [H ?]).
  destruct (decide (i / 2 < length t)%nat) as [Hi | Hi].
  - apply Forall_insert; [done |]. destruct (Nat.even i); lia.
  - rewrite list_insert_ge by lia. done.
Qed.

Lemma nib_set_length t i v : length (nib_set t i v) = length t.
Proof. apply length_insert. Qed.

Lemma nth_insert_eq (t : list Z) k x : (k < length t)%nat → nth k (<[k:=x]> t) 0 = x.
Proof. intros Hk. by rewrite nth_lookup, list_lookup_insert_eq. Qed.

Lemma nth_insert_ne (t : list Z) k k' x : k ≠ k' → nth k' (<[k:=x]> t) 0 = nth k' t 0.
Proof. intros Hk. by rewrite !nth_lookup, list_lookup_insert_ne. Qed.

Lemma nib_get_set_eq t i v :
  bytes_ok t → (i < 2 * length t)%nat → 0 ≤ v < 16 → nib_get (nib_set t i v) i = v.
Proof.
  intros Ht Hi Hv. unfold nib_get, nib_set.
  assert (i / 2 < length t)%nat as Hk by (apply Nat.Div0.div_lt_upper_bound; lia).
  rewrite nth_insert_eq by done.
  pose proof (byte_check_holds _ v (nth_bytes_ok t (i / 2) Ht) Hv) as H.
  unfold byte_check in H. repeat (apply andb_true_iff in H as [H ?]).
  destruct (Nat.even i); lia.
Qed.

Lemma same_byte_parity (i j : nat) :
  (i / 2 = j / 2)%nat → i ≠ j → Nat.even i = negb (Nat.even j).
Proof.
  intros Hk Hij.
  destruct (Nat.even i) eqn:Hi, (Nat.even j) eqn:Hj; try done; exfalso.
  - apply Nat.even_spec in Hi as [a ->], Hj as [b ->].
    rewrite !(Nat.mul_comm 2), !Nat.div_mul in Hk by done. lia.
  - rewrite <- Nat.negb_odd in Hi, Hj. apply negb_false_iff in Hi, Hj.
    apply Nat.odd_spec in Hi as [a ->], Hj as [b ->].
    rewrite !(Nat.mul_comm 2), !Nat.div_add_l in Hk by done. simpl in Hk. lia.
Qed.

Lemma nib_get_set_ne t i j v :
  bytes_ok t → i ≠ j → 0 ≤ v < 16 → nib_get (nib_set t i v) j = nib_get t j.
Proof.
  intros Ht Hij Hv. unfold nib_get, nib_set.
  destruct (decide (i / 2 = j / 2)%nat) as [Hk | Hk].
  - destruct (decide (i / 2 < length t)%nat) as [Hlen | Hlen].
    + rewrite (same_byte_parity i j Hk Hij), <- Hk, nth_insert_eq by done.
      pose proof (byte_check_holds _ v (nth_bytes_ok t (i / 2) Ht) Hv) as H.
      unfold byte_check in H. repeat (apply andb_true_iff in H as [H ?]).
      destruct (Nat.even j); cbn [negb]; lia.
    + rewrite list_insert_ge by lia. done.
  - by rewrite nth_insert_ne.
Qed.

Lemma nib_new_ok size : bytes_ok (nib_new size).
Proof. apply Forall_replicate. lia. Qed.

Lemma nib_new_length size : (size ≤ 2 * length (nib_new size))%nat.
Proof.
  unfold nib_new. rewrite length_replicate.
  pose proof (Nat.div_mod_eq (size + 1) 2).
  pose proof (Nat.mod_upper_bound (size + 1) 2). lia.
Qed.

Lemma nib_new_get size i : (i < size)%nat → nib_get (nib_new size) i = 15.
Proof.
  intros Hi. unfold nib_get, nib_new.
  rewrite nth_lookup, lookup_replicate_2.
  - by destruct (Nat.even i).
  - pose proof (nib_new_length size) as Hlen. unfold nib_new in Hlen.
    rewrite length_replicate in Hlen.
    apply Nat.Div0.div_lt_upper_bound. lia.
Qed.

End NibbleFacts.

Section FloodExamples.
Import Prune.

(** A ring of six coordinates, one step either way: three bytes hold the
    six distances, low nibble first. *)
Example flood_ring :
  build 6 [1; 5]%nat (λ c m, (c + m) mod 6)%nat 0 = [0x10; 0x32; 0x12].
Proof. by vm_compute. Qed.

(** A chain of twenty coordinates, one step to the right only: the
    depths past 14 stay at 0xF. *)
Example flood_chain :
  map (nib_get (build 20 [1]%nat (λ c m, Nat.min 19 (c + m)) 0)) (seq 0 20)
  = [0; 1; 2; 3; 4; 5; 6; 7; 8; 9; 10; 11; 12; 13; 14; 15; 15; 15; 15; 15].
Proof. by vm_compute. Qed.

End FloodExamples.

Section FloodFacts.
Import Prune.
Context {M : Type} (size : nat) (moves : list M) (next : nat → M → nat) (goal : nat).
Hypothesis goal_below : (goal < size)%nat.
Hypothesis next_below : ∀ c m, (c < size)%nat → In m moves → (next c m < size)%nat.

Lemma grows_refl d t : covers size t → grows size d t t.
Proof. intros Ht. split; [done |]. split; auto. Qed.

Lemma grows_trans d t1 t2 t3 :
  d < 14 → grows size d t1 t2 → grows size d t2 t3 → grows size d t1 t3.
Proof.
  intros Hd (_ & Hkeep12 & Hset12) (Hc3 & Hkeep23 & Hset23).
  split; [done |]. split.
  - intros c Hc Hne. rewrite <- (Hkeep12 c Hc Hne).
    apply Hkeep23; [done |]. by rewrite (Hkeep12 c Hc Hne).
  - intros c Hc H15. destruct (Hset12 c Hc H15) as [H2 | H2].
    + by apply Hset23.
    + right. rewrite <- H2. apply Hkeep23; [done | lia].
Qed.

Lemma sourced_refl d t : sourced size moves next d t t.
Proof. intros c _ H15 Hne. done. Qed.

Lemma sourced_trans d t1 t2 t3 :
  0 ≤ d < 14 → grows size d t1 t2 →
  sourced size moves next d t1 t2 → sourced size moves next d t2 t3 →
  sourced size moves next d t1 t3.
Proof.
  intros Hd (_ & Hkeep & Hset) H12 H23 c Hc H15 Hne.
  destruct (decide (nib_get t2 c = 15)) as [H2 | H2]; [| by apply H12].
  destruct (H23 c Hc H2 Hne) as (i & m & Hi & Hm & Hat & Hto).
  exists i, m. repeat split; try done.
  destruct (decide (nib_get t1 i = 15)) as [Hi15 | Hi15].
  - destruct (Hset i Hi Hi15); lia.
  - by rewrite <- (Hkeep i Hi Hi15).
Qed.

Lemma grows_set d t1 t2 c :
  d < 14 → grows size d t1 t2 → (c < size)%nat →
  nib_get t1 c ≠ 15 → nib_get t2 c ≠ 15.
Proof. intros Hd (_ & Hkeep & _) Hc Hne. by rewrite (Hkeep c Hc Hne). Qed.

(** One [relax] step. *)
Lemma relax_grows d i acc m :
  0 ≤ d < 14 → covers size acc.1 → (next i m < size)%nat →
  grows size d acc.1 (relax next d i acc m).1
  ∧ nib_get (relax next d i acc m).1 (next i m) ≠ 15
  ∧ ((relax next d i acc m).2 = false → relax next d i acc m = acc).
Proof.
  intros Hd [Hok Hlen] Hj. unfold relax.
  destruct (nib_get acc.1 (next i m) =? 15) eqn:Hfree.
  - apply Z.eqb_eq in Hfree. cbn [fst snd].
    split; [| split; [| done]].
    + split; [| split].
      * split; [apply nib_set_ok; [done | lia] | by rewrite nib_set_length].
      * intros c Hc Hne. apply nib_get_set_ne; [done | | lia].
        intros <-. done.
      * intros c Hc H15. destruct (decide (c = next i m)) as [-> | Hne].
        -- right. apply nib_get_set_eq; [done | lia | lia].
        -- left. rewrite nib_get_set_ne; [done | done | by intros <- | lia].
    + rewrite nib_get_set_eq; [lia | done | lia | lia].
  - apply Z.eqb_neq in Hfree.
    split; [by apply grows_refl | done].
Qed.

Lemma fold_relax d i ms : ∀ acc,
  0 ≤ d < 14 → covers size acc.1 → (i < size)%nat → (∀ m, In m ms → In m moves) →
  grows size d acc.1 (fold_left (relax next d i) ms acc).1
  ∧ (∀ m, In m ms → nib_get (fold_left (relax next d i) ms acc).1 (next i m) ≠ 15)
  ∧ ((fold_left (relax next d i) ms acc).2 = false →
     fold_left (relax next d i) ms acc = acc).
Proof.
  induction ms as [| m ms IH]; intros acc Hd Hacc Hi Hms; simpl.
  { split; [by apply grows_refl |]. split; [intros ? [] | done]. }
  assert (next i m < size)%nat as Hj by (apply next_below; [done | apply Hms; by left]).
  destruct (relax_grows d i acc m Hd Hacc Hj) as (Hg1 & Hset & Hsame).
  destruct (IH (relax next d i acc m) Hd (proj1 Hg1) Hi) as (Hg2 & Hrest & Hsame').
  { intros m' Hm'. apply Hms. by right. }
  split; [by eapply grows_trans; [lia | ..] |]. split.
  - intros m' [<- | Hm']; [| by apply Hrest].
    eapply grows_set; [| exact Hg2 | done | done]. lia.
  - intros Hno. rewrite (Hsame' Hno). apply Hsame. by rewrite <- (Hsame' Hno).
Qed.

Lemma fold_scan d ids : ∀ acc,
  0 ≤ d < 14 → covers size acc.1 → (∀ i, In i ids → (i < size)%nat) →
  grows size d acc.1 (fold_left (scan moves next d) ids acc).1
  ∧ (∀ i m, In i ids → In m moves → nib_get acc.1 i = d →
       nib_get (fold_left (scan moves next d) ids acc).1 (next i m) ≠ 15)
  ∧ ((fold_left (scan moves next d) ids acc).2 = false →
     fold_left (scan moves next d) ids acc = acc).
Proof.
  induction ids as [| i ids IH]; intros acc Hd Hacc His; simpl.
  { split; [by apply grows_refl |]. split; [intros ? ? [] | done]. }
  assert (i < size)%nat as Hi by (apply His; by left).
  assert (grows size d acc.1 (scan moves next d acc i).1
          ∧ (∀ m, In m moves → nib_get acc.1 i = d →
               nib_get (scan moves next d acc i).1 (next i m) ≠ 15)
          ∧ ((scan moves next d acc i).2 = false → scan moves next d acc i = acc))
    as (Hg1 & Hset & Hsame).
  { unfold scan. destruct (nib_get acc.1 i =? d) eqn:Hat.
    - destruct (fold_relax d i moves acc Hd Hacc Hi) as (Hg & Hs & He); [done |].
      split; [done |]. split; [| done]. intros m Hm _. by apply Hs.
    - apply Z.eqb_neq in Hat. split; [by apply grows_refl |]. split; done. }
  destruct (IH (scan moves next d acc i) Hd (proj1 Hg1)) as (Hg2 & Hrest & Hsame').
  { intros i' Hi'. apply His. by right. }
  split; [by eapply grows_trans; [lia | ..] |]. split.
  - intros i' m [<- | Hi'] Hm Hat.
    + eapply grows_set; [| exact Hg2 | by apply next_below | by apply Hset]. lia.
    + apply Hrest; [done | done |].
      destruct Hg1 as (_ & Hkeep & _). rewrite Hkeep; [done | by apply His; right | lia].
  - intros Hno. rewrite (Hsame' Hno). apply Hsame. by rewrite <- (Hsame' Hno).
Qed.

Lemma relax_sourced d i acc m :
  0 ≤ d < 14 → covers size acc.1 → (i < size)%nat → In m moves →
  nib_get acc.1 i = d →
  sourced size moves next d acc.1 (relax next d i acc m).1.
Proof.
  intros Hd [Hok _] Hi Hm Hat. unfold relax.
  destruct (nib_get acc.1 (next i m) =? 15) eqn:Hfree; [| apply sourced_refl].
  cbn [fst]. intros c Hc H15 Hne.
  destruct (decide (c = next i m)) as [-> | Hother]; [by exists i, m |].
  exfalso. apply Hne. rewrite nib_get_set_ne; [done | done | done | lia].
Qed.

Lemma fold_relax_sourced d i ms : ∀ acc,
  0 ≤ d < 14 → covers size acc.1 → (i < size)%nat → (∀ m, In m ms → In m moves) →
  nib_get acc.1 i = d →
  sourced size moves next d acc.1 (fold_left (relax next d i) ms acc).1.
Proof.
  induction ms as [| m ms IH]; intros acc Hd Hacc Hi Hms Hat; simpl.
  { apply sourced_refl. }
  assert (In m moves) as Hm by (apply Hms; by left).
  destruct (relax_grows d i acc m Hd Hacc (next_below i m Hi Hm)) as (Hg & _ & _).
  eapply sourced_trans; [done | exact Hg | by apply relax_sourced |].
  apply IH; [done | apply Hg | done | |].
  - intros m' Hm'. apply Hms. by right.
  - destruct Hg as (_ & Hkeep & _). rewrite Hkeep; [done | done | lia].
Qed.

Lemma fold_scan_sourced d ids : ∀ acc,
  0 ≤ d < 14 → covers size acc.1 → (∀ i, In i ids → (i < size)%nat) →
  sourced size moves next d acc.1 (fold_left (scan moves next d) ids acc).1.
Proof.
  induction ids as [| i ids IH]; intros acc Hd Hacc Hids; simpl.
  { apply sourced_refl. }
  assert (i < size)%nat as Hi by (apply Hids; by left).
  assert (grows size d acc.1 (scan moves next d acc i).1
          ∧ sourced size moves next d acc.1 (scan moves next d acc i).1) as [Hg Hs].
  { unfold scan. destruct (nib_get acc.1 i =? d) eqn:Hat.
    - apply Z.eqb_eq in Hat. split.
      + by apply fold_relax.
      + by apply fold_relax_sourced.
    - split; [by apply grows_refl | apply sourced_refl]. }
  eapply sourced_trans; [done | exact Hg | exact Hs |].
  apply IH; [done | apply Hg |]. intros i' Hi'. apply Hids. by right.
Qed.

(** One pass turns the table for depth [d] into the table for depth
    [d + 1], and changes nothing when it reports no update. *)
Lemma pass_flooded d t :
  0 ≤ d < 14 → flooded size moves next goal d t →
  flooded size moves next goal (d + 1) (pass size moves next d t).1
  ∧ ((pass size moves next d t).2 = false → (pass size moves next d t).1 = t).
Proof.
  intros Hd (Hcov & Hgoal & Hmax & Hclosed). unfold pass.
  destruct (fold_scan d (seq 0 size) (t, false) Hd Hcov) as (Hg & Hset & Hsame).
  { intros i Hi. apply in_seq in Hi. lia. }
  set (acc := fold_left (scan moves next d) (seq 0 size) (t, false)) in *.
  cbn [fst] in Hg, Hset. destruct Hg as (Hcov' & Hkeep & Hnew).
  split; [| intros Hno; by rewrite (Hsame Hno)].
  split; [done |]. split; [| split].
  - rewrite Hkeep; [done | done | lia].
  - intros c Hc. destruct (decide (nib_get t c = 15)) as [H15 | H15].
    + destruct (Hnew c Hc H15); [by right | left; lia].
    + rewrite (Hkeep c Hc H15). destruct (Hmax c Hc); [left; lia | done].
  - intros c m Hc Hm Hlow.
    assert (nib_get t c ≠ 15) as H15.
    { intros H15. destruct (Hnew c Hc H15); lia. }
    rewrite (Hkeep c Hc H15) in *.
    pose proof (next_below c m Hc Hm) as Hj.
    destruct (decide (nib_get t c = d)) as [Hat | Hbelow].
    + assert (nib_get acc.1 (next c m) ≠ 15) as Hdone.
      { apply Hset; [apply in_seq; lia | done | done]. }
      destruct (decide (nib_get t (next c m) = 15)) as [Hj15 | Hj15].
      * destruct (Hnew _ Hj Hj15); [done | lia].
      * rewrite (Hkeep _ Hj Hj15). destruct (Hmax _ Hj); [lia | done].
    + assert (nib_get t (next c m) ≤ nib_get t c + 1) as Hle
        by (apply Hclosed; [done | done | lia]).
      rewrite Hkeep; [done | done | lia].
Qed.

(** The table the builder returns: as [flooded], with the last depth, 14,
    for every entry. *)
Lemma flood_closed passes : ∀ d t,
  0 ≤ d → d + Z.of_nat passes = 14 → flooded size moves next goal d t →
  flooded size moves next goal 14 (flood size moves next passes d t).
Proof.
  induction passes as [| passes IH]; intros d t Hd Hsum Ht; simpl.
  { by replace 14 with d by lia. }
  destruct (pass_flooded d t ltac:(lia) Ht) as [Hnext Hsame].
  destruct (pass size moves next d t) as [t' updated]. cbn [fst snd] in *.
  destruct updated.
  - apply IH; [lia | lia | done].
  - rewrite (Hsame eq_refl) in *.
    destruct Ht as (Hcov & Hgoal & Hmax & _).
    destruct Hnext as (_ & _ & _ & Hclosed).
    split; [done |]. split; [done |]. split.
    + intros c Hc. destruct (Hmax c Hc); [left; lia | by right].
    + intros c m Hc Hm Hlow. apply Hclosed; [done | done |].
      destruct (Hmax c Hc); lia.
Qed.

Lemma start_flooded :
  flooded size moves next goal 0 (nib_set (nib_new size) goal 0).
Proof.
  pose proof (nib_new_ok size) as Hok. pose proof (nib_new_length size) as Hlen.
  assert (covers size (nib_set (nib_new size) goal 0)) as Hcov.
  { split; [apply nib_set_ok; [done | lia] | by rewrite nib_set_length]. }
  split; [done |]. split; [| split].
  - apply nib_get_set_eq; [done | lia | lia].
  - intros c Hc. destruct (decide (c = goal)) as [-> | Hne].
    + left. rewrite nib_get_set_eq; [lia | done | lia | lia].
    + right. rewrite nib_get_set_ne; [by apply nib_new_get | done | done | lia].
  - intros c m Hc Hm Hlow.
    pose proof (nib_get_range _ c (proj1 Hcov)). lia.
Qed.

Lemma build_flooded : flooded size moves next goal 14 (build size moves next goal).
Proof. apply (flood_closed 14 0); [lia | lia | apply start_flooded]. Qed.

Hypothesis moves_undone :
  ∀ c m, (c < size)%nat → In m moves → ∃ m', In m' moves ∧ next (next c m) m' = c.

(** Admissibility: the entry of a coordinate is at most the length of any
    sequence of moves that takes the coordinate to the goal. *)
Lemma build_below c n :
  (c < size)%nat → reaches_goal moves next goal c n →
  nib_get (build size moves next goal) c ≤ Z.of_nat n.
Proof.
  destruct build_flooded as ((Hok & _) & Hgoal & _ & Hclosed).
  intros Hc Hpath. induction Hpath as [| c m n Hm _ IH]; [lia |].
  pose proof (next_below c m Hc Hm) as Hj. specialize (IH Hj).
  destruct (moves_undone c m Hc Hm) as (m' & Hm' & Hback).
  destruct (decide (nib_get (build size moves next goal) (next c m) < 14)) as [Hlow | Hhigh].
  - pose proof (Hclosed (next c m) m' Hj Hm' Hlow) as Hstep.
    rewrite Hback in Hstep. lia.
  - pose proof (nib_get_range _ c Hok). lia.
Qed.

Lemma pass_attained d t :
  0 ≤ d < 14 → flooded size moves next goal d t →
  attained size moves next goal t →
  attained size moves next goal (pass size moves next d t).1.
Proof.
  intros Hd (Hcov & _ & _ & _) Hatt. unfold pass.
  assert (∀ i, In i (seq 0 size) → (i < size)%nat) as Hids
    by (intros i Hi; apply in_seq in Hi; lia).
  destruct (fold_scan d (seq 0 size) (t, false) Hd Hcov Hids) as ((_ & Hkeep & Hnew) & _ & _).
  pose proof (fold_scan_sourced d (seq 0 size) (t, false) Hd Hcov Hids) as Hsrc.
  cbn [fst] in *. intros c Hc Hset.
  destruct (decide (nib_get t c = 15)) as [H15 | H15].
  - destruct (Hnew c Hc H15) as [? | Hval]; [done |]. rewrite Hval.
    destruct (Hsrc c Hc H15 Hset) as (i & m & Hi & Hm & Hat & <-).
    destruct (moves_undone i m Hi Hm) as (m' & Hm' & Hback).
    replace (Z.to_nat (d + 1)) with (S (Z.to_nat d)) by lia.
    apply (one_more _ _ _ _ m'); [done |]. rewrite Hback, <- Hat.
    apply Hatt; [done | lia].
  - rewrite (Hkeep c Hc H15). by apply Hatt.
Qed.

Lemma flood_attained passes : ∀ d t,
  0 ≤ d → d + Z.of_nat passes = 14 → flooded size moves next goal d t →
  attained size moves next goal t →
  attained size moves next goal (flood size moves next passes d t).
Proof.
  induction passes as [| passes IH]; intros d t Hd Hsum Ht Hatt; simpl; [done |].
  destruct (pass_flooded d t ltac:(lia) Ht) as [Hnext Hsame].
  pose proof (pass_attained d t ltac:(lia) Ht Hatt) as Hatt'.
  destruct (pass size moves next d t) as [t' updated]. cbn [fst snd] in *.
  destruct updated; [| done]. apply IH; [lia | lia | done | done].
Qed.

Lemma start_attained :
  attained size moves next goal (nib_set (nib_new size) goal 0).
Proof.
  pose proof (nib_new_ok size) as Hok. pose proof (nib_new_length size) as Hlen.
  intros c Hc Hset. destruct (decide (c = goal)) as [-> | Hne].
  - rewrite nib_get_set_eq; [constructor | done | lia | lia].
  - rewrite nib_get_set_ne in Hset; [| done | done | lia].
    by rewrite nib_new_get in Hset.
Qed.

Lemma build_attained : attained size moves next goal (build size moves next goal).
Proof.
  apply (flood_attained 14 0); [lia | lia | apply start_flooded | apply start_attained].
Qed.

(** C3. For a move table [next] that stays inside the coordinate's range
    and whose moves can be undone by moves, every entry of the table the
    builder returns is an admissible lower bound: an entry below 15 is at
    most the length of any sequence of moves that takes its coordinate to
    the goal, and an entry equal to 15 (0xF) stands on a coordinate that
    no sequence of fewer than 15 moves takes to the goal.  An entry below
    15 is moreover attained: it is the true distance. *)
Theorem pruning_table_admissible (c : nat) :
  (c < size)%nat →
  (∀ n, reaches_goal moves next goal c n →
     (nib_get (build size moves next goal) c < 15 →
      nib_get (build size moves next goal) c ≤ Z.of_nat n)
     ∧ (nib_get (build size moves next goal) c = 15 → 15 ≤ Z.of_nat n))
  ∧ (nib_get (build size moves next goal) c < 15 →
     reaches_goal moves next goal c
       (Z.to_nat (nib_get (build size moves next goal) c))).
Proof.
  intros Hc. split.
  - intros n Hn. pose proof (build_below c n Hc Hn). lia.
  - intros Hlow. apply build_attained; [done | lia].
Qed.

End FloodFacts.

(** The move table of the corner-orientation coordinate meets what the
    builder asks of a move table. *)
Section TableFacts.
Import Viewer Cube Coord Prune Tables.
Local Open Scope nat_scope.

Lemma quarter_co_ext f s s' : co s = co s' → co (quarter f s) = co (quarter f s').
Proof. intros Hco. unfold quarter, compose. cbn [co]. by rewrite Hco. Qed.

(** The twists after a move depend on the twists before it only. *)
Lemma apply_co_ext m s s' : co s = co s' → co (apply s m) = co (apply s' m).
Proof.
  intros Hco. unfold apply, rotate.
  induction (Z.to_nat (m.2 mod 4)%Z) as [| n IH]; simpl; [done |].
  by apply quarter_co_ext.
Qed.

Lemma with_closing_sum b ds : 0 < b → sum_list (with_closing b ds) mod b = 0.
Proof.
  intros Hb. unfold with_closing. rewrite sum_list_snoc.
  rewrite <- Nat.Div0.add_mod_idemp_l.
  pose proof (Nat.mod_upper_bound (sum_list ds) b ltac:(lia)) as Hr.
  set (r := sum_list ds mod b) in *.
  destruct (decide (r = 0)) as [-> | Hne].
  - rewrite Nat.sub_0_r, Nat.Div0.mod_same. simpl. by apply Nat.Div0.mod_0_l.
  - rewrite (Nat.mod_small (b - r)) by lia.
    replace (r + (b - r)) with b by lia. apply Nat.Div0.mod_same.
Qed.

Lemma decode_co_coherent c : coherent (decode_co c).
Proof.
  destruct solved_coherent as [[Hcp _ Hep Heo _ Hf] Pcp Pep _ Seo].
  split; [split | ..]; cbn [cp co ep eo decode_co]; try done.
  - unfold twists_of, with_closing. apply Forall_app. split.
    + eapply Forall_impl; [apply (to_digits_below 3 7); lia |]. simpl. lia.
    + constructor; [| constructor]. apply Nat.mod_upper_bound. lia.
  - apply with_closing_sum. lia.
Qed.

Lemma apply_coherent s m : coherent s → coherent (apply s m).
Proof.
  intros Hs. unfold apply, rotate.
  induction (Z.to_nat (m.2 mod 4)%Z) as [| n IH]; simpl; [done |].
  by apply quarter_coherent.
Qed.

Lemma co_next_below c m : co_next c m < 2187.
Proof.
  unfold co_next.
  pose proof (coordinates_below _ (apply_coherent _ m (decode_co_coherent (N.of_nat c))))
    as [Hlt _].
  lia.
Qed.

Lemma co_next_undone c m :
  c < 2187 → co_next (co_next c m) (inverse m) = c.
Proof.
  intros Hc. unfold co_next at 1.
  pose proof (co_next_below c m) as Hlt. unfold co_next in Hlt |- *.
  set (s0 := decode_co (N.of_nat c)) in *.
  set (s1 := apply s0 m) in *.
  rewrite N2Nat.id.
  assert (coherent s0) as Hs0 by apply decode_co_coherent.
  assert (coherent s1) as Hs1 by by apply apply_coherent.
  assert (co (apply (decode_co (encode_co s1)) (inverse m)) = co s0) as Hback.
  { rewrite (apply_co_ext (inverse m) _ s1 (decode_encode_co s1 Hs1)).
    subst s1. destruct m as [f t]. unfold apply, inverse. simpl.
    rewrite rotate_inverse; [done | apply Hs0]. }
  unfold encode_co at 1. rewrite Hback. fold (encode_co s0).
  subst s0. rewrite encode_decode_co by lia. lia.
Qed.

Lemma inverse_in_all_moves m : In m all_moves → In (inverse m) all_moves.
Proof.
  intros Hm. apply list_elem_of_In in Hm. apply list_elem_of_In.
  revert m Hm. apply Forall_forall. by vm_compute; repeat constructor.
Qed.

Lemma pruning_table_admissible_witness :
  reaches_goal all_moves co_next 0 1236 1
  ∧ (nib_get co_table 1236 < 15 → nib_get co_table 1236 ≤ 1)%Z
  ∧ (nib_get co_table 1236 = 15 → 15 ≤ 1)%Z
  ∧ ((nib_get co_table 1236 < 15)%Z →
     reaches_goal all_moves co_next 0 1236 (Z.to_nat (nib_get co_table 1236))).
Proof.
  assert (reaches_goal all_moves co_next 0 1236 1) as Hpath.
  { apply (one_more _ _ _ _ (front, 3%Z)); [by vm_compute; auto 20 |].
    exact (at_goal all_moves co_next 0). }
  destruct (pruning_table_admissible 2187 all_moves co_next 0) with (c := 1236)
    as [Hbound Hatt].
  - lia.
  - intros c m _ _. apply co_next_below.
  - intros c m Hc Hm. exists (inverse m).
    split; [by apply inverse_in_all_moves | by apply co_next_undone].
  - lia.
  - destruct (Hbound 1 Hpath) as [Hlow Hcap]. done.
Defined.

End TableFacts.

(** ** The viewer on the core's cube *)

Section ShownFacts.
Import Viewer Callback Shown.

Example turning_half_way :
  @is_active core_platform (rotate_mgr (@update_rotate core_platform 0 500 turning)) = true
  ∧ rotate_deg (@update_rotate core_platform 0 500 turning) = 45%float
  ∧ rotate_vec (@update_rotate core_platform 0 500 turning) = 1%float
  ∧ rotate_mask (@update_rotate core_platform 0 500 turning) = (-1, 2, -1).
Proof. by vm_compute. Qed.

Example turning_done :
  @is_active core_platform (rotate_mgr (@update_rotate core_platform 0 1000 turning)) = false
  ∧ rotate_que (@update_rotate core_platform 0 1000 turning) = []
  ∧ cube (@update_rotate core_platform 0 1000 turning) = Cube.rotate front 3 Cube.solved.
Proof. by vm_compute. Qed.

Lemma update_rotate_frame_witness :
  (rotate_que (@update_rotate core_platform 0 500 turning) = rotate_que turning
   ∧ cube (@update_rotate core_platform 0 500 turning) = cube turning
   ∧ cube4 (@update_rotate core_platform 0 500 turning) = cube4 turning)
  ∧ (rotate_que (@update_rotate core_platform 0 1000 turning) = []
     ∧ cube (@update_rotate core_platform 0 1000 turning)
       = (if cube_size turning =? 3 then @cube_rotate core_platform front (-1) (cube turning)
          else cube turning)
     ∧ cube4 (@update_rotate core_platform 0 1000 turning)
       = (if cube_size turning =? 3 then cube4 turning
          else @cube4_rotate core_platform front 1 (-1) (cube4 turning))).
Proof.
  destruct (@update_rotate_frame core_platform) as (Hkeep & Hdone & _).
  split.
  - apply (Hkeep 0 500 turning). by vm_compute.
  - apply (Hdone 0 1000 turning front 1 (-1) []); by vm_compute.
Defined.

Lemma turn_count_reduced_keeping_sign_witness :
  cube (@run_frames core_platform [(0, 400); (0, 800); (0, 1200)] turning)
  = @cube_rotate core_platform front (cpp_rem (-1) 4) Cube.solved.
Proof.
  destruct (@turn_count_reduced_keeping_sign core_platform) as (_ & _ & _ & _ & Hplay).
  apply (Hplay front (-1) (@viewer_new core_platform)
           [(0, 400); (0, 800); (0, 1200)]); by vm_compute.
Defined.

(** C6, the count is not normalized when it is negative: [add_rotate]
    with -1 and with 3 (which is -1 mod 4) are not the same operation.
    They queue different counts, and half a second later the first shows
    a turn of 45 degrees in one sense, the second a turn of 135 degrees
    in the other. *)
Lemma negative_count_not_normalized :
  @add_rotate core_platform front (-1) (@viewer_new core_platform)
  ≠ @add_rotate core_platform front ((-1) mod 4) (@viewer_new core_platform)
  ∧ rotate_que (@add_rotate core_platform front (-1) (@viewer_new core_platform))
    = [(front, 1, -1)]
  ∧ rotate_que (@add_rotate core_platform front ((-1) mod 4) (@viewer_new core_platform))
    = [(front, 1, 3)]
  ∧ (let v := @update_rotate core_platform 0 500
                (@add_rotate core_platform front (-1) (@viewer_new core_platform)) in
     (rotate_deg v, rotate_vec v) = (45%float, 1%float))
  ∧ (let v := @update_rotate core_platform 0 500
                (@add_rotate core_platform front ((-1) mod 4) (@viewer_new core_platform)) in
     (rotate_deg v, rotate_vec v) = (135%float, (-1)%float)).
Proof.
  split; [| by vm_compute].
  intros Heq. apply (f_equal rotate_que) in Heq. vm_compute in Heq. discriminate.
Qed.

Example zooms_hit_both_ends :
  zoom_factor (zooms [infinity] (@viewer_new core_platform)) = zoom_hi
  ∧ zoom_factor (zooms [infinity; 0x1p-1074]%float (@viewer_new core_platform)) = zoom_lo.
Proof. by vm_compute. Qed.

Lemma zoom_factor_in_range_witness :
  (zoom_lo <=? zoom_factor (zooms some_factors (@viewer_new core_platform)))%float = true
  ∧ (zoom_factor (zooms some_factors (@viewer_new core_platform)) <=? zoom_hi)%float
    = true.
Proof.
  destruct (@zoom_factor_in_range core_platform) as [_ Hrange].
  apply (Hrange some_factors). repeat constructor.
Defined.

(** A factor that is no number escapes the interval: positivity of the
    factors is what keeps a NaN out. *)
Example zoom_nan_escapes :
  (zoom_lo <=? zoom_factor (zoom nan (@viewer_new core_platform)))%float = false.
Proof. by vm_compute. Qed.

End ShownFacts.

(** ** The command line: more on the argument loop *)

Section CliMore.
Import Cli CommandLine.
Local Open Scope string_scope.
Local Open Scope Z_scope.

Lemma parse_args_app (pre : list string) : ∀ rest arg arg',
  parse_args pre arg = inr arg' →
  parse_args (pre ++ rest) arg = parse_args rest arg'.
Proof.
  induction pre as [pre IH] using (induction_ltof1 _ (@length string)).
  unfold ltof in IH. intros rest arg arg' Hpre.
  destruct pre as [| key [| value pre]]; simpl in *.
  - by injection Hpre as ->.
  - by destruct (_ || _).
  - destruct (_ || _); [done |].
    apply IH; [simpl; lia | done].
Qed.

Lemma is_key_dash c : is_key (dash c) = true.
Proof. reflexivity. Qed.

Lemma parse_args_key key value rest arg :
  is_key key = true →
  parse_args (key :: value :: rest) arg
  = parse_args rest (emplace (substring 1 (String.length key - 1) key) value arg).
Proof.
  unfold is_key. intros [Hl Hd]%andb_true_iff. simpl.
  by rewrite Hl, Hd.
Qed.

Lemma parse_args_dash c value rest arg :
  parse_args (dash c :: value :: rest) arg
  = parse_args rest (emplace (String c "") value arg).
Proof. reflexivity. Qed.

(** X1. An option that an earlier argument has already given is ignored
    together with its value, wherever it stands: [std::map::emplace]
    keeps the first value.  [pre] is any run of arguments the loop of
    [main] reads without error. *)
Theorem repeated_option_ignored prog pre c v v' post arg :
  parse_args pre ∅ = inr arg → arg !! String c "" = Some v →
  main (prog :: pre ++ [dash c; v'] ++ post) = main (prog :: pre ++ post).
Proof.
  intros Hpre Hc. unfold main. simpl tail.
  rewrite !(parse_args_app pre _ ∅ arg) by done.
  simpl app. rewrite parse_args_dash. unfold emplace. by rewrite Hc.
Qed.

Lemma repeated_option_ignored_witness :
  main (["solver"; "-t"; "4"] ++ ["-t"; "8"] ++ ["-s"; "3"])
  = main (["solver"; "-t"; "4"] ++ ["-s"; "3"]).
Proof.
  apply (repeated_option_ignored "solver" ["-t"; "4"] "t" "4" "8" ["-s"; "3"] {["t" := "4"]});
    reflexivity.
Defined.

Lemma emplace_agree_off k k0 v0 m1 m2 :
  agree_off k m1 m2 → agree_off k (emplace k0 v0 m1) (emplace k0 v0 m2).
Proof.
  intros Hag k' Hk'. unfold emplace.
  destruct (decide (k0 = k)) as [-> | Hne].
  - destruct (m1 !! k), (m2 !! k); rewrite ?lookup_insert_ne by done; by apply Hag.
  - rewrite (Hag k0 Hne). destruct (m2 !! k0) eqn:H0; [by apply Hag |].
    destruct (decide (k' = k0)) as [-> | Hne'].
    + by rewrite !lookup_insert_eq.
    + rewrite !lookup_insert_ne by done. by apply Hag.
Qed.

Lemma parse_args_agree_off k (args : list string) : ∀ m1 m2,
  agree_off k m1 m2 →
  match parse_args args m1, parse_args args m2 with
  | inl e1, inl e2 => e1 = e2
  | inr a1, inr a2 => agree_off k a1 a2
  | _, _ => False
  end.
Proof.
  induction args as [args IH] using (induction_ltof1 _ (@length string)).
  unfold ltof in IH. intros m1 m2 Hag.
  destruct args as [| key [| value args]]; simpl.
  - done.
  - by destruct (_ || _).
  - destruct (_ || _); [done |].
    apply IH; [simpl; lia |]. by apply emplace_agree_off.
Qed.

Lemma configure_agree_off k m1 m2 :
  k ≠ "a" → k ≠ "t" → k ≠ "s" → agree_off k m1 m2 → configure m1 = configure m2.
Proof.
  intros Ha Ht Hs Hag. unfold configure, int_option.
  by rewrite !(Hag "a"), !(Hag "t"), !(Hag "s") by done.
Qed.

(** X2. An option whose name is not [a], [t] or [s] is ignored together
    with its value, wherever it stands between two pairs of the command
    line: [main] stores it and never reads it. *)
Theorem unknown_option_ignored prog pre c v post arg :
  parse_args pre ∅ = inr arg →
  c ≠ "a"%char → c ≠ "t"%char → c ≠ "s"%char →
  main (prog :: pre ++ [dash c; v] ++ post) = main (prog :: pre ++ post).
Proof.
  intros Hpre Ha Ht Hs. unfold main. simpl tail.
  rewrite !(parse_args_app pre _ ∅ arg) by done.
  simpl app. rewrite parse_args_dash.
  assert (agree_off (String c "") (emplace (String c "") v arg) arg) as Hag.
  { intros k' Hk'. unfold emplace. destruct (arg !! String c ""); [done |].
    by rewrite lookup_insert_ne. }
  pose proof (parse_args_agree_off _ post _ _ Hag) as Hp.
  destruct (parse_args post (emplace _ _ _)), (parse_args post arg); try done.
  - by subst.
  - eapply configure_agree_off; [| | | exact Hp]; congruence.
Qed.

Lemma unknown_option_ignored_witness :
  main (["solver"; "-t"; "4"] ++ ["-r"; "8"] ++ ["-s"; "3"])
  = main (["solver"; "-t"; "4"] ++ ["-s"; "3"]).
Proof.
  apply (unknown_option_ignored "solver" ["-t"; "4"] "r" "8" ["-s"; "3"] {["t" := "4"]});
    done.
Defined.


Lemma strip_sign_eq (s : string) :
  strip_sign s
  = match s with
    | String "-"%char r => (true, r)
    | String "+"%char r => (false, r)
    | _ => (false, s)
    end.
Proof.
  destruct s as [| [[] [] [] [] [] [] [] []] r]; reflexivity.
Qed.

Lemma stoi_unfold (s : string) :
  stoi s
  = let '(neg, s2) := strip_sign (skip_space s) in
    if starts_with_digit s2 then
      let v := read_digits s2 0 in
      let v := if neg : bool then - v else v in
      if (INT_MIN <=? v) && (v <=? INT_MAX) then inr v else inl out_of_range
    else inl invalid_argument.
Proof. unfold stoi. by rewrite strip_sign_eq. Qed.

Lemma skip_space_app (s junk : string) :
  skip_space s ≠ "" → skip_space (s ++ junk) = skip_space s ++ junk.
Proof.
  induction s as [| c r IH]; simpl; [done |].
  destruct (isspace c); [done |]. done.
Qed.

Lemma read_digits_app (s junk : string) : ∀ acc,
  starts_with_digit junk = false → read_digits (s ++ junk) acc = read_digits s acc.
Proof.
  induction s as [| c r IH]; intros acc Hj; simpl.
  - destruct junk as [| c r]; [done |]. simpl in *.
    destruct (digit_of c); [| done].
    by rewrite bool_decide_eq_false in Hj; destruct Hj.
  - destruct (digit_of c); [by apply IH | done].
Qed.

Lemma starts_with_digit_app (s junk : string) :
  starts_with_digit s = true → starts_with_digit (s ++ junk) = true.
Proof. by destruct s. Qed.

Lemma strip_sign_app (s junk : string) :
  s ≠ "" →
  strip_sign (s ++ junk) = (fst (strip_sign s), snd (strip_sign s) ++ junk).
Proof.
  destruct s as [| c r]; [done |]. intros _. simpl.
  destruct (bool_decide (c = "-"%char)); [done |].
  by destruct (bool_decide (c = "+"%char)).
Qed.

(** What follows the digits does not count for [std::stoi]. *)
Lemma stoi_app (s junk : string) :
  stoi s ≠ inl invalid_argument → starts_with_digit junk = false →
  stoi (s ++ junk) = stoi s.
Proof.
  rewrite !stoi_unfold. intros Hs Hj.
  destruct (skip_space s) as [| c r] eqn:Hsp; [done |].
  rewrite skip_space_app by (by rewrite Hsp). rewrite Hsp.
  rewrite strip_sign_app by done.
  destruct (strip_sign (String c r)) as [neg s2]. simpl fst. simpl snd.
  destruct (starts_with_digit s2) eqn:Hd; [| done].
  rewrite (starts_with_digit_app _ _ Hd). by rewrite read_digits_app.
Qed.

Lemma lookup_emplace k0 v0 m k :
  emplace k0 v0 m !! k
  = if decide (k = k0) then Some (default v0 (m !! k0)) else m !! k.
Proof.
  unfold emplace. destruct (decide (k = k0)) as [-> | Hne].
  - destruct (m !! k0) eqn:H0; simpl; [done | by rewrite lookup_insert_eq].
  - destruct (m !! k0); [done | by rewrite lookup_insert_ne].
Qed.

Lemma emplace_same_numbers k0 v0 m1 m2 :
  same_numbers m1 m2 → same_numbers (emplace k0 v0 m1) (emplace k0 v0 m2).
Proof.
  intros Hs k. rewrite !lookup_emplace.
  destruct (decide (k = k0)) as [-> | Hne]; [| apply Hs].
  destruct (Hs k0) as [-> | (Ha & v1 & v2 & -> & -> & Hv)]; [by left |].
  right. split; [done |]. by exists v1, v2.
Qed.

Lemma parse_args_same_numbers (args : list string) : ∀ m1 m2,
  same_numbers m1 m2 →
  match parse_args args m1, parse_args args m2 with
  | inl e1, inl e2 => e1 = e2
  | inr a1, inr a2 => same_numbers a1 a2
  | _, _ => False
  end.
Proof.
  induction args as [args IH] using (induction_ltof1 _ (@length string)).
  unfold ltof in IH. intros m1 m2 Hag.
  destruct args as [| key [| value args]]; simpl.
  - done.
  - by destruct (_ || _).
  - destruct (_ || _); [done |].
    apply IH; [simpl; lia |]. by apply emplace_same_numbers.
Qed.

Lemma int_option_same_numbers m1 m2 k d :
  same_numbers m1 m2 → int_option m1 k d = int_option m2 k d.
Proof.
  intros Hs. unfold int_option.
  by destruct (Hs k) as [-> | (_ & v1 & v2 & -> & -> & Hv)].
Qed.

Lemma configure_same_numbers m1 m2 :
  same_numbers m1 m2 → configure m1 = configure m2.
Proof.
  intros Hs. unfold configure.
  rewrite !(int_option_same_numbers m1 m2) by done.
  by destruct (Hs "a") as [-> | (Ha & _)].
Qed.

(** X3. What follows the digits in the value of an option other than
    [-a] does not count: [std::stoi] stops at the first character that
    is no digit, and [main] never looks at the rest.  The value [v] is
    one in which [std::stoi] finds a number (in range or not), and [junk]
    does not start with a digit. *)
Theorem trailing_text_ignored prog pre c v junk post arg :
  parse_args pre ∅ = inr arg → c ≠ "a"%char →
  stoi v ≠ inl invalid_argument → starts_with_digit junk = false →
  main (prog :: pre ++ [dash c; v ++ junk] ++ post)
  = main (prog :: pre ++ [dash c; v] ++ post).
Proof.
  intros Hpre Ha Hv Hj. unfold main. simpl tail.
  rewrite !(parse_args_app pre _ ∅ arg) by done.
  simpl app. rewrite !parse_args_dash.
  assert (same_numbers (emplace (String c "") (v ++ junk) arg)
                       (emplace (String c "") v arg)) as Hs.
  { intros k. rewrite !lookup_emplace.
    destruct (decide (k = String c "")) as [-> | Hne]; [| by left].
    destruct (arg !! String c ""); simpl; [by left |].
    right. split; [congruence |]. eexists _, _. split; [done |]. split; [done |].
    by apply stoi_app. }
  pose proof (parse_args_same_numbers post _ _ Hs) as Hp.
  destruct (parse_args post (emplace _ (v ++ junk) _)), (parse_args post (emplace _ v _));
    try done.
  - by subst.
  - by apply configure_same_numbers.
Qed.

Lemma trailing_text_ignored_witness :
  main (["solver"; "-a"; "krof"] ++ ["-t"; " +8" ++ " threads"] ++ ["-s"; "3"])
  = main (["solver"; "-a"; "krof"] ++ ["-t"; " +8"] ++ ["-s"; "3"]).
Proof.
  apply (trailing_text_ignored "solver" ["-a"; "krof"] "t" " +8" " threads"
           ["-s"; "3"] {["a" := "krof"]}); done.
Defined.

Lemma parse_args_pairs_ok (args : list string) : ∀ arg,
  (∃ arg', parse_args args arg = inr arg') ↔ pairs_ok args.
Proof.
  induction args as [args IH] using (induction_ltof1 _ (@length string)).
  unfold ltof in IH. intros arg.
  destruct args as [| key [| value args]].
  - split; [constructor | by eexists].
  - split.
    + simpl. intros [arg' Hp]. by destruct (_ || _).
    + inversion 1.
  - destruct (is_key key) eqn:Hk.
    + rewrite parse_args_key by done. rewrite IH by (simpl; lia).
      split; [by constructor | by inversion 1].
    + split.
      * intros [arg' Hp]. simpl in Hp. unfold is_key in Hk.
        destruct (String.length key =? 2)%nat; simpl in *; [| done].
        by rewrite Hk in Hp.
      * inversion 1; congruence.
Qed.

(** X4. The argument loop of [main] reads the command line to its end
    exactly when the arguments after the program's name are pairs of a
    key (a dash and one character) and a value; [main] then goes on with
    the options read.  Any other command line ends in [usage]. *)
Theorem command_line_accepted argv :
  pairs_ok (tail argv) ↔ ∃ arg, parse_args (tail argv) ∅ = inr arg ∧ main argv = configure arg.
Proof.
  rewrite <- (parse_args_pairs_ok (tail argv) ∅). unfold main. split.
  - intros [arg Hp]. exists arg. by rewrite Hp.
  - intros (arg & Hp & _). by exists arg.
Qed.

(** X5. The two errors of the argument loop, after arguments [pre] it
    has read without error: an argument in key position that is not a
    dash and one character ends in [usage()] with no message, whatever
    follows it; a key that is the last argument ends in [usage] with the
    message that names the key. *)
Theorem argument_loop_errors prog pre arg :
  parse_args pre ∅ = inr arg →
  (∀ key rest, is_key key = false → main (prog :: pre ++ key :: rest) = ExitUsage "")
  ∧ (∀ key, is_key key = true →
       main (prog :: pre ++ [key]) = ExitUsage ("missing value for option " ++ key)).
Proof.
  intros Hpre. split.
  - intros key rest Hk. unfold main. simpl tail.
    rewrite (parse_args_app pre _ ∅ arg) by done. simpl. unfold is_key in Hk.
    destruct (String.length key =? 2)%nat; simpl in *; [| done].
    by rewrite Hk.
  - intros key [Hl Hd]%andb_true_iff. unfold main. simpl tail.
    rewrite (parse_args_app pre _ ∅ arg) by done. simpl.
    by rewrite Hl, Hd.
Qed.

Lemma argument_loop_errors_witness :
  main ("solver" :: ["-t"; "4"] ++ "s" :: ["3"]) = ExitUsage ""
  ∧ main ("solver" :: ["-t"; "4"] ++ ["-s"])
    = ExitUsage ("missing value for option " ++ "-s").
Proof.
  destruct (argument_loop_errors "solver" ["-t"; "4"] {["t" := "4"]} eq_refl)
    as [Hbad Hlast].
  split; [by apply Hbad | by apply Hlast].
Defined.

End CliMore.

Section CliOrder.
Import Cli CommandLine.
Local Open Scope string_scope.
Local Open Scope Z_scope.

Lemma emplace_comm k1 v1 k2 v2 (arg : gmap string string) :
  k1 ≠ k2 → emplace k2 v2 (emplace k1 v1 arg) = emplace k1 v1 (emplace k2 v2 arg).
Proof.
  intros Hne. apply map_eq. intros k. rewrite !lookup_emplace.
  destruct (decide (k = k2)) as [Hk2 | Hk2], (decide (k = k1)) as [Hk1 | Hk1];
    subst; try done; by repeat case_decide.
Qed.

(** X20. The order of two neighbouring options with different names
    does not count: [main] ends the same way when the two pairs are
    swapped. *)
Theorem options_commute prog pre c1 v1 c2 v2 post arg :
  parse_args pre ∅ = inr arg → c1 ≠ c2 →
  main (prog :: pre ++ [dash c1; v1; dash c2; v2] ++ post)
  = main (prog :: pre ++ [dash c2; v2; dash c1; v1] ++ post).
Proof.
  intros Hpre Hne. unfold main. simpl tail.
  rewrite !(parse_args_app pre _ ∅ arg) by done.
  simpl app. rewrite !parse_args_dash.
  rewrite (emplace_comm (String c1 "") v1 (String c2 "") v2); [done | congruence].
Qed.

Lemma options_commute_witness :
  main ("solver" :: ["-a"; "krof"] ++ ["-t"; "4"; "-s"; "3"] ++ ["-t"; "9"])
  = main ("solver" :: ["-a"; "krof"] ++ ["-s"; "3"; "-t"; "4"] ++ ["-t"; "9"]).
Proof.
  apply (options_commute "solver" ["-a"; "krof"] "t" "4" "s" "3" ["-t"; "9"]
           {["a" := "krof"]}); done.
Defined.

End CliOrder.

(** ** The viewer: sessions *)

Section SessionFacts.
Import Viewer Session.
Context `{Platform}.

Lemma start_mask_one_layer f size depth vec :
  one_layer (fst (start_mask f size depth vec)).
Proof.
  destruct f; simpl; eexists; eauto.
Qed.

Lemma update_rotate_steady now_set now_get v :
  steady v → steady (update_rotate now_set now_get v).
Proof.
  intros (Hclear & Hque & Hone). unfold update_rotate.
  destruct (rotate_que v) as [| [[ftype depth] cnt] rest] eqn:Hq.
  { unfold steady. by rewrite Hq. }
  destruct (negb (is_active (rotate_mgr v))) eqn:Hact.
  - pose proof (start_mask_one_layer ftype (cube_size v) depth
                  (if cnt <? 0 then (-1)%float else 1%float)) as Hm.
    destruct (start_mask _ _ _ _) as [mask vec]. simpl in Hm.
    destruct (get now_get _) as [r mgr2].
    destruct (is_active mgr2) eqn:Hact2; unfold steady; simpl; rewrite ?Hact2, ?Hq.
    + done.
    + split; [done |]. split; [done |]. exists (-1). by left.
  - apply negb_false_iff in Hact.
    pose proof (get_active now_get (rotate_mgr v)) as Hg.
    destruct (get now_get _) as [r mgr2]. simpl in Hg.
    destruct (is_active mgr2) eqn:Hact2; unfold steady; simpl; rewrite ?Hact2, ?Hq.
    + done.
    + split; [done |]. split; [done |]. exists (-1). by left.
Qed.

Lemma perform_steady c v : steady v → steady (perform c v).
Proof.
  destruct c; simpl; try done.
  - intros (Hclear & Hque & Hone). repeat split; try done.
    intros Hact. simpl. by destruct (rotate_que v).
  - intros (Hclear & Hque & Hone). repeat split; try done.
    intros Hact. simpl. by destruct (rotate_que v).
  - apply update_rotate_steady.
Qed.

(** X6. Whatever calls a new viewer receives (interface calls, wheel
    events, frames), in any order: when no animation is running no layer
    is marked in [rotate_mask]; an animation is running only while a move
    is queued; and at most one axis has a layer marked. *)
Theorem animation_state_consistent (calls : list call) :
  let v := session calls viewer_new in
  (is_active (rotate_mgr v) = false → rotate_mask v = (-1, -1, -1))
  ∧ (is_active (rotate_mgr v) = true → rotate_que v ≠ [])
  ∧ one_layer (rotate_mask v).
Proof.
  assert (∀ v, steady v → steady (session calls v)) as Hs.
  { unfold session. induction calls as [| c calls IH]; intros v Hv; simpl; [done |].
    by apply IH, perform_steady. }
  apply Hs. split; [done |]. split; [done |]. exists (-1). by left.
Qed.

Lemma apply_queue_app size q1 q2 m :
  apply_queue size (q1 ++ q2) m = apply_queue size q2 (apply_queue size q1 m).
Proof.
  revert m. induction q1 as [| [[f d] c] q1 IH]; intros m; simpl; [done |].
  by rewrite IH.
Qed.

Lemma update_rotate_shown now_set now_get (v : viewer_gl) :
  cube_size (update_rotate now_set now_get v) = cube_size v
  ∧ shown_at_rest (update_rotate now_set now_get v) = shown_at_rest v.
Proof.
  unfold shown_at_rest.
  destruct (update_rotate_cases now_set now_get v)
    as (Hsz & [(Hq & Hc & Hc4 & _) | (e & q & Hv & Hq & Hm & _)]).
  - by rewrite Hsz, Hq, Hc, Hc4.
  - rewrite Hsz, Hq, Hm, Hv. by destruct e as [[f d] n].
Qed.

Lemma perform_shown c (v : viewer_gl) :
  sets_cube c = false →
  cube_size (perform c v) = cube_size v
  ∧ shown_at_rest (perform c v)
    = apply_queue (cube_size v) (queued [c]) (shown_at_rest v).
Proof.
  destruct c; simpl; try done; intros _.
  - split; [done |]. unfold shown_at_rest. simpl. by rewrite apply_queue_app.
  - split; [done |]. unfold shown_at_rest. simpl. by rewrite apply_queue_app.
  - apply update_rotate_shown.
Qed.

(** X7. Queued moves are neither lost nor played twice: after any calls
    that do not replace the model ([set_cube]), the models the viewer
    shows once its queue has been played are those it would have shown
    before the calls, with the moves the calls queued applied in call
    order.  Frames, however many and whenever they come, change nothing
    to that. *)
Theorem session_shown_at_rest (calls : list call) (v : viewer_gl) :
  Forall (λ c, sets_cube c = false) calls →
  shown_at_rest (session calls v)
  = apply_queue (cube_size v) (queued calls) (shown_at_rest v).
Proof.
  unfold session. revert v.
  induction calls as [| c calls IH]; intros v Hall; [done |].
  inversion Hall as [| ? ? Hc Hrest]; subst. simpl fold_left.
  rewrite IH by done.
  destruct (perform_shown c v Hc) as [-> ->].
  rewrite <- apply_queue_app. f_equal. by destruct c.
Qed.

End SessionFacts.

Section LateFrames.
Import Viewer Session.
Context `{Platform}.

(** A frame whose two clock readings are a full duration apart plays the
    front move at once. *)
Lemma update_rotate_late now_set now_get (v : viewer_gl) :
  is_active (rotate_mgr v) = false →
  (1 <=? seconds now_get now_set / rotate_duration v)%float = true →
  let v' := update_rotate now_set now_get v in
  rotate_que v' = drop 1 (rotate_que v)
  ∧ (cube v', cube4 v') = apply_queue (cube_size v) (take 1 (rotate_que v)) (cube v, cube4 v)
  ∧ is_active (rotate_mgr v') = false
  ∧ rotate_duration v' = rotate_duration v ∧ cube_size v' = cube_size v.
Proof.
  intros Hact Hlate. unfold update_rotate.
  destruct (rotate_que v) as [| [[ftype depth] cnt] rest] eqn:Hq.
  { simpl. by rewrite Hq. }
  rewrite Hact. simpl negb. cbv iota.
  destruct (start_mask _ _ _ _) as [mask vec].
  unfold get, set. simpl. rewrite Hlate. simpl.
  repeat split. by destruct (cube_size v =? 3).
Qed.

(** X21. Frames whose two clock readings are at least a full
    [rotate_duration] apart (the quotient the code computes is at least
    1.0) each play one whole move, from a viewer that is not animating:
    after such frames the queue has lost as many entries as there were
    frames, these entries have been applied in order, and no animation
    is left running. *)
Theorem late_frames_play_queue clock (v : viewer_gl) :
  is_active (rotate_mgr v) = false →
  Forall (λ t : time_point * time_point,
            (1 <=? seconds t.2 t.1 / rotate_duration v)%float = true) clock →
  rotate_que (run_frames clock v) = drop (length clock) (rotate_que v)
  ∧ (cube (run_frames clock v), cube4 (run_frames clock v))
    = apply_queue (cube_size v) (take (length clock) (rotate_que v)) (cube v, cube4 v)
  ∧ is_active (rotate_mgr (run_frames clock v)) = false.
Proof.
  revert v. induction clock as [| [now_set now_get] clock IH]; intros v Hact Hall.
  { simpl. by rewrite drop_0. }
  inversion Hall as [| ? ? Hlate Hrest]; subst. simpl in Hlate.
  destruct (update_rotate_late now_set now_get v Hact Hlate) as (Hq & Hm & Hact' & Hd & Hs).
  simpl run_frames.
  destruct (IH (update_rotate now_set now_get v) Hact') as (Hq' & Hm' & Hact'').
  { by rewrite Hd. }
  rewrite Hq', Hm', Hq, Hm, Hs. split; [| split; [| done]].
  - rewrite drop_drop. f_equal.
  - rewrite <- apply_queue_app. f_equal.
    destruct (rotate_que v) as [| e q]; simpl; [by rewrite take_nil |].
    by rewrite drop_0.
Qed.

End LateFrames.

(** ** The viewer: drawing *)

Section DrawFacts.
Import Viewer Draw.
Context `{Platform}.

Lemma drawn_under_app (t1 t2 : list gl_call) : ∀ cur saved,
  drawn_under (t1 ++ t2) cur saved
  = match drawn_under t1 cur saved with
    | Some (r1, (c1, s1)) =>
        match drawn_under t2 c1 s1 with
        | Some (r2, st) => Some (r1 ++ r2, st)
        | None => None
        end
    | None => None
    end.
Proof.
  induction t1 as [| c t1 IH]; intros cur saved; simpl.
  { by destruct (drawn_under t2 cur saved) as [[r2 st] |]. }
  destruct c; try apply IH.
  - destruct saved as [| m saved]; [done | apply IH].
  - rewrite IH. destruct (drawn_under t1 cur saved) as [[r1 [c1 s1]] |]; [| done].
    by destruct (drawn_under t2 c1 s1) as [[r2 st] |].
Qed.

Lemma draws_nil : draws [] (λ _, []).
Proof. done. Qed.

Lemma draws_app t1 t2 f1 f2 :
  draws t1 f1 → draws t2 f2 → draws (t1 ++ t2) (λ cur, f1 cur ++ f2 cur).
Proof.
  intros H1 H2 cur saved. by rewrite drawn_under_app, H1, H2.
Qed.

Lemma draws_ext t f g : (∀ cur, f cur = g cur) → draws t f → draws t g.
Proof. intros Hfg Hf cur saved. by rewrite Hf, Hfg. Qed.

Lemma draws_draw_block x y z s col mode :
  draws (draw_block x y z s col mode) (λ cur, replicate 6 cur).
Proof. done. Qed.

(** A guard around calls that leave the matrices as they found them. *)
Lemma draws_guard mask idx d ax ay az body f :
  draws body f →
  draws (rotate_guard mask idx d ax ay az ++ body ++ rotate_guard_end mask idx)
        (λ cur, f (cur ++ (if mask =? idx then [glRotatef d ax ay az] else []))).
Proof.
  intros Hb cur saved. unfold rotate_guard, rotate_guard_end.
  destruct (mask =? idx); simpl.
  - rewrite drawn_under_app, Hb. simpl. by rewrite app_nil_r.
  - by rewrite !app_nil_r, Hb.
Qed.

Lemma seqZ_S (m : Z) (n : nat) : seqZ m (Z.of_nat (S n)) = m :: seqZ (m + 1) (Z.of_nat n).
Proof.
  rewrite seqZ_cons by lia. f_equal. f_equal; lia.
Qed.

Lemma seqZ_to_nat (m n : Z) : seqZ m (Z.of_nat (Z.to_nat n)) = seqZ m n.
Proof. unfold seqZ. by rewrite Nat2Z.id. Qed.

Section Loops.
Context (getBlock : Z → Z → Z → block_t) (v : viewer_gl).

Lemma draws_loop_k (n : nat) : ∀ i j k x y z,
  draws (loop_k getBlock v n i j k x y z)
        (λ cur, k' ← seqZ k (Z.of_nat n);
                replicate 12 (cur ++ (if mask2 v =? k'
                                      then [glRotatef (deg v) (vec v) zero zero]
                                      else []))).
Proof.
  induction n as [| n IH]; intros i j k x y z.
  { apply draws_nil. }
  rewrite seqZ_S. cbn [loop_k].
  match goal with
  | |- draws (?g ++ ?b1 ++ ?b2 ++ ?ge ++ ?rest) _ =>
      replace (g ++ b1 ++ b2 ++ ge ++ rest) with ((g ++ (b1 ++ b2) ++ ge) ++ rest)
        by (by rewrite <- !app_assoc)
  end.
  eapply draws_ext; [| apply draws_app; [| apply IH]].
  2: { apply draws_guard. apply draws_app; apply draws_draw_block. }
  intros cur. done.
Qed.

Lemma draws_loop_j (n : nat) : ∀ i j y z,
  draws (loop_j getBlock v n i j y z)
        (λ cur, j' ← seqZ j (Z.of_nat n); k' ← indices v;
                replicate 12 (cur
                  ++ (if mask1 v =? j' then [glRotatef (deg v) zero zero (vec v)] else [])
                  ++ (if mask2 v =? k' then [glRotatef (deg v) (vec v) zero zero] else []))).
Proof.
  induction n as [| n IH]; intros i j y z.
  { apply draws_nil. }
  rewrite seqZ_S. cbn [loop_j].
  match goal with
  | |- draws (?g ++ ?body ++ ?ge ++ ?rest) _ =>
      replace (g ++ body ++ ge ++ rest) with ((g ++ body ++ ge) ++ rest)
        by (by rewrite <- !app_assoc)
  end.
  eapply draws_ext; [| apply draws_app; [| apply IH]].
  2: { apply draws_guard, draws_loop_k. }
  intros cur. rewrite bind_cons. unfold indices. rewrite seqZ_to_nat. f_equal.
  apply list_bind_ext; [| done]. intros k'. by rewrite <- app_assoc.
Qed.

Lemma draws_loop_i (n : nat) : ∀ i y,
  draws (loop_i getBlock v n i y)
        (λ cur, i' ← seqZ i (Z.of_nat n); j' ← indices v; k' ← indices v;
                replicate 12 (cur ++ turned v i' j' k')).
Proof.
  induction n as [| n IH]; intros i y.
  { apply draws_nil. }
  rewrite seqZ_S. cbn [loop_i].
  match goal with
  | |- draws (?g ++ ?body ++ ?ge ++ ?rest) _ =>
      replace (g ++ body ++ ge ++ rest) with ((g ++ body ++ ge) ++ rest)
        by (by rewrite <- !app_assoc)
  end.
  eapply draws_ext; [| apply draws_app; [| apply IH]].
  2: { apply draws_guard, draws_loop_j. }
  intros cur. rewrite bind_cons. unfold indices. rewrite seqZ_to_nat. f_equal.
  apply list_bind_ext; [| done]. intros j'.
  apply list_bind_ext; [| done]. intros k'.
  unfold turned. by rewrite <- !app_assoc.
Qed.

Lemma draws_draw_cube : draws (draw_cube getBlock v) (frame_matrices v).
Proof.
  intros cur saved. unfold draw_cube, camera. simpl.
  rewrite drawn_under_app, draws_loop_i. simpl.
  rewrite app_nil_r. unfold frame_matrices, indices. rewrite seqZ_to_nat.
  f_equal. f_equal.
  apply list_bind_ext; [| done]. intros i'.
  apply list_bind_ext; [| done]. intros j'.
  apply list_bind_ext; [| done]. intros k'.
  unfold camera. by rewrite <- !app_assoc.
Qed.

End Loops.

Lemma frame_matrices_length (v : viewer_gl) cur :
  length (frame_matrices v cur) = (12 * Z.to_nat (cube_size v) ^ 3)%nat.
Proof.
  unfold frame_matrices, indices.
  assert (∀ (l : list Z) (f : Z → list (list gl_call)) n,
            (∀ x, length (f x) = n) → length (l ≫= f) = (length l * n)%nat) as Hlen.
  { intros l f n Hf. induction l as [| x l IH]; [done |].
    rewrite bind_cons, length_app, IH, Hf. simpl. lia. }
  rewrite (Hlen _ _ (Z.to_nat (cube_size v) * (Z.to_nat (cube_size v) * 12))%nat).
  - rewrite length_seqZ. simpl. lia.
  - intros i. rewrite (Hlen _ _ (Z.to_nat (cube_size v) * 12)%nat).
    + by rewrite length_seqZ.
    + intros j. rewrite (Hlen _ _ 12%nat).
      * by rewrite length_seqZ.
      * intros k. by rewrite length_replicate.
Qed.

(** X24. What a frame draws.  The calls of [draw_cube] never pop an
    empty matrix stack and leave the current matrix and the stack as
    they found them; every primitive of the block [(i, j, k)] (six faces
    filled, six outlined) is drawn under the matrix before the frame
    with the camera transforms and, for each axis whose mask entry is
    the block's index, the turn of [rotate_deg] about that axis, and
    under nothing else; there are twelve primitives for each of the
    [cube_size] cubed blocks. *)
Theorem frame_drawn_under (getBlock : cube_t → Z → Z → Z → block_t)
    (getBlock4 : cube4_t → Z → Z → Z → block_t) (v : viewer_gl) cur saved :
  drawn_under (draw getBlock getBlock4 v) cur saved
  = Some (frame_matrices v cur, (cur, saved))
  ∧ length (frame_matrices v cur) = (12 * Z.to_nat (cube_size v) ^ 3)%nat.
Proof.
  split; [| apply frame_matrices_length].
  unfold draw. destruct (cube_size v =? 3); apply draws_draw_cube.
Qed.

End DrawFacts.

Section AnimationFacts.
Import Viewer Session Draw.
Context `{Platform}.

Lemma update_rotate_marks_front now_set now_get (v : viewer_gl) :
  marks_front v → marks_front (update_rotate now_set now_get v).
Proof.
  intros Hv. unfold update_rotate.
  destruct (rotate_que v) as [| [[ftype depth] cnt] rest] eqn:Hq.
  { exact Hv. }
  destruct (negb (is_active (rotate_mgr v))) eqn:Hact.
  - destruct (start_mask _ _ _ _) as [mask vec] eqn:Hm.
    destruct (get now_get _) as [r mgr2].
    destruct (is_active mgr2) eqn:Hact2; unfold marks_front; simpl; rewrite Hact2; [| done].
    intros _. exists ftype, depth, cnt, rest. by rewrite Hm.
  - apply negb_false_iff in Hact. destruct (Hv Hact) as (f & d & c & q & Hq' & Hm).
    rewrite Hq in Hq'. injection Hq' as <- <- <- <-.
    destruct (get now_get _) as [r mgr2].
    destruct (is_active mgr2) eqn:Hact2; unfold marks_front; simpl; rewrite Hact2; [| done].
    intros _. by exists ftype, depth, cnt, rest.
Qed.

Lemma perform_marks_front c (v : viewer_gl) :
  sets_cube c = false → marks_front v → marks_front (perform c v).
Proof.
  destruct c; simpl; try done; intros _ Hv.
  - intros Hact. destruct (Hv Hact) as (f' & d & c & q & Hq & Hm).
    exists f', d, c, (q ++ [(f, 1, cpp_rem cnt 4)]). simpl. by rewrite Hq.
  - intros Hact. destruct (Hv Hact) as (f' & d & c & q & Hq & Hm).
    exists f', d, c, (q ++ [(f, depth, cpp_rem cnt 4)]). simpl. by rewrite Hq.
  - by apply update_rotate_marks_front.
Qed.

(** X22. While an animation runs, it is that of the move at the front
    of the queue: [rotate_mask] and [rotate_vec] are what the [switch]
    of [update_rotate] gives for that move's face and depth and the sign
    of its count.  This holds after any calls that do not replace the
    model. *)
Theorem animation_marks_front_move (calls : list call) :
  Forall (λ c, sets_cube c = false) calls →
  let v := session calls viewer_new in
  is_active (rotate_mgr v) = true →
  ∃ f depth cnt rest,
    rotate_que v = (f, depth, cnt) :: rest
    ∧ (rotate_mask v, rotate_vec v)
      = start_mask f (cube_size v) depth (if cnt <? 0 then (-1)%float else 1%float).
Proof.
  intros Hall.
  assert (∀ v, marks_front v → marks_front (session calls v)) as Hs.
  { unfold session. induction calls as [| c calls IH]; intros v Hv; simpl; [done |].
    inversion Hall as [| ? ? Hc Hrest]; subst.
    by apply IH, perform_marks_front. }
  apply Hs. intros Hact. done.
Qed.

Lemma session_steady (calls : list call) : ∀ v, steady v → steady (session calls v).
Proof.
  unfold session. induction calls as [| c calls IH]; intros v Hv; simpl; [done |].
  by apply IH, perform_steady.
Qed.

Lemma turned_clear (v : viewer_gl) i j k :
  rotate_mask v = (-1, -1, -1) → 0 ≤ i → 0 ≤ j → 0 ≤ k → turned v i j k = [].
Proof.
  intros Hm Hi Hj Hk. unfold turned, mask0, mask1, mask2. rewrite Hm. cbn [fst snd].
  replace (-1 =? i) with false by lia.
  replace (-1 =? j) with false by lia.
  by replace (-1 =? k) with false by lia.
Qed.

(** X25. When no animation is running, the calls of a frame draw every
    primitive under the camera transforms alone: no block is left turned
    between two moves, whatever calls the viewer has received. *)
Theorem rest_frame_unturned (getBlock : cube_t → Z → Z → Z → block_t)
    (getBlock4 : cube4_t → Z → Z → Z → block_t) (calls : list call) cur saved :
  let v := session calls viewer_new in
  is_active (rotate_mgr v) = false →
  ∃ ms, drawn_under (draw getBlock getBlock4 v) cur saved = Some (ms, (cur, saved))
        ∧ Forall (λ m, m = cur ++ camera v) ms.
Proof.
  simpl. intros Hact. exists (frame_matrices (session calls viewer_new) cur).
  split.
  { unfold draw. destruct (cube_size _ =? 3); apply draws_draw_cube. }
  destruct (session_steady calls viewer_new) as (Hclear & _).
  { split; [done |]. split; [done |]. exists (-1). by left. }
  specialize (Hclear Hact). unfold frame_matrices, indices.
  apply Forall_bind, Forall_forall. intros i [Hi _]%elem_of_seqZ.
  apply Forall_bind, Forall_forall. intros j [Hj _]%elem_of_seqZ.
  apply Forall_bind, Forall_forall. intros k [Hk _]%elem_of_seqZ.
  unfold compose. rewrite turned_clear, app_nil_r by done.
  apply Forall_replicate. done.
Qed.


Lemma perform_cube_size c (v : viewer_gl) :
  sets_cube c = false → cube_size (perform c v) = cube_size v.
Proof. intros Hc. by destruct (perform_shown c v Hc). Qed.

Lemma session_cube_size (calls : list call) : ∀ v,
  Forall (λ c, sets_cube c = false) calls → cube_size (session calls v) = cube_size v.
Proof.
  unfold session. induction calls as [| c calls IH]; intros v Hall; simpl; [done |].
  inversion Hall as [| ? ? Hc Hrest]; subst.
  by rewrite IH, perform_cube_size.
Qed.

(** X23. While an animation runs on a viewer that has kept its 3x3
    model, and the depth of the move at the front of the queue is 1, 2
    or 3, exactly nine of the 27 blocks are drawn under a turn: the
    blocks of one layer. *)
Theorem animation_turns_one_layer (calls : list call) :
  Forall (λ c, sets_cube c = false) calls →
  let v := session calls viewer_new in
  is_active (rotate_mgr v) = true →
  ∃ f depth cnt rest,
    rotate_que v = (f, depth, cnt) :: rest
    ∧ (1 ≤ depth ≤ 3 →
       length (filter (λ b, is_turned v b = true) (blocks v)) = 9%nat).
Proof.
  intros Hall v Hact.
  assert (marks_front v) as Hv.
  { assert (∀ v, marks_front v → marks_front (session calls v)) as Hs.
    { clear Hact. unfold session.
      induction calls as [| c calls IH]; intros w Hw; simpl; [done |].
      inversion Hall as [| ? ? Hc Hrest]; subst.
      by apply IH, perform_marks_front. }
    apply Hs. by intros ?. }
  destruct (Hv Hact) as (f & depth & cnt & rest & Hq & Hm).
  exists f, depth, cnt, rest. split; [done |]. intros Hd.
  assert (cube_size v = 3) as Hsize by (by apply (session_cube_size calls viewer_new)).
  rewrite Hsize in Hm.
  assert (∀ b, is_turned v b
               = match (start_mask f 3 depth 0%float).1 with
                 | (m0, m1, m2) => (m0 =? b.1.1) || (m1 =? b.1.2) || (m2 =? b.2)
                 end) as Hturned.
  { intros [[i j] k]. unfold is_turned, turned, mask0, mask1, mask2.
    replace (rotate_mask v) with (start_mask f 3 depth 0%float).1
      by (by destruct f; injection Hm as -> _).
    destruct (start_mask f 3 depth 0%float).1 as [[m0 m1] m2]. simpl.
    by destruct (m0 =? i), (m1 =? j), (m2 =? k). }
  unfold blocks, indices. rewrite Hsize.
  erewrite (list_filter_iff _ (λ b, _ = true)); [| intros b; by rewrite Hturned].
  assert (depth = 1 ∨ depth = 2 ∨ depth = 3) as [-> | [-> | ->]] by lia;
    by destruct f.
Qed.

End AnimationFacts.

(** ** The viewer: more on floats, zoom and the animation clock *)

Section FloatMore.

(** Rounding keeps the sign it is given. *)
Lemma binary_round_aux_sign prec emax sx mx ex lx :
  0 ≤ mx →
  match binary_round_aux prec emax sx mx ex lx with
  | S754_zero s | S754_infinity s | S754_finite s _ _ => s = sx
  | S754_nan => False
  end.
Proof.
  intros Hm. unfold binary_round_aux.
  pose proof (shr_fexp_nonneg prec emax mx ex lx Hm) as H1.
  destruct (shr_fexp prec emax mx ex lx) as [mrs' e']. simpl in H1.
  pose proof (shr_fexp_nonneg prec emax _ e' loc_Exact
                (round_nearest_even_nonneg _ (loc_of_shr_record mrs') H1)) as H2.
  destruct (shr_fexp prec emax _ e' loc_Exact) as [mrs'' e'']. simpl in H2.
  destruct (shr_m mrs'') as [| p | p]; [done | | lia].
  by destruct (e'' <=? _).
Qed.

(** A value at most zero is a zero, a negative number or minus infinity. *)
Lemma non_positive_cases (f : float) :
  (f <=? 0)%float = true →
  (∃ s, Prim2SF f = S754_zero s) ∨ Prim2SF f = S754_infinity true
  ∨ (∃ m e, Prim2SF f = S754_finite true m e).
Proof.
  rewrite leb_spec. unfold SFleb.
  replace (Prim2SF 0) with (S754_zero false) by reflexivity.
  destruct (Prim2SF f) as [s | s | | s m e]; simpl; try done.
  - eauto.
  - destruct s; [auto | done].
  - destruct s; [eauto | done].
Qed.

(** The product of a positive number and a value at most zero is below
    every positive number. *)
Lemma mul_non_positive_below (x f lo : float) m e mlo elo :
  Prim2SF x = S754_finite false m e →
  Prim2SF lo = S754_finite false mlo elo →
  (f <=? 0)%float = true → (x * f <? lo)%float = true.
Proof.
  intros Hx Hlo Hf. rewrite ltb_spec, mul_spec, Hx, Hlo. unfold SF64mul, SFltb.
  destruct (non_positive_cases f Hf) as [[s ->] | [-> | (m' & e' & ->)]]; simpl; try done.
  pose proof (binary_round_aux_sign prec emax true (Z.pos (m * m')) (e + e') loc_Exact
                ltac:(lia)) as Hs.
  destruct (binary_round_aux _ _ _ _ _ _) as [s | s | | s m2 e2]; try done; by subst s.
Qed.

Lemma SFcompare_refl a : a ≠ S754_nan → SFcompare a a = Some Eq.
Proof.
  destruct a as [s | s | | s m e]; simpl; try done.
  - by destruct s.
  - intros _. rewrite Z.compare_refl, Pos.compare_cont_refl. by destruct s.
Qed.

Lemma is_nan_spec (x : float) : is_nan x = true ↔ Prim2SF x = S754_nan.
Proof.
  unfold is_nan. rewrite FloatAxioms.eqb_spec. unfold SFeqb. split.
  - destruct (Prim2SF x) as [s | s | | s m e] eqn:Hx; [| | done |];
      (rewrite SFcompare_refl; [done | congruence]).
  - by intros ->.
Qed.

Lemma mul_nan_l (x f : float) : is_nan x = true → is_nan (x * f) = true.
Proof. rewrite !is_nan_spec, mul_spec. by intros ->. Qed.

Lemma mul_nan_r (x f : float) : is_nan f = true → is_nan (x * f) = true.
Proof.
  rewrite !is_nan_spec, mul_spec. intros ->. by destruct (Prim2SF x).
Qed.

Lemma ltb_nan_l (x y : float) : is_nan x = true → (x <? y)%float = false.
Proof. rewrite is_nan_spec, ltb_spec. by intros ->. Qed.

Lemma ltb_nan_r (x y : float) : is_nan y = true → (x <? y)%float = false.
Proof.
  rewrite is_nan_spec, ltb_spec. intros ->. unfold SFltb. by destruct (Prim2SF x).
Qed.

Lemma Prim2SF_inj (x y : float) : Prim2SF x = Prim2SF y → x = y.
Proof.
  intros Hxy. by rewrite <- (SF2Prim_Prim2SF x), Hxy, SF2Prim_Prim2SF.
Qed.

Lemma SFcompare_Eq_finite m1 e1 b :
  SFcompare (S754_finite false m1 e1) b = Some Eq → b = S754_finite false m1 e1.
Proof.
  destruct b as [s | s | | s m e]; simpl; try done; try (by destruct s).
  destruct s; [done |].
  destruct (e1 ?= e) eqn:He; try done.
  apply Z.compare_eq in He as <-. intros [= Hm].
  by apply Pos.compare_eq in Hm as <-.
Qed.

(** The only value that is at least 1 and not above 1 is 1. *)
Lemma one_exactly (r : float) :
  (1 <=? r)%float = true → (1 <? r)%float = false → r = 1%float.
Proof.
  rewrite leb_spec, ltb_spec. unfold SFleb, SFltb.
  intros Hle Hlt. apply Prim2SF_inj.
  replace (Prim2SF 1) with (S754_finite false 4503599627370496 (-52)) in * by reflexivity.
  apply SFcompare_Eq_finite.
  by destruct (SFcompare _ _) as [[] |].
Qed.

End FloatMore.

Section ZoomMore.
Import Viewer.
Context `{Platform}.

(** X9. A factor that is zero, negative or minus infinity sends the zoom
    factor to its lower bound 0.1, from any value in range: the product
    is not positive and [std::clamp] lifts it. *)
Theorem zoom_non_positive_factor (factor : float) (v : viewer_gl) :
  in_zoom_range (zoom_factor v) → (factor <=? 0)%float = true →
  zoom_factor (zoom factor v) = zoom_lo.
Proof.
  intros [Hlo Hhi] Hf. simpl. unfold std_clamp.
  destruct (between_finite _ _ _ _ _ _ _ zoom_lo_finite zoom_hi_finite Hlo Hhi)
    as (m & e & Hz).
  by rewrite (mul_non_positive_below _ _ _ _ _ _ _ Hz zoom_lo_finite Hf).
Qed.

Lemma zoom_nan (factor : float) (v : viewer_gl) :
  is_nan (zoom_factor v) = true ∨ is_nan factor = true →
  is_nan (zoom_factor (zoom factor v)) = true.
Proof.
  intros Hn. simpl. unfold std_clamp.
  assert (is_nan (zoom_factor v * factor) = true) as Hp.
  { destruct Hn; [by apply mul_nan_l | by apply mul_nan_r]. }
  by rewrite (ltb_nan_l _ _ Hp), (ltb_nan_r _ _ Hp).
Qed.

(** X10. A NaN factor is not clamped: it makes the zoom factor a NaN,
    and every later [zoom], whatever its factor, leaves it a NaN. *)
Theorem zoom_nan_absorbing (factor : float) (factors : list float) (v : viewer_gl) :
  is_nan factor = true →
  is_nan (zoom_factor (zooms (factor :: factors) v)) = true.
Proof.
  intros Hf. unfold zooms. simpl fold_left.
  assert (is_nan (zoom_factor (zoom factor v)) = true) as Hv by (apply zoom_nan; auto).
  revert Hv. generalize (zoom factor v). clear.
  induction factors as [| f factors IH]; intros v Hv; simpl; [done |].
  apply IH, zoom_nan. auto.
Qed.

(** X8. [rotate_manager_t::get] never returns more than 1.0, never
    starts an animation, and returns exactly 1.0 in the call that ends
    one. *)
Theorem get_progress now (m : rotate_manager_t) :
  (1 <? fst (get now m))%float = false
  ∧ (is_active m = false → is_active (snd (get now m)) = false)
  ∧ (is_active m = true → is_active (snd (get now m)) = false →
     fst (get now m) = 1%float).
Proof.
  unfold get, std_min. simpl.
  generalize (seconds now (t_s m) / duration m)%float. intros r.
  split; [| split].
  - by destruct (1 <? r)%float eqn:Hlt.
  - intros Hact. by destruct (1 <=? r)%float.
  - intros Hact. destruct (1 <=? r)%float eqn:Hle; simpl; [| congruence].
    intros _. destruct (1 <? r)%float eqn:Hlt; [done |].
    by apply one_exactly.
Qed.

End ZoomMore.

(** ** The key callback *)

Section NotationFacts.
Import Viewer Callback Harness.
Local Open Scope string_scope.
Local Open Scope Z_scope.

Lemma mod_4_cases (r : Z) : r mod 4 = 0 ∨ r mod 4 = 1 ∨ r mod 4 = 2 ∨ r mod 4 = 3.
Proof. pose proof (Z.mod_pos_bound r 4). lia. Qed.

Lemma token_alike f r f' r' t t' :
  printRotate (face_index f) (shown_turns r) ++ " " ++ t
  = printRotate (face_index f') (shown_turns r') ++ " " ++ t' ↔
  shown_alike (f, r) (f', r') ∧ t = t'.
Proof.
  rewrite !shown_turns_mod. unfold shown_alike. simpl fst. simpl snd.
  destruct (mod_4_cases r) as [-> | [-> | [-> | ->]]];
    destruct (mod_4_cases r') as [-> | [-> | [-> | ->]]];
    destruct f, f'; cbv [printRotate kFaceStr face_index String.append Z.ltb Z.eqb Z.compare
         Pos.compare Pos.compare_cont]; split;
    try done;
    try (intros [= ->]; split; [split; [done | lia] | done]);
    try (intros [[? ?] ->]; done || lia).
Qed.

(** X11. The line the solve branch prints determines the solution up to
    this: the face of every move, and its count modulo 4, except that the
    counts 0 and 1 modulo 4 are both printed as the bare face letter.
    Two solutions are printed alike exactly when they agree move by move
    in that sense. *)
Theorem solution_text_alike (l l' : list (face_type * Z)) :
  solution_text l = solution_text l' ↔ Forall2 shown_alike l l'.
Proof.
  revert l'. induction l as [| [f r] l IH]; intros [| [f' r'] l']; simpl.
  - split; [constructor | done].
  - split; [| inversion 1]. rewrite shown_turns_mod.
    destruct (mod_4_cases r') as [-> | [-> | [-> | ->]]]; by destruct f'.
  - split; [| inversion 1]. rewrite shown_turns_mod.
    destruct (mod_4_cases r) as [-> | [-> | [-> | ->]]]; by destruct f.
  - rewrite token_alike, IH. split.
    + intros [? ?]. by constructor.
    + by inversion 1.
Qed.

End NotationFacts.

Section HarnessFacts.
Import Viewer Callback Glfw Session Harness.
Local Open Scope string_scope.
Local Open Scope Z_scope.
Context `{Platform}.
Context (solve : cube_t → list (face_type * Z)).


(** The 4x4 model plays no part when the size is 3. *)
Lemma apply_queue_3 (q : list rotate_que_t) : ∀ c c4,
  apply_queue 3 q (c, c4) = (fst (apply_queue 3 q (c, cube4_default)), c4).
Proof.
  induction q as [| [[f d] n] q IH]; intros c c4; simpl; [done |].
  by rewrite IH, (IH _ cube4_default).
Qed.

Lemma apply_queue_3_fst q c c4 c4' :
  fst (apply_queue 3 q (c, c4)) = fst (apply_queue 3 q (c, c4')).
Proof. by rewrite (apply_queue_3 q c c4), (apply_queue_3 q c c4'). Qed.

Lemma uniform_int_distribution_range a b g :
  a ≤ b → a ≤ fst (uniform_int_distribution a b g) ≤ b.
Proof.
  intros Hab. simpl. pose proof (Z.mod_pos_bound (g 0%nat) (b - a + 1)). lia.
Qed.

Lemma cpp_rem_small (t : Z) : 1 ≤ t ≤ 3 → cpp_rem t 4 = t.
Proof. intros Ht. unfold cpp_rem. apply Z.rem_small. lia. Qed.

(** What the loop of [scrambleCube] does to the state. *)
Lemma scramble_loop_spec (n : nat) : ∀ p,
  let p' := scramble_loop n p in
  isScrambling p' = isScrambling p ∧ isSolving p' = isSolving p
  ∧ should_close p' = should_close p ∧ scrambleMoves p' = scrambleMoves p
  ∧ ∃ added,
      cb_viewer p' = with_rotate_que (rotate_que (cb_viewer p) ++ added) (cb_viewer p)
      ∧ length added = n
      ∧ Forall (λ e : rotate_que_t, e.1.2 = 1 ∧ 1 ≤ e.2 ≤ 3) added
      ∧ cb_cube p' = fst (apply_queue 3 added (cb_cube p, cube4 (cb_viewer p))).
Proof.
  induction n as [| n IH]; intros p; simpl.
  { repeat split; try done. exists []. rewrite app_nil_r. by destruct p as [? []]. }
  destruct (IH (emit " "
      (emit (printRotate (fst (uniform_int_distribution 0 5 (rng p)))
                (fst (uniform_int_distribution 1 3 (snd (uniform_int_distribution 0 5 (rng p))))))
        (with_viewer
          (add_rotate (face_of_index (fst (uniform_int_distribution 0 5 (rng p))))
             (fst (uniform_int_distribution 1 3 (snd (uniform_int_distribution 0 5 (rng p)))))
             (cb_viewer p))
          (with_cube
            (cube_rotate (face_of_index (fst (uniform_int_distribution 0 5 (rng p))))
               (fst (uniform_int_distribution 1 3 (snd (uniform_int_distribution 0 5 (rng p)))))
               (cb_cube p))
            (with_rng (snd (uniform_int_distribution 1 3
                               (snd (uniform_int_distribution 0 5 (rng p))))) p))))))
    as (Hs & Hv & Hc & Hm & added & Hview & Hlen & Hall & Hcube).
  clear IH. simpl in *.
  set (rotation := 1 + rng p 1%nat mod (3 - 1 + 1)) in *.
  set (face := face_of_index (0 + rng p 0%nat mod (5 - 0 + 1))) in *.
  assert (1 ≤ rotation ≤ 3) as Hrot.
  { subst rotation. pose proof (Z.mod_pos_bound (rng p 1%nat) (3 - 1 + 1)). lia. }
  repeat split; try done.
  exists ((face, 1, rotation) :: added).
  rewrite Hview, Hcube. unfold add_rotate, add_rotate3. simpl.
  rewrite (cpp_rem_small _ Hrot), <- app_assoc. simpl.
  repeat split; [by rewrite Hlen | by constructor].
Qed.

Lemma scrambleCube_spec (moves : Z) (p : program) :
  let p' := scrambleCube moves p in
  isScrambling p' = false ∧ isSolving p' = isSolving p
  ∧ should_close p' = should_close p ∧ scrambleMoves p' = scrambleMoves p
  ∧ ∃ added,
      cb_viewer p' = with_rotate_que (rotate_que (cb_viewer p) ++ added) (cb_viewer p)
      ∧ length added = Z.to_nat moves
      ∧ Forall (λ e : rotate_que_t, e.1.2 = 1 ∧ 1 ≤ e.2 ≤ 3) added
      ∧ cb_cube p' = fst (apply_queue 3 added (cb_cube p, cube4 (cb_viewer p))).
Proof.
  unfold scrambleCube. simpl.
  destruct (scramble_loop_spec (Z.to_nat moves)
              (emit (endl ++ "Scrambling with " ++ pretty moves ++ " random moves:" ++ endl)
                 (with_scrambling true p)))
    as (Hs & Hv & Hc & Hm & added & Hview & Hlen & Hall & Hcube).
  simpl in *. repeat split; try done. by exists added.
Qed.


Lemma update_rotate_zoom_factor now_set now_get (v : viewer_gl) :
  zoom_factor (update_rotate now_set now_get v) = zoom_factor v.
Proof.
  unfold update_rotate. destruct (rotate_que v) as [| [[f d] n] rest]; [done |].
  destruct (negb _); [destruct (start_mask _ _ _ _) |];
    destruct (get _ _) as [r m2]; by destruct (negb (is_active m2)).
Qed.

Lemma play_spec (solution : list (face_type * Z)) : ∀ c (v : viewer_gl),
  let entries := map (λ m : face_type * Z, (m.1, 1, cpp_rem m.2 4)) solution in
  snd (play solution c v) = with_rotate_que (rotate_que v ++ entries) v
  ∧ fst (play solution c v) = fold_left (λ c m, cube_rotate m.1 m.2 c) solution c.
Proof.
  induction solution as [| [f r] solution IH]; intros c v; simpl.
  { rewrite app_nil_r. by destruct v. }
  destruct (IH (cube_rotate f r c) (add_rotate f r v)) as [Hv Hc].
  rewrite Hv, Hc. unfold add_rotate, add_rotate3. simpl.
  by rewrite <- app_assoc.
Qed.

Lemma entries_turn (solution : list (face_type * Z)) : ∀ c c4,
  (∀ f a c, cube_rotate f a c = cube_rotate f (a mod 4) c) →
  fst (apply_queue 3 (map (λ m : face_type * Z, (m.1, 1, cpp_rem m.2 4)) solution) (c, c4))
  = fold_left (λ c m, cube_rotate m.1 m.2 c) solution c.
Proof.
  intros c c4 Hcore. revert c.
  induction solution as [| [f r] solution IH]; intros c; simpl; [done |].
  rewrite IH. f_equal.
  rewrite (Hcore f (cpp_rem r 4)), (Hcore f r). f_equal. apply cpp_rem_4.
Qed.

Lemma pressed_cases (action : Z) :
  negb (action =? GLFW_PRESS) && negb (action =? GLFW_REPEAT) = false ↔
  action = GLFW_PRESS ∨ action = GLFW_REPEAT.
Proof. unfold GLFW_PRESS, GLFW_REPEAT. lia. Qed.

Lemma append_assoc (a b c : string) : (a ++ b) ++ c = a ++ b ++ c.
Proof.
  induction a as [| x a IH]; [done |].
  change (String x ((a ++ b) ++ c) = String x (a ++ b ++ c)). by rewrite IH.
Qed.

(** The branches of [keyCallback], for a key that is pressed while both
    flags are down. *)
Lemma keyCallback_enter action p :
  action = GLFW_PRESS ∨ action = GLFW_REPEAT →
  isScrambling p = false → isSolving p = false →
  keyCallback solve GLFW_KEY_ENTER action p = scrambleCube (scrambleMoves p) p.
Proof.
  intros Ha%pressed_cases Hs Hv. unfold keyCallback. by rewrite Ha, Hs, Hv.
Qed.

Lemma keyCallback_face key action p :
  action = GLFW_PRESS ∨ action = GLFW_REPEAT →
  isScrambling p = false → isSolving p = false →
  GLFW_KEY_1 ≤ key ≤ GLFW_KEY_6 →
  keyCallback solve key action p
  = emit ("Rotated face: " ++ printRotate (key - GLFW_KEY_1) 1 ++ endl)
      (with_viewer
         (set_cube (cube_rotate (face_of_index (key - GLFW_KEY_1)) 1 (cb_cube p))
            (cb_viewer p))
         (with_cube (cube_rotate (face_of_index (key - GLFW_KEY_1)) 1 (cb_cube p)) p)).
Proof.
  intros Ha%pressed_cases Hs Hv Hk. unfold keyCallback. rewrite Ha, Hs, Hv.
  unfold GLFW_KEY_1, GLFW_KEY_6, GLFW_KEY_ESCAPE, GLFW_KEY_LEFT, GLFW_KEY_RIGHT,
    GLFW_KEY_UP, GLFW_KEY_DOWN, GLFW_KEY_KP_ADD, GLFW_KEY_EQUAL, GLFW_KEY_KP_SUBTRACT,
    GLFW_KEY_MINUS, GLFW_KEY_ENTER in *.
  repeat match goal with
         | |- context [key =? ?k] => replace (key =? k) with false by lia
         end.
  replace ((49 <=? key) && (key <=? 54)) with true by lia. done.
Qed.

Lemma keyCallback_space action p :
  action = GLFW_PRESS ∨ action = GLFW_REPEAT →
  isScrambling p = false → isSolving p = false →
  let solution := solve (cb_cube p) in
  let p' := keyCallback solve GLFW_KEY_SPACE action p in
  cb_cube p' = fst (play_solution solution (cb_cube p) (cb_viewer p))
  ∧ cb_viewer p' = snd (play_solution solution (cb_cube p) (cb_viewer p))
  ∧ isScrambling p' = false ∧ isSolving p' = false
  ∧ should_close p' = should_close p ∧ scrambleMoves p' = scrambleMoves p
  ∧ cout p'
    = cout p ++ (endl ++ "Calculating optimal solution..." ++ endl)
      ++ (endl ++ "Solution (" ++ pretty (length solution) ++ " moves):" ++ endl
          ++ solution_text solution ++ endl).
Proof.
  intros Ha%pressed_cases Hs Hv. unfold keyCallback. rewrite Ha, Hs, Hv. simpl.
  destruct (play_solution _ _ _) as [c v]. simpl. repeat split; try done.
  by rewrite append_assoc.
Qed.


Lemma in_step_ext (p p' : program) :
  cb_cube p' = cb_cube p → cube_size (cb_viewer p') = cube_size (cb_viewer p) →
  shown_at_rest (cb_viewer p') = shown_at_rest (cb_viewer p) →
  in_step p → in_step p'.
Proof. unfold in_step. by intros -> -> ->. Qed.

Lemma scrambleCube_in_step moves p : in_step p → in_step (scrambleCube moves p).
Proof.
  intros [Hsize Hshown].
  destruct (scrambleCube_spec moves p)
    as (_ & _ & _ & _ & added & Hview & _ & _ & Hcube).
  unfold in_step, shown_at_rest in *. rewrite Hview, Hcube. simpl.
  split; [done |]. rewrite Hsize in *.
  rewrite apply_queue_app, (apply_queue_3 (rotate_que _)). simpl.
  by rewrite (apply_queue_3_fst _ _ cube4_default (cube4 (cb_viewer p))), Hshown.
Qed.

Ltac key_lia :=
  unfold GLFW_PRESS, GLFW_REPEAT, GLFW_KEY_SPACE, GLFW_KEY_MINUS, GLFW_KEY_1,
    GLFW_KEY_6, GLFW_KEY_EQUAL, GLFW_KEY_ESCAPE, GLFW_KEY_ENTER, GLFW_KEY_RIGHT,
    GLFW_KEY_LEFT, GLFW_KEY_DOWN, GLFW_KEY_UP, GLFW_KEY_KP_SUBTRACT,
    GLFW_KEY_KP_ADD in *;
  lia.

Ltac key_cases :=
  unfold keyCallback;
  repeat match goal with
         | |- context [if ?b then _ else _] => destruct b eqn:?
         end.

(** X13. When the program's cube is the one the viewer will show once
    its queue has been played, it stays so through every key event other
    than the keys 1-6 and Space (Enter, which scrambles, among them),
    through every wheel event and through every frame. *)
Theorem display_kept_in_step (p : program) :
  in_step p →
  (∀ key action, ¬ (GLFW_KEY_1 ≤ key ≤ GLFW_KEY_6) → key ≠ GLFW_KEY_SPACE →
     in_step (keyCallback solve key action p))
  ∧ (∀ yoff, in_step (dispatch solve (scroll_input yoff) p))
  ∧ (∀ now_set now_get,
       in_step (with_viewer (update_rotate now_set now_get (cb_viewer p)) p)).
Proof.
  intros Hp. split; [| split].
  - intros key action Hface Hspace.
    key_cases; try done; try (by apply (in_step_ext p)).
    + by apply scrambleCube_in_step.
    + key_lia.
    + key_lia.
  - intros yoff. by apply (in_step_ext p).
  - intros now_set now_get.
    destruct (update_rotate_shown now_set now_get (cb_viewer p)) as [Hs Hq].
    by apply (in_step_ext p).
Qed.

(** X14. A key 1-6 turns the program's cube by a quarter and hands the
    turned cube to the viewer at once, leaving the queue alone: the
    moves still queued will be played on top of it.  So the viewer ends
    on the program's cube with the queued moves applied once more: on
    the program's cube itself exactly when these moves leave that cube
    as it is, and so whenever the queue was empty. *)
Theorem face_key_replays_queue (key action : Z) (p : program) :
  action = GLFW_PRESS ∨ action = GLFW_REPEAT →
  isScrambling p = false → isSolving p = false →
  GLFW_KEY_1 ≤ key ≤ GLFW_KEY_6 →
  let p' := keyCallback solve key action p in
  cb_cube p' = cube_rotate (face_of_index (key - GLFW_KEY_1)) 1 (cb_cube p)
  ∧ cube_size (cb_viewer p') = 3
  ∧ rotate_que (cb_viewer p') = rotate_que (cb_viewer p)
  ∧ fst (shown_at_rest (cb_viewer p'))
    = fst (apply_queue 3 (rotate_que (cb_viewer p)) (cb_cube p', cube4 (cb_viewer p)))
  ∧ (in_step p'
     ↔ fst (apply_queue 3 (rotate_que (cb_viewer p)) (cb_cube p', cube4 (cb_viewer p)))
       = cb_cube p')
  ∧ (rotate_que (cb_viewer p) = [] → in_step p').
Proof.
  intros Ha Hs Hv Hk. simpl. rewrite keyCallback_face by done.
  unfold in_step, shown_at_rest. simpl.
  do 4 (split; [done |]). split; [| by intros ->].
  split; [by intros [_ ?] | done].
Qed.

(** X15. Space pressed while the queue is empty: the program's cube
    becomes the cube with the solver's moves applied, as many entries are
    queued as the solver returned moves, and the viewer will show the
    program's cube once they are played.  [cube_t::rotate] is taken to
    depend on the count modulo 4 only, since the queue holds [r % 4]. *)
Theorem solve_leaves_in_step (action : Z) (p : program) :
  (∀ f a c, cube_rotate f a c = cube_rotate f (a mod 4) c) →
  action = GLFW_PRESS ∨ action = GLFW_REPEAT →
  isScrambling p = false → isSolving p = false →
  rotate_que (cb_viewer p) = [] →
  let p' := keyCallback solve GLFW_KEY_SPACE action p in
  in_step p'
  ∧ cb_cube p' = fold_left (λ c m, cube_rotate m.1 m.2 c) (solve (cb_cube p)) (cb_cube p)
  ∧ length (rotate_que (cb_viewer p')) = length (solve (cb_cube p)).
Proof.
  intros Hcore Ha Hs Hv Hq. simpl.
  destruct (keyCallback_space action p Ha Hs Hv) as (Hcube & Hview & _).
  unfold play_solution in *.
  destruct (play_spec (solve (cb_cube p)) (cb_cube p) (set_cube (cb_cube p) (cb_viewer p)))
    as [Hpv Hpc].
  rewrite Hpv in Hview. rewrite Hpc in Hcube. clear Hpv Hpc.
  unfold in_step, shown_at_rest. rewrite Hcube, Hview. simpl. rewrite Hq. simpl.
  split; [split; [done |] |]; [| split; [done |]].
  - by apply entries_turn.
  - by rewrite length_map.
Qed.

(** X12. Enter queues exactly [scrambleMoves] entries behind those
    already queued (none when the count is not positive), each for the
    outer layer (depth 1) with a count from 1 to 3, changes nothing else
    in the viewer, and turns the program's cube by the same moves. *)
Theorem scramble_queues_moves (action : Z) (p : program) :
  action = GLFW_PRESS ∨ action = GLFW_REPEAT →
  isScrambling p = false → isSolving p = false →
  let p' := keyCallback solve GLFW_KEY_ENTER action p in
  ∃ added,
    cb_viewer p' = with_rotate_que (rotate_que (cb_viewer p) ++ added) (cb_viewer p)
    ∧ length added = Z.to_nat (scrambleMoves p)
    ∧ Forall (λ e : rotate_que_t, e.1.2 = 1 ∧ 1 ≤ e.2 ≤ 3) added
    ∧ cb_cube p' = fst (apply_queue 3 added (cb_cube p, cube4 (cb_viewer p))).
Proof.
  intros Ha Hs Hv. simpl. rewrite keyCallback_enter by done.
  apply scrambleCube_spec.
Qed.

Lemma play_zoom_factor solution c (v : viewer_gl) :
  zoom_factor (snd (play solution c v)) = zoom_factor v.
Proof. by rewrite (proj1 (play_spec solution c v)). Qed.

Lemma zoom_factors_positive :
  (0 <? zoom_in_factor)%float = true ∧ (0 <? zoom_out_factor)%float = true.
Proof. split; reflexivity. Qed.

Lemma on_scroll_range yoff (v : viewer_gl) :
  in_zoom_range (zoom_factor v) → in_zoom_range (zoom_factor (on_scroll yoff v)).
Proof.
  intros Hv. unfold on_scroll.
  destruct (0 <? yoff)%float; apply zoom_range; try done; apply zoom_factors_positive.
Qed.

(** What every key event keeps: both flags down, the zoom factor in
    range. *)
Lemma keyCallback_calm key action p :
  isScrambling p = false → isSolving p = false →
  in_zoom_range (zoom_factor (cb_viewer p)) →
  let p' := keyCallback solve key action p in
  isScrambling p' = false ∧ isSolving p' = false
  ∧ in_zoom_range (zoom_factor (cb_viewer p')).
Proof.
  intros Hs Hv Hz. simpl.
  destruct (negb (action =? GLFW_PRESS) && negb (action =? GLFW_REPEAT)) eqn:Ha.
  { unfold keyCallback. by rewrite Ha. }
  apply pressed_cases in Ha.
  destruct (decide (key = GLFW_KEY_ENTER)) as [-> | Henter].
  { rewrite keyCallback_enter by done.
    destruct (scrambleCube_spec (scrambleMoves p) p) as (-> & -> & _ & _ & added & -> & _).
    done. }
  destruct (decide (key = GLFW_KEY_SPACE)) as [-> | Hspace].
  { destruct (keyCallback_space action p Ha Hs Hv) as (_ & -> & -> & -> & _).
    unfold play_solution. by rewrite play_zoom_factor. }
  key_cases; try key_lia; simpl; try done; repeat split; try done;
    try (apply zoom_range; [done | apply zoom_factors_positive]).
Qed.

Lemma run_calm rounds : ∀ p,
  isScrambling p = false → isSolving p = false →
  in_zoom_range (zoom_factor (cb_viewer p)) →
  let p' := run solve rounds p in
  isScrambling p' = false ∧ isSolving p' = false
  ∧ in_zoom_range (zoom_factor (cb_viewer p')).
Proof.
  induction rounds as [| [inputs [now_set now_get]] rounds IH]; intros p Hs Hv Hz; simpl.
  { done. }
  destruct (should_close p); [done |].
  assert (∀ p, isScrambling p = false → isSolving p = false →
               in_zoom_range (zoom_factor (cb_viewer p)) →
               let p' := fold_left (λ p i, dispatch solve i p) inputs p in
               isScrambling p' = false ∧ isSolving p' = false
               ∧ in_zoom_range (zoom_factor (cb_viewer p'))) as Hin.
  { clear. induction inputs as [| i inputs IH]; intros p Hs Hv Hz; simpl; [done |].
    destruct i as [key action | yoff]; simpl.
    - destruct (keyCallback_calm key action p Hs Hv Hz) as (? & ? & ?). by apply IH.
    - apply IH; simpl; try done. by apply on_scroll_range. }
  destruct (Hin p Hs Hv Hz) as (Hs' & Hv' & Hz').
  apply IH; simpl; try done.
  by rewrite update_rotate_zoom_factor.
Qed.

Lemma started_calm scramble g :
  in_zoom_range (zoom_factor (cb_viewer (started scramble g))).
Proof. split; by vm_compute. Qed.

(** X16. The two flags are down whenever the loop of [run] hands
    control to a callback: the callbacks that raise them lower them
    before they return.  So no key is ever ignored "during animation":
    a key 1-6 turns the program's cube in every state the program
    reaches, moves pending or not. *)
Theorem keys_never_blocked rounds (scramble : Z) (g : mt19937) :
  let p := run solve rounds (started scramble g) in
  isScrambling p = false ∧ isSolving p = false
  ∧ ∀ key, GLFW_KEY_1 ≤ key ≤ GLFW_KEY_6 →
      cb_cube (keyCallback solve key GLFW_PRESS p)
      = cube_rotate (face_of_index (key - GLFW_KEY_1)) 1 (cb_cube p).
Proof.
  simpl.
  destruct (run_calm rounds (started scramble g) eq_refl eq_refl (started_calm _ _))
    as (Hs & Hv & _).
  split; [done |]. split; [done |].
  intros key Hk. rewrite keyCallback_face by auto. done.
Qed.

(** X17. Throughout a run of the program the zoom factor lies in the
    closed interval from 0.1 to 10.0, whatever keys are pressed and
    whatever the wheel reports (a NaN offset included). *)
Theorem zoom_in_range_throughout rounds (scramble : Z) (g : mt19937) :
  in_zoom_range (zoom_factor (cb_viewer (run solve rounds (started scramble g)))).
Proof.
  by destruct (run_calm rounds (started scramble g) eq_refl eq_refl (started_calm _ _))
    as (_ & _ & Hz).
Qed.


Lemma keyCallback_should_close key action p :
  key ≠ GLFW_KEY_ESCAPE →
  should_close (keyCallback solve key action p) = should_close p.
Proof.
  intros Hesc.
  destruct (negb (action =? GLFW_PRESS) && negb (action =? GLFW_REPEAT)) eqn:Ha.
  { unfold keyCallback. by rewrite Ha. }
  apply pressed_cases in Ha.
  destruct (isScrambling p || isSolving p) eqn:Hflags.
  { unfold keyCallback. rewrite (proj2 (pressed_cases action) Ha), Hflags.
    destruct (key =? GLFW_KEY_ESCAPE) eqn:He; [key_lia | done]. }
  apply orb_false_iff in Hflags as [Hs Hv].
  destruct (decide (key = GLFW_KEY_ENTER)) as [-> | Henter].
  { rewrite keyCallback_enter by done.
    by destruct (scrambleCube_spec (scrambleMoves p) p) as (_ & _ & -> & _). }
  destruct (decide (key = GLFW_KEY_SPACE)) as [-> | Hspace].
  { by destruct (keyCallback_space action p Ha Hs Hv) as (_ & _ & _ & _ & -> & _). }
  key_cases; try key_lia; done.
Qed.

(** X18. What a key event leaves alone.  An event that is neither a
    press nor a repeat changes nothing; while a flag is up only Escape
    acts; keys other than Enter, Space and 1-6 leave the program's cube,
    the text printed, the queue and the model on display as they were;
    and no key but Escape touches the close flag. *)
Theorem idle_key_events (key action : Z) (p : program) :
  let p' := keyCallback solve key action p in
  (action ≠ GLFW_PRESS → action ≠ GLFW_REPEAT → p' = p)
  ∧ (isScrambling p = true ∨ isSolving p = true → key ≠ GLFW_KEY_ESCAPE → p' = p)
  ∧ (key ≠ GLFW_KEY_ENTER → key ≠ GLFW_KEY_SPACE → ¬ (GLFW_KEY_1 ≤ key ≤ GLFW_KEY_6) →
     cb_cube p' = cb_cube p ∧ cout p' = cout p
     ∧ rotate_que (cb_viewer p') = rotate_que (cb_viewer p)
     ∧ cube (cb_viewer p') = cube (cb_viewer p))
  ∧ (key ≠ GLFW_KEY_ESCAPE → should_close p' = should_close p).
Proof.
  simpl. split; [| split; [| split]].
  - intros Hp Hr. unfold keyCallback.
    replace (negb (action =? GLFW_PRESS) && negb (action =? GLFW_REPEAT)) with true; [done |].
    key_lia.
  - intros Hflags Hesc. unfold keyCallback.
    destruct (negb _ && negb _); [done |].
    destruct (key =? GLFW_KEY_ESCAPE) eqn:He; [key_lia |].
    replace (isScrambling p || isSolving p) with true; [done |].
    symmetry. apply orb_true_iff. tauto.
  - intros Henter Hspace Hface. key_cases; try key_lia; done.
  - apply keyCallback_should_close.
Qed.

Lemma dispatch_should_close i p :
  should_close p = true → should_close (dispatch solve i p) = true.
Proof.
  intros Hp. destruct i as [key action | yoff]; simpl; [| done].
  destruct (decide (key = GLFW_KEY_ESCAPE)) as [-> | Hesc].
  - unfold keyCallback. destruct (negb _ && negb _); [done |]. done.
  - by rewrite keyCallback_should_close.
Qed.

Lemma dispatch_all_should_close inputs : ∀ p,
  should_close p = true →
  should_close (fold_left (λ p i, dispatch solve i p) inputs p) = true.
Proof.
  induction inputs as [| i inputs IH]; intros p Hp; simpl; [done |].
  by apply IH, dispatch_should_close.
Qed.

(** X19. Escape ends the run at the end of the round it is polled in:
    the close flag is up after that round, whatever else the round
    polled, and later rounds do not happen. *)
Theorem escape_ends_run inputs clock rest (p : program) :
  should_close p = false →
  In (key_input GLFW_KEY_ESCAPE GLFW_PRESS) inputs →
  should_close (run solve [(inputs, clock)] p) = true
  ∧ run solve ((inputs, clock) :: rest) p = run solve [(inputs, clock)] p.
Proof.
  intros Hp Hin. destruct clock as [now_set now_get]. simpl. rewrite Hp.
  assert (should_close (fold_left (λ p i, dispatch solve i p) inputs p) = true) as Hc.
  { clear Hp. revert p. induction inputs as [| i inputs IH]; intros p; [done |].
    destruct Hin as [-> | Hin]; simpl.
    - by apply dispatch_all_should_close.
    - by apply IH. }
  split; [done |]. destruct rest as [| [inputs' [a b]] rest]; [done |].
  simpl. by rewrite Hc.
Qed.

Lemma face_index_of_index (i : Z) : 0 ≤ i ≤ 5 → face_index (face_of_index i) = i.
Proof.
  intros Hi.
  assert (i = 0 ∨ i = 1 ∨ i = 2 ∨ i = 3 ∨ i = 4 ∨ i = 5)
    as [-> | [-> | [-> | [-> | [-> | ->]]]]] by lia; reflexivity.
Qed.

Lemma shown_turns_small (r : Z) : 1 ≤ r ≤ 3 → shown_turns r = r.
Proof. intros Hr. rewrite shown_turns_mod. apply Z.mod_small. lia. Qed.

Lemma scramble_loop_text (n : nat) : ∀ p : program,
  ∃ moves : list (face_type * Z),
    length moves = n
    ∧ Forall (λ m, 1 ≤ m.2 ≤ 3) moves
    ∧ rotate_que (cb_viewer (scramble_loop n p))
      = (rotate_que (cb_viewer p) ++ map (λ m, (m.1, 1, m.2)) moves)%list
    ∧ cout (scramble_loop n p) = cout p ++ solution_text moves.
Proof.
  induction n as [| n IH]; intros p.
  { exists []. simpl. rewrite app_nil_r. repeat split; [constructor |].
    clear. induction (cout p) as [| c s IHs]; [done |].
    change (String c s = String c (s ++ "")). by rewrite <- IHs. }
  simpl scramble_loop.
  set (faceIdx := 0 + rng p 0%nat mod (5 - 0 + 1)).
  set (rotation := 1 + rng p 1%nat mod (3 - 1 + 1)).
  assert (0 ≤ faceIdx ≤ 5) as Hf.
  { subst faceIdx. pose proof (Z.mod_pos_bound (rng p 0%nat) (5 - 0 + 1)). lia. }
  assert (1 ≤ rotation ≤ 3) as Hr.
  { subst rotation. pose proof (Z.mod_pos_bound (rng p 1%nat) (3 - 1 + 1)). lia. }
  match goal with
  | |- ∃ moves, _ ∧ _ ∧ rotate_que (cb_viewer (scramble_loop n ?q)) = _ ∧ _ =>
      destruct (IH q) as (moves & Hlen & Hall & Hque & Hout)
  end.
  exists ((face_of_index faceIdx, rotation) :: moves).
  rewrite Hque, Hout. simpl.
  rewrite face_index_of_index, shown_turns_small, (cpp_rem_small _ Hr) by done.
  rewrite <- app_assoc, !append_assoc. simpl.
  repeat split; [by rewrite Hlen | by constructor].
Qed.

(** X26. The scramble that is printed is the scramble that is made:
    the text Enter writes is the heading with the move count, then the
    notation (as the solve branch would print it) of exactly the moves
    it queues, then the closing line. *)
Theorem scramble_prints_its_moves (action : Z) (p : program) :
  action = GLFW_PRESS ∨ action = GLFW_REPEAT →
  isScrambling p = false → isSolving p = false →
  let p' := keyCallback solve GLFW_KEY_ENTER action p in
  ∃ moves : list (face_type * Z),
    length moves = Z.to_nat (scrambleMoves p)
    ∧ Forall (λ m, 1 ≤ m.2 ≤ 3) moves
    ∧ rotate_que (cb_viewer p')
      = (rotate_que (cb_viewer p) ++ map (λ m, (m.1, 1, m.2)) moves)%list
    ∧ cout p'
      = cout p
        ++ (endl ++ "Scrambling with " ++ pretty (scrambleMoves p) ++ " random moves:" ++ endl)
        ++ solution_text moves
        ++ (endl ++ endl ++ "Scramble complete. Press Space to solve." ++ endl).
Proof.
  intros Ha Hs Hv. simpl. rewrite keyCallback_enter by done.
  unfold scrambleCube. simpl.
  destruct (scramble_loop_text (Z.to_nat (scrambleMoves p))
              (emit (endl ++ "Scrambling with " ++ pretty (scrambleMoves p)
                     ++ " random moves:" ++ endl) (with_scrambling true p)))
    as (moves & Hlen & Hall & Hque & Hout).
  exists moves. rewrite Hque, Hout. simpl.
  repeat split; try done. by rewrite !append_assoc.
Qed.

Lemma keyCallback_scrambleMoves key action (p : program) :
  scrambleMoves (keyCallback solve key action p) = scrambleMoves p.
Proof.
  destruct (negb (action =? GLFW_PRESS) && negb (action =? GLFW_REPEAT)) eqn:Ha.
  { unfold keyCallback. by rewrite Ha. }
  apply pressed_cases in Ha.
  destruct (isScrambling p || isSolving p) eqn:Hflags.
  { unfold keyCallback. rewrite (proj2 (pressed_cases action) Ha), Hflags.
    by destruct (key =? GLFW_KEY_ESCAPE). }
  apply orb_false_iff in Hflags as [Hs Hv].
  destruct (decide (key = GLFW_KEY_ENTER)) as [-> | Henter].
  { rewrite keyCallback_enter by done.
    by destruct (scrambleCube_spec (scrambleMoves p) p) as (_ & _ & _ & -> & _). }
  destruct (decide (key = GLFW_KEY_SPACE)) as [-> | Hspace].
  { by destruct (keyCallback_space action p Ha Hs Hv) as (_ & _ & _ & _ & _ & -> & _). }
  key_cases; try key_lia; done.
Qed.

Lemma run_scrambleMoves rounds : ∀ p : program,
  scrambleMoves (run solve rounds p) = scrambleMoves p.
Proof.
  induction rounds as [| [inputs [now_set now_get]] rounds IH]; intros p; simpl; [done |].
  destruct (should_close p); [done |]. rewrite IH. simpl.
  clear. revert p. induction inputs as [| i inputs IH]; intros p; simpl; [done |].
  rewrite IH. destruct i as [key action | yoff]; simpl; [| done].
  apply keyCallback_scrambleMoves.
Qed.

(** X27. The check of [main] bounds every scramble: when [main] starts
    the program with the count [scramble], Enter queues exactly that
    many entries in every state the program reaches, at most 100. *)
Theorem scramble_length_bounded argv a threads scramble rounds (g : mt19937) :
  Cli.main argv = Cli.Run a threads scramble →
  let p := run solve rounds (started scramble g) in
  let p' := keyCallback solve GLFW_KEY_ENTER GLFW_PRESS p in
  (length (rotate_que (cb_viewer p')) ≤ length (rotate_que (cb_viewer p)) + 100)%nat
  ∧ (length (rotate_que (cb_viewer p'))
     = length (rotate_que (cb_viewer p)) + Z.to_nat scramble)%nat.
Proof.
  intros Hmain. simpl.
  apply main_run in Hmain as (arg & _ & Hconf).
  apply configure_run in Hconf as (_ & _ & _ & Hrange).
  destruct (run_calm rounds (started scramble g) eq_refl eq_refl (started_calm _ _))
    as (Hs & Hv & _).
  rewrite keyCallback_enter by auto.
  destruct (scrambleCube_spec (scrambleMoves (run solve rounds (started scramble g)))
              (run solve rounds (started scramble g)))
    as (_ & _ & _ & _ & added & -> & Hlen & _).
  rewrite run_scrambleMoves in Hlen. simpl in *.
  rewrite length_app, Hlen. lia.
Qed.

End HarnessFacts.

(** ** The program over the core's cube: examples *)

Section PlayedFacts.
Import Viewer Callback Glfw Session Draw Harness Shown Played.
Local Open Scope Z_scope.

Example hasty_key_out_of_step :
  let p := @run core_platform two_moves hasty fresh in
  rotate_que (cb_viewer p) = [] ∧ cube (cb_viewer p) ≠ cb_cube p.
Proof.
  split; [by vm_compute |].
  intros Heq. apply (f_equal Cube.cp) in Heq. vm_compute in Heq. discriminate.
Qed.

Example pending_key_out_of_step :
  rotate_que (cb_viewer scrambled) = [(top, 1, 2)]
  ∧ ¬ @in_step core_platform
        (@keyCallback core_platform two_moves GLFW_KEY_6 GLFW_PRESS scrambled).
Proof.
  split; [by vm_compute |].
  intros [_ Heq]. apply (f_equal Cube.cp) in Heq. vm_compute in Heq. discriminate.
Qed.

Example pending_moves_that_cancel :
  rotate_que (cb_viewer scrambled_twice) = [(top, 1, 2); (top, 1, 2)]
  ∧ @in_step core_platform
      (@keyCallback core_platform two_moves GLFW_KEY_6 GLFW_PRESS scrambled_twice).
Proof. split; [by vm_compute | split; by vm_compute]. Qed.

Example scramble_text :
  cout (@keyCallback core_platform two_moves GLFW_KEY_ENTER GLFW_PRESS fresh)
  = (endl ++ "Scrambling with 1 random moves:" ++ endl ++ "U2 " ++ endl ++ endl
     ++ "Scramble complete. Press Space to solve." ++ endl)%string.
Proof. by vm_compute. Qed.

Lemma zoom_non_positive_factor_witness :
  zoom_factor (@zoom core_platform (-2) (@viewer_new core_platform)) = zoom_lo.
Proof.
  apply (@zoom_non_positive_factor core_platform (-2)%float); [split |]; by vm_compute.
Defined.

Lemma zoom_nan_absorbing_witness :
  is_nan (zoom_factor (@zooms core_platform (nan :: some_factors) (@viewer_new core_platform)))
  = true.
Proof.
  apply (@zoom_nan_absorbing core_platform nan some_factors). reflexivity.
Defined.

Lemma get_progress_witness :
  fst (@get core_platform 1000 (@Build_rotate_manager_t core_platform 0 1%float true))
  = 1%float.
Proof.
  apply (@get_progress core_platform 1000
           (@Build_rotate_manager_t core_platform 0 1%float true)); reflexivity.
Defined.

Lemma animation_state_consistent_witness :
  rotate_mask
    (@session core_platform
       [call_add_rotate front 1; frame 0 0; frame 0 2000]
       (@viewer_new core_platform))
  = (-1, -1, -1).
Proof.
  apply (@animation_state_consistent core_platform
           [call_add_rotate front 1; frame 0 0; frame 0 2000]).
  by vm_compute.
Defined.

Lemma session_shown_at_rest_witness :
  @shown_at_rest core_platform
    (@session core_platform
       [call_add_rotate right 5; frame 0 600; call_zoom 2;
        call_add_rotate top (-1)]
       (@viewer_new core_platform))
  = @apply_queue core_platform 3 [(right, 1, 1); (top, 1, -1)]
      (@shown_at_rest core_platform (@viewer_new core_platform)).
Proof.
  apply (@session_shown_at_rest core_platform
           [call_add_rotate right 5; frame 0 600; call_zoom 2;
            call_add_rotate top (-1)]).
  repeat constructor.
Defined.

Lemma display_kept_in_step_witness :
  @in_step core_platform (@keyCallback core_platform two_moves GLFW_KEY_ENTER GLFW_PRESS fresh)
  ∧ @in_step core_platform
      (@with_viewer core_platform (@update_rotate core_platform 0 1000 (cb_viewer fresh)) fresh).
Proof.
  assert (@in_step core_platform fresh) as Hfresh by (split; reflexivity).
  destruct (@display_kept_in_step core_platform two_moves fresh Hfresh) as (Hkey & _ & Hframe).
  split; [| apply Hframe].
  apply Hkey; [| discriminate]. unfold GLFW_KEY_ENTER, GLFW_KEY_1, GLFW_KEY_6. lia.
Defined.

Lemma face_key_replays_queue_witness :
  fst (@shown_at_rest core_platform
         (cb_viewer (@keyCallback core_platform two_moves GLFW_KEY_6 GLFW_PRESS scrambled)))
  = fst (@apply_queue core_platform 3 (rotate_que (cb_viewer scrambled))
           (cb_cube (@keyCallback core_platform two_moves GLFW_KEY_6 GLFW_PRESS scrambled),
            cube4 (cb_viewer scrambled)))
  ∧ @in_step core_platform (@keyCallback core_platform two_moves GLFW_KEY_6 GLFW_PRESS fresh).
Proof.
  split.
  - apply (@face_key_replays_queue core_platform two_moves GLFW_KEY_6 GLFW_PRESS scrambled);
      try reflexivity; [by left | split; discriminate].
  - apply (@face_key_replays_queue core_platform two_moves GLFW_KEY_6 GLFW_PRESS fresh);
      try reflexivity; [by left | split; discriminate].
Defined.

Lemma solve_leaves_in_step_witness :
  @in_step core_platform (@keyCallback core_platform two_moves GLFW_KEY_SPACE GLFW_PRESS fresh).
Proof.
  apply (@solve_leaves_in_step core_platform two_moves GLFW_PRESS fresh);
    try reflexivity; [| by left].
  intros f a c. apply rotate_mod_4.
Defined.

Lemma scramble_queues_moves_witness :
  ∃ added,
    cb_viewer (@keyCallback core_platform two_moves GLFW_KEY_ENTER GLFW_PRESS fresh)
    = @with_rotate_que core_platform (rotate_que (cb_viewer fresh) ++ added) (cb_viewer fresh)
    ∧ length added = Z.to_nat (scrambleMoves fresh)
    ∧ Forall (λ e : rotate_que_t, e.1.2 = 1 ∧ 1 ≤ e.2 ≤ 3) added
    ∧ cb_cube (@keyCallback core_platform two_moves GLFW_KEY_ENTER GLFW_PRESS fresh)
      = fst (@apply_queue core_platform 3 added (cb_cube fresh, cube4 (cb_viewer fresh))).
Proof.
  apply (@scramble_queues_moves core_platform two_moves GLFW_PRESS fresh);
    [by left | reflexivity | reflexivity].
Defined.

Lemma keys_never_blocked_witness :
  cb_cube (@keyCallback core_platform two_moves GLFW_KEY_6 GLFW_PRESS
             (@run core_platform two_moves hasty fresh))
  = Cube.rotate right 1 (cb_cube (@run core_platform two_moves hasty fresh)).
Proof.
  apply (@keys_never_blocked core_platform two_moves hasty 1 counting).
  split; discriminate.
Defined.

Lemma idle_key_events_witness :
  @keyCallback core_platform two_moves GLFW_KEY_ENTER 0 fresh = fresh.
Proof.
  destruct (@idle_key_events core_platform two_moves GLFW_KEY_ENTER 0 fresh) as [Hup _].
  apply Hup; discriminate.
Defined.

Lemma escape_ends_run_witness :
  should_close
    (@run core_platform two_moves
       [([key_input GLFW_KEY_ENTER GLFW_PRESS; key_input GLFW_KEY_ESCAPE GLFW_PRESS], (0, 0))]
       fresh) = true
  ∧ @run core_platform two_moves
      (([key_input GLFW_KEY_ENTER GLFW_PRESS; key_input GLFW_KEY_ESCAPE GLFW_PRESS], (0, 0))
         :: hasty) fresh
    = @run core_platform two_moves
        [([key_input GLFW_KEY_ENTER GLFW_PRESS; key_input GLFW_KEY_ESCAPE GLFW_PRESS], (0, 0))]
        fresh.
Proof.
  apply (@escape_ends_run core_platform two_moves
           [key_input GLFW_KEY_ENTER GLFW_PRESS; key_input GLFW_KEY_ESCAPE GLFW_PRESS]
           (0, 0) hasty fresh); [reflexivity |].
  right. left. reflexivity.
Defined.

Lemma late_frames_play_queue_witness :
  rotate_que (@run_frames core_platform slow_clock two_queued) = [].
Proof.
  destruct (@late_frames_play_queue core_platform slow_clock two_queued) as (Hq & _).
  - reflexivity.
  - repeat constructor.
  - exact Hq.
Defined.

Lemma scramble_prints_its_moves_witness :
  ∃ moves : list (face_type * Z),
    length moves = Z.to_nat (scrambleMoves fresh)
    ∧ Forall (λ m, 1 ≤ m.2 ≤ 3) moves
    ∧ rotate_que (cb_viewer (@keyCallback core_platform two_moves GLFW_KEY_ENTER GLFW_PRESS fresh))
      = (rotate_que (cb_viewer fresh) ++ map (λ m, (m.1, 1, m.2)) moves)%list
    ∧ cout (@keyCallback core_platform two_moves GLFW_KEY_ENTER GLFW_PRESS fresh)
      = (cout fresh
        ++ (endl ++ "Scrambling with " ++ pretty (scrambleMoves fresh) ++ " random moves:" ++ endl)
        ++ solution_text moves
        ++ (endl ++ endl ++ "Scramble complete. Press Space to solve." ++ endl))%string.
Proof.
  apply (@scramble_prints_its_moves core_platform two_moves GLFW_PRESS fresh);
    [by left | reflexivity | reflexivity].
Defined.

Lemma scramble_length_bounded_witness :
  (length (rotate_que (cb_viewer
      (@keyCallback core_platform two_moves GLFW_KEY_ENTER GLFW_PRESS
         (@run core_platform two_moves hasty (@started core_platform 3 counting)))))
   = length (rotate_que (cb_viewer
      (@run core_platform two_moves hasty (@started core_platform 3 counting)))) + 3)%nat.
Proof.
  apply (@scramble_length_bounded core_platform two_moves
           ["solver"; "-s"; "3"]%string Cli.kociemba 1 3 hasty counting).
  reflexivity.
Defined.


Lemma animation_marks_front_move_witness :
  ∃ f depth cnt rest,
    rotate_que (@session core_platform front_started (@viewer_new core_platform))
    = (f, depth, cnt) :: rest
    ∧ (rotate_mask (@session core_platform front_started (@viewer_new core_platform)),
       rotate_vec (@session core_platform front_started (@viewer_new core_platform)))
      = start_mask f
          (cube_size (@session core_platform front_started (@viewer_new core_platform)))
          depth (if cnt <? 0 then (-1)%float else 1%float).
Proof.
  apply (@animation_marks_front_move core_platform front_started);
    [repeat constructor | reflexivity].
Defined.

Lemma animation_turns_one_layer_witness :
  ∃ f depth cnt rest,
    rotate_que (@session core_platform front_started (@viewer_new core_platform))
    = (f, depth, cnt) :: rest
    ∧ (1 ≤ depth ≤ 3 →
       length (filter (λ b, is_turned
                              (@session core_platform front_started (@viewer_new core_platform))
                              b = true)
                 (blocks (@session core_platform front_started (@viewer_new core_platform))))
       = 9%nat).
Proof.
  apply (@animation_turns_one_layer core_platform front_started);
    [repeat constructor | reflexivity].
Defined.

Lemma rest_frame_unturned_witness :
  rotate_que (@session core_platform front_played (@viewer_new core_platform)) = []
  ∧ cube (@session core_platform front_played (@viewer_new core_platform))
    = Cube.rotate front 1 Cube.solved
  ∧ ∃ ms,
      drawn_under
        (@draw core_platform (λ _ _ _ _, outline) (λ _ _ _ _, outline)
           (@session core_platform front_played (@viewer_new core_platform))) [] []
      = Some (ms, ([], []))
      ∧ Forall (λ m, m = [] ++ camera (@session core_platform front_played
                                          (@viewer_new core_platform)))
          ms.
Proof.
  split; [by vm_compute |]. split; [by vm_compute |].
  apply (@rest_frame_unturned core_platform (λ _ _ _ _, outline) (λ _ _ _ _, outline)
           front_played [] []).
  reflexivity.
Defined.

End PlayedFacts.
